(** * kNN-LM evaluation: scoring, chunked softmax and datastore writing

    A shallow embedding of [fairseq/sequence_scorer.py] (class
    [SequenceScorer]) and of the evaluation loop of
    [fairseq_cli/eval_lm.py] (function [main]).

    Conventions.
    - Python integers are [Z]; sequences and tensors are (nested) lists,
      a tensor of shape [(B, T, V)] being a list of [B] lists of [T] rows
      of [V] scalars.  Tensors are rectangular by construction in torch;
      here rectangularity is a hypothesis of the theorems that need it.
    - Scalars of floating tensors are kept abstract behind the class
      [Numeric]; the instance on the reals gives the exact arithmetic
      reading of the formulas.
    - Exceptions are explicit: a computation returns [Ok v] or [Raise e],
      and stateful code threads its state through both outcomes, so the
      state at the point of a [raise] stays observable.
    - Element types and devices ([.half()] apart) are not modelled, and
      broadcasting is modelled on the sliced axis of an assignment only:
      other shape mismatches are shape errors here. *)

From Stdlib Require Import ZArith List Bool Lia String Reals Lra.
From stdpp Require Import base option list gmap.
Import ListNotations.
Local Open Scope Z_scope.

(** ** Python outcomes and the state-and-exception monad *)

Inductive exn : Type :=
| ValueError (msg : string)
| AssertionError
| IndexError
| KeyError
| TypeError
| RuntimeError
| UnboundLocalError
| ZeroDivisionError
| NotImplementedError
| Unbounded.
(** [Unbounded] is not a Python exception: it stands for a loop that never
    exits (the model ran out of the fuel it grants the loop). *)

Inductive result (A : Type) : Type :=
| Ok (a : A)
| Raise (e : exn).
Arguments Ok {A} a.
Arguments Raise {A} e.

Definition is_ok {A} (r : result A) : bool :=
  match r with Ok _ => true | Raise _ => false end.

Definition rbind {A B} (r : result A) (f : A -> result B) : result B :=
  match r with Ok a => f a | Raise e => Raise e end.

Definition rmap {A B} (f : A -> B) (r : result A) : result B :=
  rbind r (fun a => Ok (f a)).

(** Run [f] over a list, stopping at the first exception. *)
Fixpoint map_r {A B} (f : A -> result B) (l : list A) : result (list B) :=
  match l with
  | [] => Ok []
  | a :: l' => rbind (f a) (fun b => rbind (map_r f l') (fun bs => Ok (b :: bs)))
  end.

(** Elementwise combination of two sequences that must have the same
    length (tensors of different shapes cannot be stacked or added). *)
Fixpoint zip_r {A B C} (f : A -> B -> result C) (la : list A) (lb : list B)
  : result (list C) :=
  match la, lb with
  | [], [] => Ok []
  | a :: la', b :: lb' =>
      rbind (f a b) (fun c => rbind (zip_r f la' lb') (fun cs => Ok (c :: cs)))
  | _, _ => Raise RuntimeError
  end.

(** The same along the second sequence only: the first may be longer. *)
Fixpoint along_r {A B C} (f : A -> B -> result C) (la : list A) (lb : list B)
  : result (list C) :=
  match lb, la with
  | [], _ => Ok []
  | b :: lb', a :: la' =>
      rbind (f a b) (fun c => rbind (along_r f la' lb') (fun cs => Ok (c :: cs)))
  | _ :: _, [] => Raise RuntimeError
  end.

Definition of_option {A} (e : exn) (o : option A) : result A :=
  match o with Some a => Ok a | None => Raise e end.

(** [prog S A]: a statement block running on a mutable store [S]. *)
Definition prog (S A : Type) : Type := S -> result A * S.

Definition ret {S A} (a : A) : prog S A := fun s => (Ok a, s).
Definition throw {S A} (e : exn) : prog S A := fun s => (Raise e, s).
Definition bind {S A B} (m : prog S A) (f : A -> prog S B) : prog S B :=
  fun s => match m s with
           | (Ok a, s') => f a s'
           | (Raise e, s') => (Raise e, s')
           end.
Definition get {S} : prog S S := fun s => (Ok s, s).
Definition modify {S} (f : S -> S) : prog S unit := fun s => (Ok tt, f s).
Definition lift {S A} (r : result A) : prog S A := fun s => (r, s).

Declare Scope prog_scope.
Delimit Scope prog_scope with prog.
Notation "x <- m ;; k" := (bind m (fun x => k))
  (at level 100, m at next level, right associativity) : prog_scope.
Notation "m ;;; k" := (bind m (fun _ => k))
  (at level 100, right associativity) : prog_scope.

(** A [for x in xs] loop whose body updates an accumulator. *)
Fixpoint for_each {S X A} (body : A -> X -> prog S A) (xs : list X) (a : A)
  : prog S A :=
  match xs with
  | [] => ret a
  | x :: xs' => bind (body a x) (fun a' => for_each body xs' a')
  end.

(** ** Python slices and numpy slice assignment *)

Module Py.

(** Bound of a slice on a sequence of [n] items: negative bounds count
    from the end, and every bound is clamped into [0..n]. *)
Definition slice_index (n i : Z) : Z :=
  if i <? 0 then Z.max 0 (i + n) else Z.min i n.

(** [l[lo:hi]] *)
Definition slice {A} (l : list A) (lo hi : Z) : list A :=
  let n := Z.of_nat (length l) in
  let lo' := slice_index n lo in
  let hi' := slice_index n hi in
  take (Z.to_nat (hi' - lo')) (drop (Z.to_nat lo') l).

(** [l[:hi]] and [l[lo:]] *)
Definition upto {A} (l : list A) (hi : Z) : list A := slice l 0 hi.
Definition from {A} (l : list A) (lo : Z) : list A :=
  slice l lo (Z.of_nat (length l)).

(** [dst[lo:hi] = src] on the leading axis of an array.  The selected
    window is clamped as for a slice; [src] must have as many rows as the
    window, or exactly one row, which is then broadcast over the window
    (also over an empty one); any other row count is a shape error. *)
Definition set_slice {A} (err : exn) (dst : list A) (lo hi : Z)
    (src : list A) : result (list A) :=
  let n := Z.of_nat (length dst) in
  let lo' := Z.to_nat (slice_index n lo) in
  let cnt := Z.to_nat (slice_index n hi - slice_index n lo) in
  let put rows := take lo' dst ++ rows ++ drop (lo' + cnt)%nat dst in
  if decide (length src = cnt) then Ok (put src)
  else match src with
       | [r] => Ok (put (replicate cnt r))
       | _ => Raise err
       end.

(** numpy reports the shape error as a [ValueError], torch as a
    [RuntimeError]. *)
Definition numpy_shape_error : exn :=
  ValueError "could not broadcast input array".

End Py.

(** ** Datastore writer (eval_lm.py, the [save_knnlm_dstore] block) *)

Module Writer.
Section Writer.

(** A key row: one hidden state of [decoder_embed_dim] floats. *)
Context {K : Type}.
(** [astype(np.float16)] / [astype(np.float32)] on a key row *)
Variable astype : bool -> K -> K.
(** content of a freshly created ([mode='w+']) memmap row *)
Variable zero_row : K.

Record dstore : Type := {
  dstore_idx : Z;
  dstore_keys : list K;
  dstore_vals : list Z;
  dstore_token_sample_map : gmap Z (Z * Z);
  stdout : list string
}.

Definition print (line : string) : prog dstore unit :=
  modify (fun d => {| dstore_idx := dstore_idx d;
                      dstore_keys := dstore_keys d;
                      dstore_vals := dstore_vals d;
                      dstore_token_sample_map := dstore_token_sample_map d;
                      stdout := stdout d ++ [line] |}).

(** [np.memmap(..., mode='w+', shape=(dstore_size, ...))] twice, and
    [dstore_idx = 0] *)
Definition open (dstore_size : Z) : dstore :=
  {| dstore_idx := 0;
     dstore_keys := replicate (Z.to_nat dstore_size) zero_row;
     dstore_vals := replicate (Z.to_nat dstore_size) 0;
     dstore_token_sample_map := ∅;
     stdout := [] |}.

Definition set_map (k : Z) (v : Z * Z) : prog dstore unit :=
  modify (fun d => {| dstore_idx := dstore_idx d;
                      dstore_keys := dstore_keys d;
                      dstore_vals := dstore_vals d;
                      dstore_token_sample_map :=
                        <[k := v]> (dstore_token_sample_map d);
                      stdout := stdout d |}).

Definition assign_keys (lo hi : Z) (src : list K) : prog dstore unit :=
  fun d => match Py.set_slice Py.numpy_shape_error (dstore_keys d) lo hi src with
           | Ok ks => (Ok tt, {| dstore_idx := dstore_idx d;
                                 dstore_keys := ks;
                                 dstore_vals := dstore_vals d;
                                 dstore_token_sample_map :=
                                   dstore_token_sample_map d;
                                 stdout := stdout d |})
           | Raise e => (Raise e, d)
           end.

Definition assign_vals (lo hi : Z) (src : list Z) : prog dstore unit :=
  fun d => match Py.set_slice Py.numpy_shape_error (dstore_vals d) lo hi src with
           | Ok vs => (Ok tt, {| dstore_idx := dstore_idx d;
                                 dstore_keys := dstore_keys d;
                                 dstore_vals := vs;
                                 dstore_token_sample_map :=
                                   dstore_token_sample_map d;
                                 stdout := stdout d |})
           | Raise e => (Raise e, d)
           end.

Definition advance (n : Z) : prog dstore unit :=
  modify (fun d => {| dstore_idx := dstore_idx d + n;
                      dstore_keys := dstore_keys d;
                      dstore_vals := dstore_vals d;
                      dstore_token_sample_map := dstore_token_sample_map d;
                      stdout := stdout d |}).

(** Lines 195-215 of eval_lm.py for one hypothesis: [keys] is
    [hypo['dstore_keys']], [tokens] is [hypo['tokens']].  A key row has
    [decoder_embed_dim] entries, so that [.view(-1, decoder_embed_dim)]
    keeps the rows; both precisions run the same statements, [astype]
    apart. *)
Definition write (dstore_size : Z) (dstore_fp16 : bool)
    (sample_id : Z) (keys : list K) (tokens : list Z) : prog dstore unit :=
  (d <- get ;;
   let shape0 := Z.of_nat (length keys) in
   keys' <- (if dstore_idx d + shape0 >? dstore_size then
               print "ERROR! dstore_size exceeded!" ;;;
               let shape0' := dstore_size - dstore_idx d in
               ret (Py.upto keys shape0')
             else ret keys) ;;
   let actual_size := Z.of_nat (length tokens) in
   set_map sample_id (dstore_idx d, actual_size + dstore_idx d) ;;;
   assign_keys (dstore_idx d) (actual_size + dstore_idx d)
               (astype dstore_fp16 <$> Py.upto keys' actual_size) ;;;
   assign_vals (dstore_idx d) (actual_size + dstore_idx d) tokens ;;;
   advance actual_size)%prog.

(** The writer run over the hypotheses of a run, in order. *)
Definition write_all (dstore_size : Z) (dstore_fp16 : bool)
    (hs : list (Z * list K * list Z)) : prog dstore unit :=
  for_each (fun _ '(sample_id, keys, tokens) =>
              write dstore_size dstore_fp16 sample_id keys tokens) hs tt.

End Writer.
End Writer.

(** ** Scalars of floating tensors *)

(** What the code asks of the scalars of floating tensors (and of Python
    floats).  [n_of_int] is the conversion of an integer, [n_pow x y] is
    [x ** y], [n_log] the natural logarithm, [n_logsumexp] reduces the
    values stacked along one axis, [n_is_zero] is [x == 0.], [n_floor] is
    the constant [-1e4], [n_half] is the cast of [.half()], and
    [n_argsort row] lists the indices of [row] by decreasing value (ties
    in an unspecified order). *)
Class Numeric (R : Type) : Type := {
  n_of_int : Z -> R;
  n_add : R -> R -> R;
  n_sub : R -> R -> R;
  n_neg : R -> R;
  n_div : R -> R -> R;
  n_pow : R -> R -> R;
  n_log : R -> R;
  n_logsumexp : list R -> R;
  n_is_zero : R -> bool;
  n_floor : R;
  n_half : R -> R;
  n_argsort : list R -> list Z
}.

Definition n_zero {R} `{Numeric R} : R := n_of_int 0.
Definition n_one {R} `{Numeric R} : R := n_of_int 1.
(** a tensor divided by a Python integer *)
Definition n_div_int {R} `{Numeric R} (x : R) (k : Z) : R :=
  n_div x (n_of_int k).

(** [t.sum()] *)
Definition n_sum {R} `{Numeric R} (l : list R) : R := fold_left n_add l n_zero.

(** [torch.topk(row, k)[1]]: the indices of the [k] largest entries; torch
    refuses a [k] beyond the length of the row. *)
Definition n_topk {R} `{Numeric R} (k : nat) (row : list R) : result (list Z) :=
  if decide (k <= length row)%nat then Ok (take k (n_argsort row))
  else Raise RuntimeError.

(** *** Exact arithmetic: the reals *)

(** Insertion of index [i] into a list of indices kept by decreasing
    value. *)
Fixpoint insert_desc (row : list R) (i : nat) (sorted : list nat) : list nat :=
  match sorted with
  | [] => [i]
  | j :: rest =>
      if Rle_dec (nth j row 0%R) (nth i row 0%R) then i :: sorted
      else j :: insert_desc row i rest
  end.

Definition real_argsort (row : list R) : list Z :=
  Z.of_nat <$> fold_right (insert_desc row) [] (seq 0 (length row)).

#[export] Instance real_numeric : Numeric R := {|
  n_of_int := IZR;
  n_add := Rplus;
  n_sub := Rminus;
  n_neg := Ropp;
  n_div := Rdiv;
  n_pow := Rpower;
  n_log := ln;
  n_logsumexp := fun l => ln (fold_right Rplus 0%R (exp <$> l));
  n_is_zero := fun x => if Req_dec_T x 0%R then true else false;
  n_floor := (-10000)%R;
  n_half := fun x => x;
  n_argsort := real_argsort
|}.

(** ** Tensors as nested lists *)

Module Tensor.

(** A function applied to every item at depth two, or three. *)
Definition map2 {A B} (g : A -> B) (t : list (list A)) : list (list B) :=
  (fun row : list A => g <$> row) <$> t.
Definition map3 {A B} (g : A -> B) (t : list (list (list A)))
  : list (list (list B)) :=
  map2 (fun row : list A => g <$> row) t.

(** [t.shape] of a two-dimensional tensor *)
Definition shape2 {A} (t : list (list A)) : nat * nat :=
  (length t, length (hd [] t)).

(** [t.numel()] of a two-dimensional tensor *)
Definition numel2 {A} (t : list (list A)) : nat := length (concat t).

(** Cut [data] into [m] consecutive groups of [n] items. *)
Fixpoint groups {A} (n m : nat) (data : list A) : list (list A) :=
  match m with
  | O => []
  | S m' => take n data :: groups n m' (drop n data)
  end.

(** [data.view(b, t)]: the element count must be [b * t]. *)
Definition view2 {A} (data : list A) (b t : nat) : result (list (list A)) :=
  if decide (length data = (b * t)%nat) then Ok (groups t b data)
  else Raise RuntimeError.

(** [data.view(b, t, -1)]: the last dimension is inferred, which torch
    refuses when [b * t = 0] or when [b * t] does not divide the element
    count. *)
Definition view3 {A} (data : list A) (b t : nat)
  : result (list (list (list A))) :=
  if decide ((b * t)%nat = 0%nat) then Raise RuntimeError
  else if decide ((length data mod (b * t))%nat = 0%nat) then
    let v := (length data / (b * t))%nat in
    Ok (groups t b (groups v (b * t) data))
  else Raise RuntimeError.

(** [t.permute(1, 0)] on a two-dimensional tensor, and the same
    exchange of the two leading axes of a three-dimensional one
    ([t.permute(1, 0, 2)]). *)
Definition permute10 {A} (t : list (list A)) : result (list (list A)) :=
  map_r (fun j => map_r (fun row => of_option IndexError (row !! j)) t)
        (seq 0 (length (hd [] t))).

(** [t.squeeze(-1)] followed by a use at rank two: every innermost row
    must be a singleton (otherwise the rank stays three and the later
    stack with a rank-two tensor is refused). *)
Definition squeeze_last {A} (t : list (list (list A)))
  : result (list (list A)) :=
  map_r (map_r (fun row => match row with
                           | [x] => Ok x
                           | _ => Raise RuntimeError
                           end)) t.

End Tensor.

(** ** The sequence scorer (sequence_scorer.py) *)

Module Scorer.

(** Tensors of rank two and three. *)
Abbreviation tensor2 A := (list (list A)).
Abbreviation tensor3 R := (list (list (list R))).

Section Scorer.

Context {R : Type} `{Numeric R}.


(** [decoder_out[1]]: a dict with the attention under ['attn'] and the
    hidden states ([T x B x C]) under the names of the extraction points,
    or the attention tensor itself, or nothing. *)
Inductive extra : Type :=
| ExtraDict (attn : option (tensor3 R)) (states : gmap string (tensor3 R))
| ExtraTensor (attn : tensor3 R)
| ExtraNone.

(** A decoder output [(first, rest)]. *)
Definition decoder_out : Type := tensor3 R * extra.

(** Lines 73-75: [attn = decoder_out[1]], replaced by [attn.get('attn')]
    when it is a dict. *)
Definition attn_of (rest : extra) : option (tensor3 R) :=
  match rest with
  | ExtraDict a _ => a
  | ExtraTensor a => Some a
  | ExtraNone => None
  end.

Record NetInput : Type := {
  src_tokens : tensor2 Z;
  src_lengths : list Z
}.

Record Sample : Type := {
  id : list Z;
  ntokens : Z;
  net_input : option NetInput;
  target : tensor2 Z;
  start_indices : option (list Z)
}.

Definition set_target (tgt : tensor2 Z) (s : Sample) : Sample :=
  {| id := id s; ntokens := ntokens s; net_input := net_input s;
     target := tgt; start_indices := start_indices s |}.

(** The model provider: [model(net_input)] and
    [model.get_normalized_probs(decoder_out, log_probs, sample)]. *)
Record Model : Type := {
  forward : NetInput -> result decoder_out;
  get_normalized_probs : decoder_out -> bool -> Sample -> result (tensor3 R)
}.

(** The retrieval provider:
    [get_knn_log_prob(queries, tgt, sample_ids, pad_idx, lm_probs)]
    (with [calc_vocab_prob=True]) returns the retrieval log-probability
    of the target ([T x B x 1]) and of the vocabulary ([T x B x V]). *)
Record KNN_Dstore : Type := {
  get_knn_log_prob :
    tensor3 R -> tensor2 Z -> list Z -> Z -> tensor2 R ->
    result (tensor3 R * tensor3 R)
}.

Record Args : Type := {
  save_top_pred : bool;
  knn_keytype : string;
  fp16 : bool;
  lmbda : R;
  save_knnlm_dstore : bool
}.

Record SequenceScorer : Type := {
  pad : Z;
  eos : Z;
  softmax_batch : Z;
  compute_alignment : bool;
  args : Args;
  top_preds : option (list (list (list Z)))
}.

Definition sys_maxsize : Z := 2 ^ 63 - 1.

(** [SequenceScorer.__init__]; [tgt_pad] and [tgt_eos] are
    [tgt_dict.pad()] and [tgt_dict.eos()]. *)
Definition init (tgt_pad tgt_eos : Z) (softmax_batch : option Z)
    (compute_alignment : bool) (args : Args) : result SequenceScorer :=
  let sb := match softmax_batch with
            | None => sys_maxsize
            | Some n => if n =? 0 then sys_maxsize else n
            end in
  if sb >? 0 then
    Ok {| pad := tgt_pad; eos := tgt_eos; softmax_batch := sb;
          compute_alignment := compute_alignment; args := args;
          top_preds := if save_top_pred args then Some [] else None |}
  else Raise AssertionError.

(** *** Batch softmax splitter *)

(** What the generator yields: [(chunk_output, chunk_target, is_single)]. *)
Definition chunk : Type := decoder_out * tensor2 Z * bool.

(** The [while s < flat.size(1)] loop; [fuel] bounds its iterations. *)
Fixpoint chunk_loop (fuel : nat) (softmax_batch : Z)
    (flat : list (list R)) (flat_tgt : list Z) (rest : extra) (s : Z)
  : result (list chunk) :=
  match fuel with
  | O => Raise Unbounded
  | S fuel' =>
      if s <? Z.of_nat (length flat) then
        let e := s + softmax_batch in
        rbind (chunk_loop fuel' softmax_batch flat flat_tgt rest e)
              (fun l => Ok (([Py.slice flat s e], rest,
                             [Py.slice flat_tgt s e], false) :: l))
      else Ok []
  end.

(** [batch_for_softmax(dec_out, target)], the yielded triples in order.
    [first.view(1, -1, dim)] is refused for [dim = 0], and
    [target.view(1, -1)] needs as many targets as positions. *)
Definition batch_for_softmax (softmax_batch : Z) (dec_out : decoder_out)
    (target : tensor2 Z) : result (list chunk) :=
  let '(first, rest) := dec_out in
  let '(bsz, tsz) := Tensor.shape2 first in
  let dim := length (hd [] (hd [] first)) in
  if Z.of_nat bsz * Z.of_nat tsz <? softmax_batch then
    Ok [(dec_out, target, true)]
  else
    let flat := concat first in
    let flat_tgt := concat target in
    if decide (dim = 0%nat) then Raise RuntimeError
    else if decide (length flat_tgt = length flat) then
      chunk_loop (S (length flat)) softmax_batch flat flat_tgt rest 0
    else Raise RuntimeError.

(** *** Gathering and combining *)

(** [probs.gather(dim=2, index=target.unsqueeze(-1))]: for every target
    position, the entry of the row of [probs] at that position that the
    target indexes, as a row of one item.  [probs] may extend beyond the
    index along the two leading axes, not fall short of it, and the
    index must be within the row. *)
Definition pick (row : list R) (tok : Z) : result (list R) :=
  if tok <? 0 then Raise RuntimeError
  else rbind (of_option RuntimeError (row !! Z.to_nat tok))
             (fun p => Ok [p]).

Definition gather_target_probs (probs : tensor3 R) (target : tensor2 Z)
  : result (tensor3 R) :=
  along_r (along_r pick) probs target.

(** One entry of [combine_knn_and_vocab_probs]: the two values stacked,
    the coefficients [log(1 - coeff)] and [log(coeff)] added, and the
    stack reduced by [logsumexp]. *)
Definition combine_scalar (coeff : R) (knn_p vocab_p : R) : R :=
  n_logsumexp [n_add vocab_p (n_log (n_sub n_one coeff));
               n_add knn_p (n_log coeff)].

Definition combine1 (knn_p vocab_p : list R) (coeff : R) : result (list R) :=
  zip_r (fun k v => Ok (combine_scalar coeff k v)) knn_p vocab_p.
Definition combine2 (knn_p vocab_p : tensor2 R) (coeff : R)
  : result (tensor2 R) :=
  zip_r (fun k v => combine1 k v coeff) knn_p vocab_p.
(** [combine_knn_and_vocab_probs(knn_p, vocab_p, coeff)] at rank three;
    [combine2] is the same function at rank two. *)
Definition combine_knn_and_vocab_probs (knn_p vocab_p : tensor3 R) (coeff : R)
  : result (tensor3 R) :=
  zip_r (fun k v => combine2 k v coeff) knn_p vocab_p.

(** *** [generate] *)

(** Content of memory obtained by [curr_prob.new(...)] (unspecified). *)
Variable uninit : R.
(** [utils.extract_hard_alignment(attn, src_sent, tgt_sent, pad, eos)] *)
Variable extract_hard_alignment :
  tensor2 R -> list Z -> list Z -> Z -> Z -> list Z.

(** Modelled from the spec: [utils.strip_pad] of fairseq/utils.py is not
    among the sources; the spec has the reference "padding stripped",
    that is the tokens other than [pad], in order. *)
Definition strip_pad (tensor : list Z) (pad : Z) : list Z :=
  filter (fun tok => tok ≠ pad) tensor.

Record Hypo : Type := {
  tokens : list Z;
  score : R;
  attention : option (tensor2 R);
  alignment : option (list Z);
  positional_scores : list R;
  dstore_keys : option (list (list R));
  predicted_topk : list (list Z)
}.

(** Calls made to the providers, in order; [k] is the position of the
    model in the ensemble. *)
Inductive call : Type :=
| Forward (k : nat)
| Normalize (k : nat)
| KnnQuery.

(** What [generate] can change or cause: the sample it was handed, and
    the calls made so far. *)
Record world : Type := {
  w_sample : Sample;
  w_calls : list call
}.

Definition log_call (c : call) : prog world unit :=
  modify (fun w => {| w_sample := w_sample w; w_calls := w_calls w ++ [c] |}).

(** [sample['target'] = tgt] *)
Definition store_target (tgt : tensor2 Z) : prog world unit :=
  modify (fun w => {| w_sample := set_target tgt (w_sample w);
                      w_calls := w_calls w |}).

(** [probs], [full_probs] and [idx] of the loop over chunks; [probs] is
    kept by its elements in row-major order, whatever its shape. *)
Record chunk_acc : Type := {
  c_probs : option (list R);
  c_full : option (tensor3 R);
  c_idx : Z
}.

Definition size0 {A} (t : list (list A)) : Z := Z.of_nat (length t).
Definition size1 {A} (t : list (list A)) : Z := Z.of_nat (length (hd [] t)).
Definition size2 {A} (t : list (list (list A))) : nat :=
  length (hd [] (hd [] t)).

(** The [else] branch of the loop body, lines 87-97. *)
Definition scatter_chunk (orig_target : tensor2 Z) (acc : chunk_acc)
    (curr_prob : tensor3 R) (tgt : tensor2 Z) : result chunk_acc :=
  let numel := Tensor.numel2 orig_target in
  let probs := match c_probs acc with
               | None => replicate numel uninit
               | Some p => p
               end in
  let full_probs :=
    match c_full acc with
    | None => replicate (length curr_prob)
                (replicate numel (replicate (size2 curr_prob) uninit))
    | Some f => f
    end in
  let step := size0 curr_prob * size1 curr_prob in
  let e := step + c_idx acc in
  rbind (zip_r (fun dst src => Py.set_slice RuntimeError dst (c_idx acc) e src)
               full_probs curr_prob) (fun full_probs' =>
  rbind (if decide (length (concat curr_prob) = Tensor.numel2 tgt)
         then Ok [concat curr_prob] else Raise RuntimeError) (fun viewed =>
  rbind (gather_target_probs viewed tgt) (fun tgt_probs =>
  rbind (Py.set_slice RuntimeError probs (c_idx acc) e
                      (concat (concat tgt_probs))) (fun probs' =>
  Ok {| c_probs := Some probs'; c_full := Some full_probs'; c_idx := e |})))).

(** Body of [for i, (bd, tgt, is_single) in enumerate(batched)],
    lines 80-98. *)
Definition chunk_body (k : nat) (model : Model) (n_models : nat)
    (orig_target : tensor2 Z) (acc : chunk_acc) (c : chunk)
  : prog world chunk_acc :=
  let '(bd, tgt, is_single) := c in
  (store_target tgt ;;;
   w <- get ;;
   log_call (Normalize k) ;;;
   curr_prob <- lift (get_normalized_probs model bd (n_models =? 1)%nat
                                           (w_sample w)) ;;
   acc' <- lift (if is_single : bool then
                   rbind (gather_target_probs curr_prob orig_target)
                         (fun probs =>
                            Ok {| c_probs := Some (concat (concat probs));
                                  c_full := Some curr_prob;
                                  c_idx := c_idx acc |})
                 else scatter_chunk orig_target acc curr_prob tgt) ;;
   store_target orig_target ;;;
   ret acc')%prog.

(** [full_probs[full_probs == 0.] = -1e4] *)
Definition floor_zeros (t : tensor3 R) : tensor3 R :=
  Tensor.map3 (fun x => if n_is_zero x then n_floor else x) t.

Definition add2 (a b : tensor2 R) : result (tensor2 R) :=
  zip_r (zip_r (fun x y => Ok (n_add x y))) a b.
Definition add3 (a b : tensor3 R) : result (tensor3 R) := zip_r add2 a b.

(** [decoder_out[1][self.args.knn_keytype]]: a dict is looked up, a
    tensor refuses a string as an index, and [None] any subscript. *)
Definition key_states (self : SequenceScorer) (rest : extra)
  : result (tensor3 R) :=
  match rest with
  | ExtraDict _ states =>
      of_option KeyError (states !! knn_keytype (args self))
  | ExtraTensor _ => Raise IndexError
  | ExtraNone => Raise TypeError
  end.

(** Lines 106-146: the retrieval branch for one model. *)
Definition fuse_knn (self : SequenceScorer) (n_models : nat)
    (dstore : KNN_Dstore) (rest : extra) (orig_target : tensor2 Z)
    (probs : tensor2 R) (full_probs : tensor3 R)
  : prog world (tensor2 R * tensor3 R) :=
  (queries <- lift (key_states self rest) ;;
   if negb (n_models =? 1)%nat then
     throw (ValueError "Only knn *log* probs are supported.")
   else
     tgt_t <- lift (Tensor.permute10 orig_target) ;;
     lm_probs <- lift (Tensor.permute10 probs) ;;
     w <- get ;;
     log_call KnnQuery ;;;
     r <- lift (get_knn_log_prob dstore queries tgt_t (id (w_sample w))
                                 (pad self) lm_probs) ;;
     yhat_knn_prob <- lift (rbind (Tensor.permute10 (fst r))
                                  Tensor.squeeze_last) ;;
     yhat_knn_vocab_prob <- lift (Tensor.permute10 (snd r)) ;;
     let cast2 (t : tensor2 R) :=
       if fp16 (args self) then Tensor.map2 n_half t else t in
     let cast3 (t : tensor3 R) :=
       if fp16 (args self) then Tensor.map3 n_half t else t in
     probs' <- lift (combine2 (cast2 yhat_knn_prob) (cast2 probs)
                              (lmbda (args self))) ;;
     full_probs' <- lift (combine_knn_and_vocab_probs
                            (cast3 yhat_knn_vocab_prob) full_probs
                            (lmbda (args self))) ;;
     ret (probs', full_probs'))%prog.

(** What survives one iteration of [for model in models]: [avg_probs],
    [avg_attn], and the [full_probs] and [decoder_out] of that model. *)
Definition ens_acc : Type :=
  option (tensor2 R * option (tensor3 R) * tensor3 R * decoder_out).

(** Body of [for model in models], lines 71-159. *)
Definition model_body (self : SequenceScorer) (n_models : nat)
    (knn_dstore : option KNN_Dstore) (inp : NetInput)
    (orig_target : tensor2 Z) (acc : ens_acc) (km : nat * Model)
  : prog world ens_acc :=
  let '(k, model) := km in
  (log_call (Forward k) ;;;
   decoder_out <- lift (forward model inp) ;;
   let attn := attn_of (snd decoder_out) in
   batched <- lift (batch_for_softmax (softmax_batch self) decoder_out
                                      orig_target) ;;
   cacc <- for_each (chunk_body k model n_models orig_target) batched
                    {| c_probs := None; c_full := None; c_idx := 0 |} ;;
   full0 <- lift (of_option TypeError (c_full cacc)) ;;
   probs0 <- lift (of_option TypeError (c_probs cacc)) ;;
   w <- get ;;
   let '(b, t) := Tensor.shape2 (target (w_sample w)) in
   probs <- lift (Tensor.view2 probs0 b t) ;;
   full_probs <- lift (Tensor.view3 (concat (concat (floor_zeros full0)))
                                    b t) ;;
   pf <- match knn_dstore with
         | Some dstore => fuse_knn self n_models dstore (snd decoder_out)
                                   orig_target probs full_probs
         | None => ret (probs, full_probs)
         end ;;
   avg_probs <- lift (match acc with
                      | None => Ok (fst pf)
                      | Some (avg_probs, _, _, _) => add2 avg_probs (fst pf)
                      end) ;;
   avg_attn <- lift (match attn, acc with
                     | Some a, Some (_, Some avg_attn, _, _) =>
                         rmap Some (add3 avg_attn a)
                     | Some a, _ => Ok (Some a)
                     | None, Some (_, avg_attn, _, _) => Ok avg_attn
                     | None, None => Ok None
                     end) ;;
   ret (Some (avg_probs, avg_attn, snd pf, decoder_out)))%prog.

(** Body of [for i in range(bsz)], lines 172-209. *)
Definition hypo_of (self : SequenceScorer) (sample : Sample)
    (avg_probs : tensor2 R) (avg_attn : option (tensor3 R))
    (topk_tokens : list (list (list Z))) (decoder_out : decoder_out)
    (start_idxs : list Z) (i : nat) : result (list Hypo) :=
  rbind (of_option IndexError (start_idxs !! i)) (fun start =>
  rbind (of_option IndexError (target sample !! i)) (fun trow =>
  let ref := strip_pad (Py.from trow start) (pad self) in
  let tgt_len := Z.of_nat (length ref) in
  rbind (of_option IndexError (avg_probs !! i)) (fun row =>
  let avg_probs_i := Py.slice row start (start + tgt_len) in
  let score_i := n_div_int (n_sum avg_probs_i) tgt_len in
  rbind (of_option IndexError (topk_tokens !! i)) (fun trk =>
  let topk_tokens_i := Py.slice trk start (start + tgt_len) in
  rbind (match avg_attn with
         | Some a =>
             rbind (of_option IndexError (a !! i)) (fun avg_attn_i =>
             if compute_alignment self then
               match net_input sample with
               | Some inp =>
                   rbind (of_option IndexError (src_tokens inp !! i))
                         (fun src => Ok (Some avg_attn_i,
                            Some (extract_hard_alignment avg_attn_i src trow
                                    (pad self) (eos self))))
               | None => Raise KeyError
               end
             else Ok (Some avg_attn_i, None))
         | None => Ok (None, None)
         end) (fun aa =>
  rbind (if save_knnlm_dstore (args self) then
           rbind (key_states self (snd decoder_out)) (fun st =>
           rmap Some (map_r (fun tb => of_option IndexError (tb !! i))
                            (Py.from st start)))
         else Ok None) (fun keys =>
  Ok [{| tokens := ref;
         score := score_i;
         attention := fst aa;
         alignment := snd aa;
         positional_scores := avg_probs_i;
         dstore_keys := keys;
         predicted_topk := topk_tokens_i |}])))))).

(** [avg_probs.div_(len(models)); avg_probs.log_()] and
    [avg_attn.div_(len(models))] *)
Definition average (n_models : nat) (avg_probs : tensor2 R)
    (avg_attn : option (tensor3 R)) : tensor2 R * option (tensor3 R) :=
  if (1 <? n_models)%nat then
    (Tensor.map2 (fun x => n_log (n_div_int x (Z.of_nat n_models))) avg_probs,
     Tensor.map3 (fun x => n_div_int x (Z.of_nat n_models)) <$> avg_attn)
  else (avg_probs, avg_attn).

(** [SequenceScorer.generate(models, sample, knn_dstore=...)] *)
Definition generate (self : SequenceScorer) (models : list Model)
    (knn_dstore : option KNN_Dstore) : prog world (list (list Hypo)) :=
  (w0 <- get ;;
   inp <- lift (of_option KeyError (net_input (w_sample w0))) ;;
   let orig_target := target (w_sample w0) in
   acc <- for_each (model_body self (length models) knn_dstore inp
                               orig_target)
                   (imap (fun k m => (k, m)) models) None ;;
   r <- lift (of_option UnboundLocalError acc) ;;
   let '(avg_probs0, avg_attn0, full_probs, decoder_out) := r in
   let '(avg_probs, avg_attn) :=
     average (length models) avg_probs0 avg_attn0 in
   topk_tokens <- lift (map_r (map_r (n_topk 100)) full_probs) ;;
   let bsz := length avg_probs in
   w <- get ;;
   let start_idxs := match start_indices (w_sample w) with
                     | Some l => l
                     | None => replicate bsz 0
                     end in
   lift (map_r (hypo_of self (w_sample w) avg_probs avg_attn topk_tokens
                        decoder_out start_idxs) (seq 0 bsz)))%prog.

End Scorer.

Arguments extra R : clear implicits.
Arguments decoder_out R : clear implicits.
Arguments Model R : clear implicits.
Arguments KNN_Dstore R : clear implicits.
Arguments Args R : clear implicits.
Arguments SequenceScorer R : clear implicits.
Arguments chunk R : clear implicits.
Arguments Hypo R : clear implicits.
Arguments chunk_acc R : clear implicits.
Arguments ens_acc R : clear implicits.

End Scorer.

(** ** The evaluation driver (eval_lm.py, [main]) *)

Module Driver.
Section Driver.

Context {R : Type} `{Numeric R}.
Variable uninit : R.
Variable extract_hard_alignment :
  list (list R) -> list Z -> list Z -> Z -> Z -> list Z.
Variable astype : bool -> list R -> list R.

(** The parsed arguments [main] reads, the scorer's among them. *)
Record Args : Type := {
  scorer_args : Scorer.Args R;
  softmax_batch : option Z;
  knnlm : bool;
  dstore_size : Z;
  dstore_fp16 : bool;
  decoder_embed_dim : Z;
  add_bos_token : bool;
  (** [None]: no [--remove-bpe]; [Some None]: ['sentencepiece'];
      [Some (Some toks)]: the ids of the tokens that end with the
      continuation marker *)
  remove_bpe : option (option (gset Z))
}.

(** [task.target_dictionary]: the ids of its special symbols. *)
Record Dictionary : Type := {
  dict_pad : Z;
  dict_eos : Z;
  dict_bos : Z
}.

Inductive event : Type :=
| LoadKnn                                  (** [KNN_Dstore(args)] *)
| OpenMemmaps                              (** the two [np.memmap] *)
| Call (ex_i : nat) (c : Scorer.call)      (** a provider call for a batch *)
| Scored (ex_i : nat).                     (** [generate] returned *)

Record run : Type := {
  events : list event;
  store : option (Writer.dstore (K := list R));
  score_sum : option R;  (** [None]: still the Python float [0.] *)
  count : Z;
  prediction_save : list (list (list Z) * list Z)
}.

Definition log_events (es : list event) : prog run unit :=
  modify (fun r => {| events := events r ++ es; store := store r;
                      score_sum := score_sum r; count := count r;
                      prediction_save := prediction_save r |}).

Definition set_store (d : Writer.dstore) (r : run) : run :=
  {| events := events r; store := Some d; score_sum := score_sum r;
     count := count r; prediction_save := prediction_save r |}.

(** Run a block of the datastore writer on the driver's memmaps. *)
Definition on_store {A} (m : prog Writer.dstore A) : prog run A :=
  fun r => match store r with
           | Some d => let '(res, d') := m d in (res, set_store d' r)
           | None => (Raise UnboundLocalError, r)
           end.

(** The [for i in range(tgt_len - 1)] loop over continuation tokens,
    lines 231-235: returns [skipped_toks] and the folded scores. *)
Definition fold_bpe (bpe_toks : gset Z) (tgt_len : Z) (tokens : list Z)
    (pos_scores : list R) : result (Z * list R) :=
  fold_left
    (fun acc i =>
       rbind acc (fun '(skipped_toks, ps) =>
       rbind (of_option IndexError (tokens !! i)) (fun tok =>
       if bool_decide (tok ∈ bpe_toks) then
         rbind (of_option IndexError (ps !! i)) (fun x =>
         rbind (of_option IndexError (ps !! S i)) (fun y =>
         Ok (skipped_toks + 1,
             <[i := n_zero]> (<[S i := n_add y x]> ps))))
       else Ok (skipped_toks, ps))))
    (seq 0 (Z.to_nat (tgt_len - 1)))
    (Ok (0, pos_scores)).

(** Lines 217-245: the statistics of one hypothesis. *)
Definition accumulate (a : Args) (dict : Dictionary)
    (hypo : Scorer.Hypo R) : prog run unit :=
  let tokens := Scorer.tokens hypo in
  let tgt_len := Z.of_nat (length tokens) in
  let pos_scores := Scorer.positional_scores hypo in
  (modify (fun r => {| events := events r; store := store r;
                       score_sum := score_sum r; count := count r;
                       prediction_save :=
                         prediction_save r ++
                         [(Scorer.predicted_topk hypo, tokens)] |}) ;;;
   tp <- lift (if add_bos_token a then
                 match tokens with
                 | [] => Raise IndexError
                 | t0 :: _ =>
                     if t0 =? dict_bos dict
                     then Ok (Py.from tokens 1, Py.from pos_scores 1)
                     else Raise AssertionError
                 end
               else Ok (tokens, pos_scores)) ;;
   sp <- lift (match remove_bpe a with
               | Some (Some bpe_toks) =>
                   fold_bpe bpe_toks tgt_len (fst tp) (snd tp)
               | _ => Ok (0, snd tp)
               end) ;;
   modify (fun r =>
     {| events := events r; store := store r;
        score_sum := Some (n_add (default n_zero (score_sum r))
                                 (n_sum (snd sp)));
        count := count r + (Z.of_nat (length (snd sp)) - fst sp);
        prediction_save := prediction_save r |}))%prog.

(** Body of [for i, hypos_i in enumerate(hypos)], lines 192-245. *)
Definition per_hypo (a : Args) (dict : Dictionary) (sample : Scorer.Sample)
    (_ : unit) (ih : nat * list (Scorer.Hypo R)) : prog run unit :=
  let '(i, hypos_i) := ih in
  (hypo <- lift (of_option IndexError (hypos_i !! 0%nat)) ;;
   sample_id <- lift (of_option IndexError (Scorer.id sample !! i)) ;;
   (if Scorer.save_knnlm_dstore (scorer_args a) then
      keys <- lift (of_option TypeError (Scorer.dstore_keys hypo)) ;;
      on_store (Writer.write astype (dstore_size a) (dstore_fp16 a)
                             sample_id keys (Scorer.tokens hypo))
    else ret tt) ;;;
   accumulate a dict hypo)%prog.

(** Body of [for ex_i, sample in enumerate(t)], lines 177-278. *)
Definition per_sample (a : Args) (dict : Dictionary)
    (scorer : Scorer.SequenceScorer R) (models : list (Scorer.Model R))
    (knn_dstore : option (Scorer.KNN_Dstore R)) (_ : unit)
    (es : nat * Scorer.Sample) : prog run unit :=
  let '(ex_i, sample) := es in
  match Scorer.net_input sample with
  | None => ret tt
  | Some _ =>
      let '(res, w) :=
        Scorer.generate uninit extract_hard_alignment scorer models
                        knn_dstore
                        {| Scorer.w_sample := sample;
                           Scorer.w_calls := [] |} in
      (log_events (Call ex_i <$> Scorer.w_calls w) ;;;
       hypos <- lift res ;;
       log_events [Scored ex_i] ;;;
       for_each (per_hypo a dict (Scorer.w_sample w))
                (imap (fun i h => (i, h)) hypos) tt)%prog
  end.

(** Line 288 and the two logged values of line 292:
    [avg_nll_loss] and [2 ** avg_nll_loss]. *)
Definition finalize (score_sum : option R) (count : Z) : result (R * R) :=
  match score_sum, count with
  | None, 0 => Raise ZeroDivisionError
  | _, _ =>
      let avg_nll_loss :=
        n_div (n_div_int (n_neg (default n_zero score_sum)) count)
              (n_log (n_of_int 2)) in
      Ok (avg_nll_loss, n_pow (n_of_int 2) avg_nll_loss)
  end.

(** Line 281 prints [shape], a variable that line 196 binds for each
    hypothesis written, the mapping receiving its range at line 203:
    the loop over the batches having ended, [shape] is bound when the
    mapping has an entry, and unbound when no hypothesis was read. *)
Definition shape_bound (store : option (Writer.dstore (K := list R)))
  : bool :=
  match store with
  | Some d => bool_decide (Writer.dstore_token_sample_map d <> ∅)
  | None => false
  end.

Definition initial : run :=
  {| events := []; store := None; score_sum := None; count := 0;
     prediction_save := [] |}.

(** [main], from the ensemble check of line 108 on: [models] is the
    loaded ensemble, [samples] what the batch iterator yields, [knn] the
    retrieval provider that [KNN_Dstore(args)] builds.  Of the closing
    report of a datastore run, lines 280-286, the reading of [shape] is
    kept. *)
Definition main (a : Args) (dict : Dictionary)
    (models : list (Scorer.Model R)) (knn : Scorer.KNN_Dstore R)
    (samples : list Scorer.Sample) : prog run (R * R) :=
  ((if decide (0 < length models)%nat then ret tt
    else throw AssertionError) ;;;
   scorer <- lift (Scorer.init (dict_pad dict) (dict_eos dict)
                               (softmax_batch a) false (scorer_args a)) ;;
   (match remove_bpe a with
    | Some None => throw NotImplementedError
    | _ => ret tt
    end) ;;;
   (if knnlm a && Scorer.save_knnlm_dstore (scorer_args a) then
      throw (ValueError
               "Cannot use knnlm while trying to build the datastore!")
    else ret tt) ;;;
   (if knnlm a then log_events [LoadKnn] else ret tt) ;;;
   (if Scorer.save_knnlm_dstore (scorer_args a) then
      log_events [OpenMemmaps] ;;;
      modify (set_store (Writer.open (replicate (Z.to_nat (decoder_embed_dim a)) n_zero)
                                     (dstore_size a)))
    else ret tt) ;;;
   for_each (per_sample a dict scorer models
                        (if knnlm a then Some knn else None))
            (imap (fun ex_i s => (ex_i, s)) samples) tt ;;;
   (if Scorer.save_knnlm_dstore (scorer_args a) then
      r <- get ;;
      if shape_bound (store r) then ret tt else throw UnboundLocalError
    else ret tt) ;;;
   r <- get ;;
   lift (finalize (score_sum r) (count r)))%prog.

End Driver.
End Driver.
Module Spec.
(** [t] has shape [(b, c)]: [b] rows of [c] items each. *)
Definition has_shape {A} (t : list (list A)) (b c : nat) : Prop :=
  length t = b /\ Forall (fun row => length row = c) t.

(** Two tensors of rank three have identical shapes. *)
Definition same_shape3 {A B} (a : list (list (list A)))
    (b : list (list (list B))) : Prop :=
  Forall2 (Forall2 (fun r1 r2 => length r1 = length r2)) a b.
Definition same_shape2 {A B} (a : list (list A)) (b : list (list B)) : Prop :=
  Forall2 (fun r1 r2 => length r1 = length r2) a b.

Section Probabilities.
Context {R : Type} `{Numeric R}.

(** The entry of [row] for the token [tok]. *)
Definition entry (row : list R) (tok : Z) : R :=
  default n_zero (row !! Z.to_nat tok).

(** The probability each position gives its target token. *)
Definition target_probs (probs : list (list (list R)))
    (target : list (list Z)) : list (list R) :=
  zip_with (zip_with entry) probs target.

(** Every token of [target] indexes a vocabulary of [v] symbols. *)
Definition in_vocab (v : nat) (target : list (list Z)) : Prop :=
  Forall (Forall (fun tok => 0 <= tok < Z.of_nat v)) target.
End Probabilities.

(** A decoder output [first] of shape [(b, t, _)], normalised row by
    row by [f] into distributions over [v] symbols, with a target of
    shape [(b, t)] over these symbols; the batch is not empty. *)
Record well_shaped {R} (b t v : nat) (first : list (list (list R)))
    (f : list R -> list R) (target : list (list Z)) : Prop := {
  ws_batch : (0 < b)%nat;
  ws_time : (0 < t)%nat;
  ws_first : has_shape first b t;
  ws_dim : Forall (Forall (fun row => (0 < length row)%nat)) first;
  ws_target : has_shape target b t;
  ws_vocab : Forall (Forall (fun row => length (f row) = v)) first;
  ws_range : in_vocab v target
}.

(** What the assembly of the hypotheses of a batch of [b] sequences
    reads besides the scores: a start offset per sequence when the
    sample has them, source tokens per sequence when alignments are
    extracted, and hidden states for every sequence when the datastore
    is being built. *)
Record assembles {R} (self : Scorer.SequenceScorer R)
    (sample : Scorer.Sample) (rest : Scorer.extra R) (b : nat) : Prop := {
  as_starts :
    forall l, Scorer.start_indices sample = Some l -> (b <= length l)%nat;
  as_align :
    Scorer.compute_alignment self = true ->
    exists inp, Scorer.net_input sample = Some inp /\
                (b <= length (Scorer.src_tokens inp))%nat;
  as_keys :
    Scorer.save_knnlm_dstore (Scorer.args self) = true ->
    exists st, Scorer.key_states self rest = Ok st /\
               Forall (fun tb => (b <= length tb)%nat) st
}.

Section Hypotheses.
Context {R : Type} `{Numeric R}.

(** The start offset of sequence [i]. *)
Definition start_of (sample : Scorer.Sample) (i : nat) : Z :=
  match Scorer.start_indices sample with
  | Some l => default 0 (l !! i)
  | None => 0
  end.

(** The reference of a sequence: its target from the start offset on,
    padding stripped. *)
Definition reference (pad : Z) (trow : list Z) (start : Z) : list Z :=
  Scorer.strip_pad (Py.from trow start) pad.

(** The positions [start .. start + len(reference)] of a row. *)
Definition window {A} (pad : Z) (trow : list Z) (start : Z)
    (row : list A) : list A :=
  Py.slice row start
    (start + Z.of_nat (length (reference pad trow start))).

(** The probabilities a sequence gives its target tokens, position by
    position: [f] normalises a decoder row into a distribution. *)
Definition positional (f : list R -> list R) (prow : list (list R))
    (trow : list Z) : list R :=
  zip_with entry (f <$> prow) trow.

(** The 100 best tokens of a distribution whose zero entries have been
    floored. *)
Definition top100 (row : list R) : list Z :=
  take 100 (n_argsort
              ((fun x => if n_is_zero x then n_floor else x) <$> row)).
End Hypotheses.

(** The shape of a tensor of rank three, as the lengths of its rows. *)
Definition shape3 {A} (a : list (list (list A))) : list (list nat) :=
  Tensor.map2 length a.

(** [model] scores the batch as a member of an ensemble of several
    models: its forward pass returns a decoder output that it normalises
    row by row into linear probabilities, well shaped for the target, and
    its attention, if any, has the shape [ashape]. *)
Definition scores {R} (inp : Scorer.NetInput) (target : list (list Z))
    (b t : nat) (ashape : list (list nat)) (model : Scorer.Model R) : Prop :=
  exists first rest f v,
    Scorer.forward model inp = Ok (first, rest) /\
    (forall bd s,
       Scorer.get_normalized_probs model bd false s
       = Ok (Tensor.map2 f bd.1)) /\
    well_shaped b t v first f target /\
    (forall a, Scorer.attn_of rest = Some a -> shape3 a = ashape).

(** A run of the driver ended on an exception raised before any call to
    a model or to the retrieval provider. *)
Definition before_processing {R A} (run : result A * Driver.run (R := R))
  : Prop :=
  (exists e, run.1 = Raise e) /\
  forall ex_i c, Driver.Call ex_i c ∉ Driver.events run.2.

(** [m], when it returns, leaves the sample [smp] as it found it. *)
Definition keeps {A} (smp : Scorer.Sample) (m : prog Scorer.world A) : Prop :=
  forall w a w',
    m w = (Ok a, w') -> Scorer.w_sample w = smp -> Scorer.w_sample w' = smp.
End Spec.

(** ** Concrete inputs *)

Module Examples.
Import Scorer.

Definition args0 : Args R :=
  {| save_top_pred := false; knn_keytype := "last_ffn_input";
     fp16 := false; lmbda := (1 / 4)%R; save_knnlm_dstore := false |}.

(** A decoder output for a batch of two sequences of three positions
    over a vocabulary of [v] symbols. *)
Definition logits (v : nat) (k : Z) : list (list (list R)) :=
  (fun b : nat =>
     (fun t : nat =>
        (fun c : nat => IZR (k + Z.of_nat (b + t + c))) <$> seq 0 v)
     <$> seq 0 3) <$> seq 0 2.

Definition toy_target : list (list Z) := [[5; 6; 1]; [7; 1; 1]].

(** A model whose decoder output is [logits v k] and whose normalised
    scores are the decoder's. *)
Definition toy_states : list (list (list R)) :=
  (fun t : nat => (fun b : nat => [IZR (Z.of_nat (t + b))]) <$> seq 0 2)
  <$> seq 0 3.

Definition toy_extra : extra R :=
  ExtraDict None (<["last_ffn_input"%string := toy_states]> ∅).

Definition toy_model (v : nat) (k : Z) : Model R :=
  {| forward := fun _ => Ok (logits v k, toy_extra);
     get_normalized_probs := fun bd _ _ => Ok (Tensor.map2 (fun row => row) bd.1) |}.

Definition toy_sample : Sample :=
  {| id := [10; 11]; ntokens := 6;
     net_input := Some {| src_tokens := toy_target; src_lengths := [3; 3] |};
     target := toy_target; start_indices := None |}.

Definition toy_world : world :=
  {| w_sample := toy_sample; w_calls := [] |}.

Definition no_alignment (_ : list (list R)) (_ _ : list Z) (_ _ : Z)
  : list Z := [].

(** A scorer with ceiling 4, as [init] builds it. *)
Definition toy_scorer : SequenceScorer R :=
  {| pad := 1; eos := 2; softmax_batch := 4; compute_alignment := false;
     args := args0; top_preds := None |}.

(** One model over 100 symbols scoring the toy batch in two chunks. *)
Definition toy_run : result (list (list (Hypo R))) * world :=
  generate 0%R no_alignment toy_scorer [toy_model 100 0] None toy_world.

(** A writer that stores 32-bit rows as they are. *)
Definition keep (_ : bool) (row : list R) : list R := row.

(** The driver's arguments for retrieval fusion, and a retrieval provider
    that fails when queried. *)
Definition knn_args : Driver.Args (R := R) :=
  {| Driver.scorer_args := args0; Driver.softmax_batch := Some 4;
     Driver.knnlm := true; Driver.dstore_size := 10;
     Driver.dstore_fp16 := false; Driver.decoder_embed_dim := 1;
     Driver.add_bos_token := false; Driver.remove_bpe := None |}.

Definition toy_dict : Driver.Dictionary :=
  {| Driver.dict_pad := 1; Driver.dict_eos := 2; Driver.dict_bos := 0 |}.

Definition toy_knn : KNN_Dstore R :=
  {| get_knn_log_prob := fun _ _ _ _ _ => Raise RuntimeError |}.

(** Retrieval fusion requested with two models, on one batch, and on no
    batch at all. *)
Definition knn_ensemble_run : result (R * R) * Driver.run :=
  Driver.main 0%R no_alignment keep knn_args toy_dict
    [toy_model 100 0; toy_model 100 7] toy_knn [toy_sample] Driver.initial.
Definition knn_ensemble_idle : result (R * R) * Driver.run :=
  Driver.main 0%R no_alignment keep knn_args toy_dict
    [toy_model 100 0; toy_model 100 7] toy_knn [] Driver.initial.

(** Key rows and token ids of a hypothesis of [n] tokens whose first
    token is [t0]. *)
Definition key_rows (n : nat) (t0 : Z) : list (list R) :=
  (fun i : nat => [IZR (t0 + Z.of_nat i)]) <$> seq 0 n.
Definition token_ids (n : nat) (t0 : Z) : list Z :=
  (fun i : nat => t0 + Z.of_nat i) <$> seq 0 n.
End Examples.
(** ** The layout of a datastore written without overflow *)

Module Layout.
Section Layout.
Context {K : Type}.
Variable astype : bool -> K -> K.

(** Every write of [hs], started at the cursor [idx], finds room for its
    key rows, and no hypothesis has more tokens than key rows. *)
Fixpoint fits (dstore_size idx : Z) (hs : list (Z * list K * list Z)) : Prop :=
  match hs with
  | [] => True
  | (_, keys, tokens) :: hs' =>
      idx + Z.of_nat (length keys) <= dstore_size /\
      (length tokens <= length keys)%nat /\
      fits dstore_size (idx + Z.of_nat (length tokens)) hs'
  end.

(** The range [(start, end)] of every hypothesis, laid end to end from
    the cursor [idx]. *)
Fixpoint ranges (idx : Z) (hs : list (Z * list K * list Z))
  : list (Z * (Z * Z)) :=
  match hs with
  | [] => []
  | (sample_id, _, tokens) :: hs' =>
      (sample_id, (idx, Z.of_nat (length tokens) + idx))
      :: ranges (idx + Z.of_nat (length tokens)) hs'
  end.

(** The values and the key rows of the hypotheses, in order: all the
    tokens, and as many key rows as tokens, cast to the precision. *)
Definition values (hs : list (Z * list K * list Z)) : list Z :=
  concat ((fun h : Z * list K * list Z => h.2) <$> hs).
Definition key_rows (dstore_fp16 : bool) (hs : list (Z * list K * list Z))
  : list K :=
  concat ((fun h : Z * list K * list Z =>
             astype dstore_fp16 <$> take (length h.2) h.1.2) <$> hs).

End Layout.
End Layout.

(** ** Entries and probability mass *)

Module Dist.

(** The entry [t[i][j][k]] of a tensor of rank three, and the row
    [t[i][j]]. *)
Definition row {A} (t : list (list (list A))) (i j : nat) : option (list A) :=
  t !! i ≫= (fun m => m !! j).
Definition entry {A} (t : list (list (list A))) (i j k : nat) : option A :=
  row t i j ≫= (fun r => r !! k).

(** The item [t[i][j]] of a tensor of rank two or more. *)
Definition cell {A} (t : list (list A)) (i j : nat) : option A :=
  t !! i ≫= (fun r => r !! j).

(** The probability mass of a row of log-probabilities. *)
Definition mass (logp : list R) : R := fold_right Rplus 0%R (exp <$> logp).

End Dist.

(** ** The members of an ensemble over one batch *)

Module Ensemble.
Section Ensemble.
Context {R : Type} `{Numeric R}.

(** What a member gives for the batch: its decoder output, the rest of
    it, the normalisation of a decoder row into a distribution, and the
    size of the vocabulary. *)
Definition output : Type :=
  list (list (list R)) * Scorer.extra R * (list R -> list R) * nat.

(** [model] scores the batch with the output [o]: its forward pass
    returns the decoder output, which it normalises row by row, asked
    for log-probabilities or not as [log_probs] has it, into
    distributions well shaped for the target. *)
Definition scores_as (log_probs : bool) (inp : Scorer.NetInput)
    (target : list (list Z)) (b t : nat) (model : Scorer.Model R)
    (o : output) : Prop :=
  let '(first, rest, f, v) := o in
  Scorer.forward model inp = Ok (first, rest) /\
  (forall bd s,
     Scorer.get_normalized_probs model bd log_probs s
     = Ok (Tensor.map2 f bd.1)) /\
  Spec.well_shaped b t v first f target.

(** The attention of the output, if any, has the shape [ashape]. *)
Definition attends (ashape : list (list nat)) (o : output) : Prop :=
  forall a, Scorer.attn_of o.1.1.2 = Some a -> Spec.shape3 a = ashape.

(** The probability the member gives each target token. *)
Definition target_probs (target : list (list Z)) (o : output)
  : list (list R) :=
  Spec.target_probs (Tensor.map2 o.1.2 o.1.1.1) target.

(** The sum of the members' target probabilities, entry by entry and
    in the order of the ensemble, and the logarithm of their mean. *)
Definition add (a b : list (list R)) : list (list R) :=
  zip_with (zip_with n_add) a b.
Definition sum (gs : list (list (list R))) : option (list (list R)) :=
  match gs with
  | [] => None
  | g :: gs' => Some (fold_left add gs' g)
  end.
Definition mean_log (n : nat) (gs : list (list (list R)))
  : option (list (list R)) :=
  Tensor.map2 (fun x => n_log (n_div_int x (Z.of_nat n))) <$> sum gs.

(** The number of normalisation calls for a batch of [b * t] positions
    under the ceiling [M], and the calls that [n] members make. *)
Definition passes (M : Z) (b t : nat) : nat :=
  if Z.of_nat (b * t) <? M then 1%nat
  else Z.to_nat ((Z.of_nat (b * t) + M - 1) / M).
Definition calls (M : Z) (b t n : nat) : list Scorer.call :=
  concat ((fun k => Scorer.Forward k
                    :: replicate (passes M b t) (Scorer.Normalize k))
          <$> seq 0 n).

(** What the loop over models keeps true of its accumulator
    [(avg_probs, avg_attn, full_probs, decoder_out)] once the members
    with the outputs [os] have been through, on a batch of shape
    [(b, t)]: the sum so far, attention of the shape [ashape], and the
    distributions and decoder output of the last member. *)
Definition done_with (b t : nat) (target : list (list Z))
    (ashape : list (list nat)) (os : list output) (acc : Scorer.ens_acc R)
  : Prop :=
  match acc with
  | None => os = []
  | Some (avg, att, full, dec) =>
      sum (target_probs target <$> os) = Some avg /\
      Spec.has_shape avg b t /\
      (forall a, att = Some a -> Spec.shape3 a = ashape) /\
      exists first rest f v,
        last os = Some (first, rest, f, v) /\
        full = Scorer.floor_zeros (Tensor.map2 f first) /\
        dec = (first, rest)
  end.

End Ensemble.
End Ensemble.

(** ** Runs that differ by the calls logged *)

Module Outcome.

(** From worlds that hold the sample [smp] the two blocks end alike:
    same value or same exception, and the sample still [smp]; the calls
    logged may differ. *)
Definition alike {A} (smp : Scorer.Sample) (m1 m2 : prog Scorer.world A)
  : Prop :=
  forall w1 w2,
    Scorer.w_sample w1 = smp -> Scorer.w_sample w2 = smp ->
    (m1 w1).1 = (m2 w2).1 /\
    Scorer.w_sample (m1 w1).2 = smp /\
    Scorer.w_sample (m2 w2).2 = smp.

End Outcome.

(** ** Word statistics (eval_lm.py: [WordStat], and the word block of
    [main]) *)

Module Words.
Section Words.

Context {R : Type} `{Numeric R}.

(** A Python string is the list of its characters; the characters are
    kept abstract. *)
Context {Char : Type} `{EqDecision Char}.
(** the characters [str.rstrip()] strips *)
Variable is_space : Char -> bool.
(** [len(task.source_dictionary)] and [task.source_dictionary[i]] *)
Variable dict_len : Z.
Variable symbol : Z -> list Char.

(** [s.rstrip()] *)
Fixpoint rstrip (s : list Char) : list Char :=
  match s with
  | [] => []
  | c :: s' =>
      match rstrip s' with
      | [] => if is_space c then [] else [c]
      | t => c :: t
      end
  end.

(** Lines 131-144: the continuation tokens [bpe_toks] and the length
    [bpe_len] of the continuation marker.  [remove_bpe] is [None]
    without [--remove-bpe], [Some None] for ['sentencepiece'] and
    [Some (Some s)] for any other string [s]. *)
Definition bpe_setup (remove_bpe : option (option (list Char)))
  : result (option (gset Z) * Z) :=
  match remove_bpe with
  | Some None => Raise NotImplementedError
  | Some (Some s) =>
      let bpe_cont := rstrip s in
      let bpe_toks : gset Z :=
        list_to_set
          (filter (fun i => bpe_cont `suffix_of` symbol i)
                  (Z.of_nat <$> seq 0 (Z.to_nat dict_len))) in
      Ok (Some bpe_toks, Z.of_nat (length bpe_cont))
  | None => Ok (None, 0)
  end.

(** *** [WordStat] *)

Record WordStat : Type := {
  word : list Char;
  is_bpe : bool;
  log_prob : R;
  next_word_prob : R;
  count : Z;
  missing_next_words : Z
}.

(** [WordStat.__init__] *)
Definition init (word : list Char) (is_bpe : bool) : WordStat :=
  {| word := word; is_bpe := is_bpe; log_prob := n_of_int 0;
     next_word_prob := n_of_int 0; count := 0; missing_next_words := 0 |}.

(** [WordStat.add] *)
Definition add (self : WordStat) (log_prob' : R) (next_word_prob' : option R)
  : WordStat :=
  let self1 :=
    match next_word_prob' with
    | Some p =>
        {| word := word self; is_bpe := is_bpe self;
           log_prob := log_prob self;
           next_word_prob := n_add (next_word_prob self) p;
           count := count self;
           missing_next_words := missing_next_words self |}
    | None =>
        {| word := word self; is_bpe := is_bpe self;
           log_prob := log_prob self;
           next_word_prob := next_word_prob self;
           count := count self;
           missing_next_words := missing_next_words self + 1 |}
    end in
  {| word := word self1; is_bpe := is_bpe self1;
     log_prob := n_add (log_prob self1) log_prob';
     next_word_prob := next_word_prob self1;
     count := count self1 + 1;
     missing_next_words := missing_next_words self1 |}.

(** The values [WordStat.__str__] formats, in the order of the line. *)
Definition str_fields (self : WordStat)
  : list Char * Z * R * bool * R * Z :=
  (word self, count self, log_prob self, is_bpe self, next_word_prob self,
   count self - missing_next_words self).

(** *** The word block, lines 247-270 *)

(** [word_stats]: a dict from words to [WordStat] objects, kept in
    the order of insertion. *)
Definition word_stats : Type := list (list Char * WordStat).

(** [word_stats.setdefault(w, WordStat(w, is_bpe)).add(log_prob,
    next_prob)] *)
Fixpoint setdefault_add (stats : word_stats) (w : list Char) (is_bpe : bool)
    (log_prob : R) (next_prob : option R) : word_stats :=
  match stats with
  | [] => [(w, add (init w is_bpe) log_prob next_prob)]
  | (k, ws) :: stats' =>
      if decide (k = w) then (k, add ws log_prob next_prob) :: stats'
      else (k, ws) :: setdefault_add stats' w is_bpe log_prob next_prob
  end.

(** [word_stats.get(w)] *)
Fixpoint get_word (stats : word_stats) (w : list Char) : option WordStat :=
  match stats with
  | [] => None
  | (k, ws) :: stats' => if decide (k = w) then Some ws else get_word stats' w
  end.

(** The [while ind < len(tokens)] loop of lines 262-266, with [left]
    indices from [ind] to the end of the tokens: the first score from
    [ind] on that is not zero. *)
Fixpoint next_prob_from (left : nat) (pos_scores : list R) (ind : nat)
  : result (option R) :=
  match left with
  | O => Ok None
  | S left' =>
      rbind (of_option IndexError (pos_scores !! ind)) (fun p =>
      if n_is_zero p then next_prob_from left' pos_scores (S ind)
      else Ok (Some p))
  end.

(** The variables of the loop over the tokens of a hypothesis. *)
Record block : Type := {
  w : list Char;
  word_prob : list (list Char * R);
  w_is_bpe : bool;
  stats : word_stats
}.

(** Body of [for i in range(len(tokens))], lines 252-270. *)
Definition word_step (bpe_toks : option (gset Z)) (bpe_len : Z)
    (tokens : list Z) (pos_scores : list R) (b : block) (i : nat)
  : result block :=
  rbind (of_option IndexError (tokens !! i)) (fun w_ind =>
  let w' := w b ++ symbol w_ind in
  if match bpe_toks with
     | Some toks => bool_decide (w_ind ∈ toks)
     | None => false
     end
  then
    Ok {| w := Py.upto w' (- bpe_len); word_prob := word_prob b;
          w_is_bpe := true; stats := stats b |}
  else
    rbind (of_option IndexError (pos_scores !! i)) (fun p =>
    rbind (next_prob_from (length tokens - S i) pos_scores (S i))
          (fun next_prob =>
    Ok {| w := []; word_prob := word_prob b ++ [(w', p)];
          w_is_bpe := false;
          stats := setdefault_add (stats b) w' (w_is_bpe b) p next_prob |}))).

(** Lines 248-270 for one hypothesis: the words with their scores, and
    the statistics updated. *)
Definition word_block (bpe_toks : option (gset Z)) (bpe_len : Z)
    (tokens : list Z) (pos_scores : list R) (stats0 : word_stats)
  : result (list (list Char * R) * word_stats) :=
  rmap (fun b => (word_prob b, stats b))
       (fold_left
          (fun acc i =>
             rbind acc (fun b => word_step bpe_toks bpe_len tokens
                                           pos_scores b i))
          (seq 0 (length tokens))
          (Ok {| w := []; word_prob := []; w_is_bpe := false;
                 stats := stats0 |})).

(** *** Words as groups of tokens *)

(** A word: its continuation pieces and its final token. *)
Definition group : Type := list Z * Z.

Definition tokens_of (gs : list group) : list Z :=
  concat ((fun g : group => g.1 ++ [g.2]) <$> gs).

(** A continuation piece without its marker, and the word of a
    group. *)
Definition stem (bpe_len : Z) (tok : Z) : list Char :=
  take (length (symbol tok) - Z.to_nat bpe_len) (symbol tok).
Definition word_of (bpe_len : Z) (g : group) : list Char :=
  concat (stem bpe_len <$> g.1) ++ symbol g.2.

(** The scores of a word after the folding of lines 231-235: zero for
    its pieces, and for its final token the scores of the word added up
    from the first on. *)
Definition total (scores : list R) : R :=
  match scores with
  | [] => n_zero
  | s :: rest => fold_left (fun c y => n_add y c) rest s
  end.
Definition folded (scores : list R) : list R :=
  match scores with
  | [] => []
  | _ :: rest => replicate (length rest) n_zero ++ [total scores]
  end.

(** The first score that is not zero. *)
Definition next_nonzero (scores : list R) : option R :=
  head (filter (fun p => n_is_zero p = false) scores).

(** [tok] is a continuation token. *)
Definition continues (bpe_toks : option (gset Z)) (tok : Z) : Prop :=
  match bpe_toks with
  | Some toks => tok ∈ toks
  | None => False
  end.

(** What the block hands to [WordStat.add] for the words [gs] of a
    hypothesis whose scores are [sgs], word by word, [rest] being the
    scores that follow the last word: the word, whether it has
    continuation pieces, the score of its final token, and the first
    score after it that is not zero. *)
Fixpoint observations (bpe_len : Z) (gs : list group) (sgs : list (list R))
    (rest : list R) : list (list Char * bool * R * option R) :=
  match gs, sgs with
  | g :: gs', sg :: sgs' =>
      (word_of bpe_len g, bool_decide (g.1 <> []),
       default n_zero (last sg), next_nonzero (concat sgs' ++ rest))
      :: observations bpe_len gs' sgs' rest
  | _, _ => []
  end.

(** The same for words whose scores are already added up, [ts] being
    the total of each word: the word, whether it has continuation
    pieces, its total, and the first total after it that is not
    zero. *)
Fixpoint records (bpe_len : Z) (gs : list group) (ts : list R)
  : list (list Char * bool * R * option R) :=
  match gs, ts with
  | g :: gs', t :: ts' =>
      (word_of bpe_len g, bool_decide (g.1 <> []), t, next_nonzero ts')
      :: records bpe_len gs' ts'
  | _, _ => []
  end.

End Words.

Arguments WordStat R Char : clear implicits.
Arguments word_stats R Char : clear implicits.
Arguments block R Char : clear implicits.

End Words.

(** ** The corpus as the driver reads it *)

Module Corpus.
Section Corpus.
Context {R : Type} `{Numeric R}.
Variable uninit : R.
Variable extract_hard_alignment :
  list (list R) -> list Z -> list Z -> Z -> Z -> list Z.

(** [hypos] are the hypotheses the driver reads for [sample], lines
    178-194: none for a sample without ['net_input'], else the first
    of each list the scorer returns, the sample having an id for
    each. *)
Definition scored_as (scorer : Scorer.SequenceScorer R)
    (models : list (Scorer.Model R))
    (knn_dstore : option (Scorer.KNN_Dstore R))
    (sample : Scorer.Sample) (hypos : list (Scorer.Hypo R)) : Prop :=
  match Scorer.net_input sample with
  | None => hypos = []
  | Some _ =>
      exists (hs : list (list (Scorer.Hypo R))) (w : Scorer.world),
        Scorer.generate uninit extract_hard_alignment scorer models
                        knn_dstore
                        {| Scorer.w_sample := sample;
                           Scorer.w_calls := [] |} = (Ok hs, w) /\
        Forall2 (fun (hs_i : list (Scorer.Hypo R)) h =>
                   hs_i !! 0%nat = Some h) hs hypos /\
        (length hs <= length (Scorer.id (Scorer.w_sample w)))%nat
  end.

(** The positional scores of the hypotheses, in the order they are
    read. *)
Definition all_scores (hypos : list (Scorer.Hypo R)) : list R :=
  concat (Scorer.positional_scores <$> hypos).

(** The sum and the count of a run that was at [r] before the
    hypotheses [hypos] were read, lines 236 and 245, and is at [r']
    after. *)
Definition counted (r : Driver.run (R := R)) (hypos : list (Scorer.Hypo R))
    (r' : Driver.run (R := R)) : Prop :=
  Driver.score_sum r'
  = match hypos with
    | [] => Driver.score_sum r
    | _ => Some (n_add (default n_zero (Driver.score_sum r))
                       (n_sum (all_scores hypos)))
    end /\
  Driver.count r' = Driver.count r + Z.of_nat (length (all_scores hypos)).

End Corpus.
End Corpus.

(** ** More concrete inputs *)

Module Cases.

(** Two hypotheses of 5 and 7 tokens, with as many key rows and two
    more. *)
Definition two_hypotheses : list (Z * list (list R) * list Z) :=
  [(7, Examples.key_rows 5 100, Examples.token_ids 5 100);
   (8, Examples.key_rows 9 200, Examples.token_ids 7 200)].

(** The driver's arguments for plain scoring, with or without the
    sentence-start token and the sub-word folding. *)
Definition scoring_args (add_bos_token : bool)
    (remove_bpe : option (option (gset Z))) : Driver.Args (R := R) :=
  {| Driver.scorer_args := Examples.args0; Driver.softmax_batch := Some 4;
     Driver.knnlm := false; Driver.dstore_size := 0;
     Driver.dstore_fp16 := false; Driver.decoder_embed_dim := 1;
     Driver.add_bos_token := add_bos_token;
     Driver.remove_bpe := remove_bpe |}.

(** A hypothesis of three tokens: the sentence-start token 0 and the
    tokens 10 and 11. *)
Definition three_tokens : Scorer.Hypo R :=
  {| Scorer.tokens := [0; 10; 11];
     Scorer.score := (-2)%R;
     Scorer.attention := None;
     Scorer.alignment := None;
     Scorer.positional_scores := [(-1)%R; (-2)%R; (-3)%R];
     Scorer.dstore_keys := None;
     Scorer.predicted_topk := [[]; []; []] |}.

(** The toy models [toy_model 100 k] as members of an ensemble: what
    each gives for the toy batch. *)
Definition toy_output (k : Z) : Ensemble.output :=
  (Examples.logits 100 k, Examples.toy_extra, fun row : list R => row,
   100%nat).

(** The toy scorer without a ceiling, as [init] builds it. *)
Definition whole_scorer : Scorer.SequenceScorer R :=
  {| Scorer.pad := 1; Scorer.eos := 2;
     Scorer.softmax_batch := Scorer.sys_maxsize;
     Scorer.compute_alignment := false; Scorer.args := Examples.args0;
     Scorer.top_preds := None |}.

(** A batch of two sequences of three tokens over four symbols, none
    of them the padding symbol. *)
Definition small_target : list (list Z) := [[0; 3; 2]; [3; 2; 2]].
Definition small_world : Scorer.world :=
  {| Scorer.w_sample :=
       {| Scorer.id := [10; 11]; Scorer.ntokens := 6;
          Scorer.net_input :=
            Some {| Scorer.src_tokens := small_target;
                    Scorer.src_lengths := [3; 3] |};
          Scorer.target := small_target; Scorer.start_indices := None |};
     Scorer.w_calls := [] |}.

(** The toy batch with the padding symbol inside its first sequence. *)
Definition padded_target : list (list Z) := [[5; 1; 6]; [7; 1; 1]].
Definition padded_world : Scorer.world :=
  {| Scorer.w_sample :=
       {| Scorer.id := [10; 11]; Scorer.ntokens := 6;
          Scorer.net_input :=
            Some {| Scorer.src_tokens := padded_target;
                    Scorer.src_lengths := [3; 3] |};
          Scorer.target := padded_target; Scorer.start_indices := None |};
     Scorer.w_calls := [] |}.

(** The driver's arguments for building a datastore of 10 rows. *)
Definition store_args : Driver.Args (R := R) :=
  {| Driver.scorer_args :=
       {| Scorer.save_top_pred := false;
          Scorer.knn_keytype := "last_ffn_input";
          Scorer.fp16 := false; Scorer.lmbda := (1 / 4)%R;
          Scorer.save_knnlm_dstore := true |};
     Driver.softmax_batch := Some 4;
     Driver.knnlm := false; Driver.dstore_size := 10;
     Driver.dstore_fp16 := false; Driver.decoder_embed_dim := 1;
     Driver.add_bos_token := false; Driver.remove_bpe := None |}.

(** The toy sample without its ['net_input']. *)
Definition idle_sample : Scorer.Sample :=
  {| Scorer.id := [12; 13]; Scorer.ntokens := 6; Scorer.net_input := None;
     Scorer.target := Examples.toy_target; Scorer.start_indices := None |}.

(** A dictionary of three symbols, the characters by their code
    points: 10 is [ab@@], 11 is [c], and any other is [d]; the
    continuation marker is [@@]. *)
Definition symbols (i : Z) : list Z :=
  if decide (i = 10) then [97; 98; 64; 64]
  else if decide (i = 11) then [99] else [100].

End Cases.

(** * Facts *)

(** ** Slices *)

Section SliceFacts.
Context {A : Type}.
Implicit Types l : list A.

Lemma slice_index_nonneg n i : 0 <= i -> Py.slice_index n i = Z.min i n.
Proof. intros Hi. unfold Py.slice_index. destruct (Z.ltb_spec i 0); lia. Qed.

(** With bounds that are not negative, a slice is a [take] of a [drop]. *)
Lemma slice_take_drop l lo hi :
  0 <= lo -> 0 <= hi ->
  Py.slice l lo hi = take (Z.to_nat hi - Z.to_nat lo) (drop (Z.to_nat lo) l).
Proof.
  intros Hlo Hhi. unfold Py.slice.
  rewrite !slice_index_nonneg by lia.
  set (n := Z.of_nat (length l)).
  destruct (Z.le_gt_cases n lo) as [Hge|Hlt].
  - rewrite !(drop_ge l) by lia. by rewrite !take_nil.
  - replace (Z.min lo n) with lo by lia.
    destruct (Z.le_gt_cases hi n) as [Hh|Hh].
    + replace (Z.min hi n) with hi by lia. f_equal. lia.
    + replace (Z.min hi n) with n by lia.
      rewrite !take_ge; first done.
      all: rewrite length_drop; lia.
Qed.

Lemma upto_take l hi : 0 <= hi -> Py.upto l hi = take (Z.to_nat hi) l.
Proof.
  intros Hhi. unfold Py.upto. rewrite slice_take_drop by lia.
  simpl. f_equal. lia.
Qed.

Lemma from_drop l lo : 0 <= lo -> Py.from l lo = drop (Z.to_nat lo) l.
Proof.
  intros Hlo. unfold Py.from. rewrite slice_take_drop by lia.
  apply take_ge. rewrite length_drop. lia.
Qed.

Lemma length_slice_le l lo hi :
  0 <= lo -> lo <= hi -> Z.of_nat (length (Py.slice l lo hi)) <= hi - lo.
Proof.
  intros Hlo Hhi. rewrite slice_take_drop by lia.
  rewrite length_take. lia.
Qed.

End SliceFacts.

(** ** Shapes *)

Section ShapeFacts.
Context {A : Type}.

Lemma length_concat_shape (t : list (list A)) b c :
  Spec.has_shape t b c -> length (concat t) = (b * c)%nat.
Proof.
  intros [Hb Hc]. subst b. induction Hc as [|row t Hrow _ IH]; simpl; first done.
  rewrite length_app, IH, Hrow. done.
Qed.

Lemma shape2_of_shape (t : list (list A)) b c :
  Spec.has_shape t b c -> (0 < b)%nat -> Tensor.shape2 t = (b, c).
Proof.
  intros [Hb Hc] Hpos. unfold Tensor.shape2. rewrite Hb.
  destruct Hc as [|row t Hrow _]; simpl in *; [lia | by rewrite Hrow].
Qed.

Lemma shape2_product (t : list (list A)) b c :
  Spec.has_shape t b c ->
  ((Tensor.shape2 t).1 * (Tensor.shape2 t).2 = b * c)%nat.
Proof.
  intros Hs. destruct b as [|b].
  - destruct Hs as [Hb _]. unfold Tensor.shape2. rewrite Hb. done.
  - rewrite (shape2_of_shape t (S b) c) by (done || lia). done.
Qed.

End ShapeFacts.

(** ** The batch softmax splitter *)

Section SplitterFacts.
Context {R : Type} `{Numeric R}.
Import Scorer.

Lemma init_softmax_batch_pos tgt_pad tgt_eos sb ca (a : Args R) self :
  init tgt_pad tgt_eos sb ca a = Ok self -> 0 < softmax_batch self.
Proof.
  unfold init. intros Hinit.
  destruct (Z.gtb_spec (match sb with
                        | Some n => if n =? 0 then sys_maxsize else n
                        | None => sys_maxsize
                        end) 0) as [Hpos|Hneg];
    inversion Hinit; subst; simpl; lia.
Qed.

(** The chunk that starts at offset [s]. *)
Local Abbreviation chunk_at M flat flat_tgt rest s :=
  ([Py.slice flat s (s + M)], rest, [Py.slice flat_tgt s (s + M)], false).

(** With a positive ceiling the loop exits, having yielded the chunks at
    offsets [s], [s + M], [s + 2 M], ... below the end. *)
Lemma chunk_loop_yields M (flat : list (list R)) flat_tgt rest fuel :
  0 < M ->
  forall s, 0 <= s ->
  Z.max 0 (Z.of_nat (length flat) - s) < Z.of_nat fuel ->
  chunk_loop fuel M flat flat_tgt rest s =
  Ok ((fun j : nat => chunk_at M flat flat_tgt rest (s + Z.of_nat j * M)) <$>
      seq 0 (Z.to_nat ((Z.of_nat (length flat) - s + M - 1) / M))).
Proof.
  intros HM. induction fuel as [|fuel IH]; intros s Hs Hfuel; first lia.
  simpl. destruct (Z.ltb_spec s (Z.of_nat (length flat))) as [Hlt|Hge].
  - rewrite IH by lia. simpl.
    replace (Z.of_nat (length flat) - s + M - 1)
      with (Z.of_nat (length flat) - (s + M) + M - 1 + 1 * M) by lia.
    rewrite Z.div_add by lia.
    assert (0 <= (Z.of_nat (length flat) - (s + M) + M - 1) / M)
      by (apply Z.div_pos; lia).
    rewrite Z2Nat.inj_add by lia. rewrite Nat.add_comm. simpl.
    rewrite Z.mul_0_l, Z.add_0_r. do 2 f_equal.
    rewrite <- fmap_S_seq, <- list_fmap_compose.
    apply list_fmap_ext. intros _ j _. simpl.
    replace (s + M + Z.of_nat j * M) with (s + Z.of_nat (S j) * M) by lia.
    done.
  - replace (Z.to_nat _) with 0%nat; first done.
    assert ((Z.of_nat (length flat) - s + M - 1) / M <= 0); last lia.
    apply Z.lt_succ_r. apply Z.div_lt_upper_bound; lia.
Qed.

(** A non-positive ceiling never lets the loop exit. *)
Lemma chunk_loop_unbounded M (flat : list (list R)) flat_tgt rest fuel :
  M <= 0 ->
  forall s, s < Z.of_nat (length flat) ->
  chunk_loop fuel M flat flat_tgt rest s = Raise Unbounded.
Proof.
  intros HM. induction fuel as [|fuel IH]; intros s Hs; first done.
  simpl. destruct (Z.ltb_spec s (Z.of_nat (length flat))); last lia.
  by rewrite IH by lia.
Qed.

(** Consecutive slices of width [M] starting at [s] tile the rest of a
    list. *)
Lemma concat_slices {A} (l : list A) M :
  0 < M ->
  forall cnt s, 0 <= s ->
  Z.of_nat (length l) - s <= Z.of_nat cnt * M ->
  concat ((fun j : nat => Py.slice l (s + Z.of_nat j * M)
                                     (s + Z.of_nat j * M + M)) <$> seq 0 cnt)
  = drop (Z.to_nat s) l.
Proof.
  intros HM. induction cnt as [|cnt IH]; intros s Hs Hcnt.
  - simpl. rewrite drop_ge; [done | lia].
  - simpl. rewrite <- fmap_S_seq, <- list_fmap_compose.
    rewrite Z.mul_0_l, Z.add_0_r.
    rewrite slice_take_drop by lia.
    replace (Z.to_nat (s + M) - Z.to_nat s)%nat with (Z.to_nat M) by lia.
    rewrite <- (take_drop (Z.to_nat M) (drop (Z.to_nat s) l)) at 2.
    f_equal. rewrite drop_drop.
    replace (Z.to_nat s + Z.to_nat M)%nat with (Z.to_nat (s + M)) by lia.
    rewrite <- (IH (s + M)) by lia. f_equal.
    apply list_fmap_ext. intros _ j _. simpl. f_equal; lia.
Qed.

Lemma concat_singletons {A B} (f : A -> B) (l : list A) :
  concat ((fun x => [f x]) <$> l) = f <$> l.
Proof.
  induction l as [|x l IH]; first done.
  rewrite !fmap_cons. simpl. by f_equal.
Qed.

Lemma ceil_div_bounds n M :
  0 < M -> 0 <= n ->
  n <= (n + M - 1) / M * M /\ ((n + M - 1) / M - 1) * M < n.
Proof.
  intros HM Hn.
  pose proof (Z.div_mod (n + M - 1) M ltac:(lia)).
  pose proof (Z.mod_pos_bound (n + M - 1) M HM). nia.
Qed.

(** C3. The splitter of a constructed scorer, on a decoder output of
    shape [(bsz, tsz, _)] with its target of shape [(bsz, tsz)]: below
    the ceiling [M] it yields the input and the target once, flagged
    whole-batch; otherwise it yields [ceil(bsz*tsz / M)] chunks, the
    [k]-th being the slice [k*M .. k*M+M] of the flattened output and
    target, flagged as a sub-chunk and holding between 1 and [M]
    positions, and the chunk targets (resp. outputs) concatenated in
    order are the flattened target (resp. output). *)
Theorem batch_for_softmax_chunks
    tgt_pad tgt_eos sb ca (a : Args R) self
    (first : tensor3 R) (rest : extra R) (target : tensor2 Z) (bsz tsz : nat) :
  init tgt_pad tgt_eos sb ca a = Ok self ->
  Spec.has_shape first bsz tsz ->
  Spec.has_shape target bsz tsz ->
  let M := softmax_batch self in
  let n := Z.of_nat (bsz * tsz) in
  (n < M ->
   batch_for_softmax M (first, rest) target
   = Ok [((first, rest), target, true)]) /\
  (M <= n -> (0 < size2 first)%nat ->
   exists chunks,
     batch_for_softmax M (first, rest) target = Ok chunks /\
     Z.of_nat (length chunks) = (n + M - 1) / M /\
     (Z.of_nat (length chunks) - 1) * M < n <= Z.of_nat (length chunks) * M /\
     (forall (k : nat) c, chunks !! k = Some c ->
        c = chunk_at M (concat first) (concat target) rest (Z.of_nat k * M) /\
        1 <= Z.of_nat (Tensor.numel2 c.1.2) <= M /\
        length (concat c.1.1.1) = Tensor.numel2 c.1.2) /\
     concat (concat ((fun c : chunk R => c.1.2) <$> chunks)) = concat target /\
     concat (concat ((fun c : chunk R => c.1.1.1) <$> chunks)) = concat first).
Proof.
  intros Hinit Hfirst Htgt M n.
  pose proof (init_softmax_batch_pos _ _ _ _ _ _ Hinit) as HM.
  fold M in HM.
  pose proof (shape2_product _ _ _ Hfirst) as Hprod.
  pose proof (length_concat_shape _ _ _ Hfirst) as Hlf.
  pose proof (length_concat_shape _ _ _ Htgt) as Hlt.
  unfold batch_for_softmax.
  destruct (Tensor.shape2 first) as [b t] eqn:Hshape. simpl in Hprod.
  assert (Z.of_nat b * Z.of_nat t = n) as -> by (unfold n; lia).
  split.
  - intros Hlt'. destruct (Z.ltb_spec n M); [done | lia].
  - intros Hge Hdim. destruct (Z.ltb_spec n M); first lia.
    unfold size2 in Hdim.
    destruct (decide (length (hd [] (hd [] first)) = 0%nat)); first lia.
    destruct (decide (length (concat target) = length (concat first)));
      last congruence.
    rewrite chunk_loop_yields by lia.
    rewrite Z.sub_0_r, Hlf. fold n.
    destruct (ceil_div_bounds n M HM ltac:(lia)) as [Hup Hlow].
    assert (0 <= (n + M - 1) / M) as Hq by (apply Z.div_pos; lia).
    set (cnt := Z.to_nat ((n + M - 1) / M)) in *.
    eexists. split; first reflexivity.
    rewrite length_fmap, length_seq.
    split; first lia. split; first lia. split; last split.
    + intros k c Hk. rewrite list_lookup_fmap in Hk.
      destruct (seq 0 cnt !! k) as [j|] eqn:Hj; last done.
      apply lookup_seq in Hj as [-> Hkc]. simpl in Hk.
      inversion Hk; subst c; clear Hk. simpl.
      rewrite Z.add_0_l. split; first done.
      unfold Tensor.numel2. simpl. rewrite !app_nil_r.
      assert (Z.of_nat k * M < n) by nia.
      rewrite !slice_take_drop by nia.
      rewrite !length_take, !length_drop, Hlf, Hlt. unfold n in *. lia.
    + rewrite <- list_fmap_compose.
      rewrite (list_fmap_ext _
                 (fun j : nat => [Py.slice (concat target) (0 + Z.of_nat j * M)
                                    (0 + Z.of_nat j * M + M)]) (seq 0 cnt))
        by done.
      rewrite (concat_singletons
                 (fun j : nat => Py.slice (concat target) (0 + Z.of_nat j * M)
                                   (0 + Z.of_nat j * M + M))).
      rewrite concat_slices by (rewrite ?Hlt; unfold n in *; lia). done.
    + rewrite <- list_fmap_compose.
      rewrite (list_fmap_ext _
                 (fun j : nat => [Py.slice (concat first) (0 + Z.of_nat j * M)
                                    (0 + Z.of_nat j * M + M)]) (seq 0 cnt))
        by done.
      rewrite (concat_singletons
                 (fun j : nat => Py.slice (concat first) (0 + Z.of_nat j * M)
                                   (0 + Z.of_nat j * M + M))).
      rewrite concat_slices by (rewrite ?Hlf; unfold n in *; lia). done.
Qed.

(** C9. Built with [softmax_batch] equal to [None] or [0], the scorer
    gets the ceiling [sys.maxsize] (2^63 - 1), under which every decoder
    output whose positions number less than [sys.maxsize] goes through
    the whole-batch path; built with a negative [softmax_batch], the
    constructor fails on its assertion. *)
Theorem init_softmax_batch_default
    tgt_pad tgt_eos ca (a : Args R) (sb : option Z) (n : Z)
    (dec_out : decoder_out R) (target : tensor2 Z) :
  sb = None \/ sb = Some 0 ->
  n < 0 ->
  Z.of_nat (Tensor.shape2 dec_out.1).1 * Z.of_nat (Tensor.shape2 dec_out.1).2
    < 9223372036854775807 ->
  (exists self,
     init tgt_pad tgt_eos sb ca a = Ok self /\
     softmax_batch self = sys_maxsize /\
     sys_maxsize = 9223372036854775807 /\
     batch_for_softmax (softmax_batch self) dec_out target
     = Ok [(dec_out, target, true)]) /\
  init tgt_pad tgt_eos (Some n) ca a = Raise AssertionError.
Proof.
  intros Hsb Hn Hsize. split.
  - exists {| pad := tgt_pad; eos := tgt_eos; softmax_batch := sys_maxsize;
              compute_alignment := ca; args := a;
              top_preds := if save_top_pred a then Some [] else None |}.
    split.
    { destruct Hsb as [-> | ->]; reflexivity. }
    simpl. split; first done. split; first done.
    unfold batch_for_softmax. destruct dec_out as [first rest]. simpl in *.
    destruct (Z.ltb_spec (Z.of_nat (length first) *
                          Z.of_nat (length (hd [] first))) sys_maxsize)
      as [_|Hge]; first done.
    unfold sys_maxsize in Hge. simpl in Hge. lia.
  - unfold init. destruct (Z.eqb_spec n 0); first lia.
    destruct (Z.gtb_spec n 0); [lia | done].
Qed.

End SplitterFacts.

(** The splitter on a [2 x 3] batch with ceiling 4: two chunks. *)
Lemma batch_for_softmax_chunks_witness :
  exists self,
    Scorer.init 1 2 (Some 4) false Examples.args0 = Ok self /\
    exists chunks,
      Scorer.batch_for_softmax (Scorer.softmax_batch self)
        (Examples.logits 4 0, Scorer.ExtraNone) Examples.toy_target = Ok chunks /\
      length chunks = 2%nat /\
      concat (concat ((fun c : Scorer.chunk R => c.1.2) <$> chunks))
      = concat Examples.toy_target.
Proof.
  eexists. split; first reflexivity.
  assert (Spec.has_shape (Examples.logits 4 0) 2 3) as Hfirst
    by (split; [reflexivity | repeat constructor]).
  assert (Spec.has_shape Examples.toy_target 2 3) as Htgt
    by (split; [reflexivity | repeat constructor]).
  destruct (batch_for_softmax_chunks 1 2 (Some 4) false Examples.args0 _
              (Examples.logits 4 0) Scorer.ExtraNone Examples.toy_target 2 3
              eq_refl Hfirst Htgt) as [_ Hchunks].
  destruct (Hchunks ltac:(by vm_compute) ltac:(vm_compute; lia))
    as (chunks & Hrun & Hlen & _ & _ & Hcat & _).
  exists chunks. split; first exact Hrun. split; last exact Hcat.
  assert (Z.of_nat (length chunks) = 2) as Hlen2 by exact Hlen. lia.
Defined.

(** The constructor without a ceiling, and with the ceiling -1. *)
Lemma init_softmax_batch_default_witness :
  (exists self,
     Scorer.init 1 2 None false Examples.args0 = Ok self /\
     Scorer.softmax_batch self = Scorer.sys_maxsize /\
     Scorer.sys_maxsize = 9223372036854775807 /\
     Scorer.batch_for_softmax (Scorer.softmax_batch self)
       (Examples.logits 4 0, Scorer.ExtraNone) Examples.toy_target
     = Ok [((Examples.logits 4 0, Scorer.ExtraNone), Examples.toy_target, true)]) /\
  Scorer.init 1 2 (Some (-1)) false Examples.args0 = Raise AssertionError.
Proof.
  apply (init_softmax_batch_default 1 2 false Examples.args0 None (-1)).
  - by left.
  - lia.
  - simpl. lia.
Defined.

(** ** The probability combiner, entry by entry *)

Section CombinerEntries.
Context {R : Type} `{Numeric R}.
Import Scorer.

Lemma zip_r_swap {A B C} (f : A -> B -> result C) (g : B -> A -> result C) :
  (forall x y, f x y = g y x) ->
  forall la lb, zip_r f la lb = zip_r g lb la.
Proof.
  intros Hfg. induction la as [|x la IH]; intros [|y lb]; simpl; try done.
  by rewrite Hfg, IH.
Qed.

Lemma zip_r_total {A B C} (f : A -> B -> result C) (P : A -> B -> Prop) :
  (forall x y, P x y -> exists c, f x y = Ok c) ->
  forall la lb, Forall2 P la lb -> exists lc, zip_r f la lb = Ok lc.
Proof.
  intros Hf la lb Hall. induction Hall as [|x y la lb Hxy _ [lc IH]].
  - by exists [].
  - destruct (Hf x y Hxy) as [c Hc]. exists (c :: lc). simpl.
    by rewrite Hc, IH.
Qed.

Lemma zip_r_lengths {A B C} (f : A -> B -> result C) la lb lc :
  zip_r f la lb = Ok lc -> length la = length lc /\ length lb = length lc.
Proof.
  revert lb lc. induction la as [|a la IH]; intros [|b lb] lc Hzip;
    simplify_eq/=; first done.
  destruct (f a b) as [c|]; last done. simpl in Hzip.
  destruct (zip_r f la lb) as [cs|] eqn:Hcs; last done. simplify_eq/=.
  destruct (IH lb cs Hcs) as [-> ->]. done.
Qed.

Lemma zip_r_lookup {A B C} (f : A -> B -> result C) la lb lc :
  zip_r f la lb = Ok lc ->
  forall i a b,
    la !! i = Some a -> lb !! i = Some b ->
    exists c, lc !! i = Some c /\ f a b = Ok c.
Proof.
  revert lb lc. induction la as [|a0 la IH]; intros [|b0 lb] lc Hzip;
    simplify_eq/=; first done.
  destruct (f a0 b0) as [c0|] eqn:Hc0; last done. simpl in Hzip.
  destruct (zip_r f la lb) as [cs|] eqn:Hcs; last done. simplify_eq/=.
  intros [|i] a b Ha Hb; simplify_eq/=; first by exists c0.
  by apply (IH lb cs).
Qed.

Lemma combine_total (lam : R) (knn_p vocab_p : tensor3 R) :
  Spec.same_shape3 knn_p vocab_p ->
  exists c, combine_knn_and_vocab_probs knn_p vocab_p lam = Ok c.
Proof.
  intros Hshape. unfold combine_knn_and_vocab_probs.
  apply (zip_r_total _ _) with (la := knn_p) (lb := vocab_p) (2 := Hshape).
  intros k v Hkv. unfold combine2.
  apply (zip_r_total _ _) with (la := k) (lb := v) (2 := Hkv).
  clear. intros k v Hlen. unfold combine1.
  apply (zip_r_total _ (fun _ _ => True)); first by eexists.
  revert v Hlen. induction k as [|p k IH]; intros [|q v] Hlen;
    simplify_eq/=; constructor; auto.
Qed.

(** The rows of a combination are the combinations of the rows. *)
Lemma combine_row (lam : R) (knn_p vocab_p c : tensor3 R) i j krow vrow :
  combine_knn_and_vocab_probs knn_p vocab_p lam = Ok c ->
  Dist.row knn_p i j = Some krow ->
  Dist.row vocab_p i j = Some vrow ->
  exists crow, Dist.row c i j = Some crow /\ combine1 krow vrow lam = Ok crow.
Proof.
  unfold Dist.row. intros Hc Hk Hv.
  destruct (knn_p !! i) as [km|] eqn:Hki; last done.
  destruct (vocab_p !! i) as [vm|] eqn:Hvi; last done. simpl in *.
  destruct (zip_r_lookup _ _ _ _ Hc i km vm Hki Hvi) as (cm & -> & Hcm).
  simpl. by apply (zip_r_lookup _ _ _ _ Hcm j krow vrow).
Qed.

Lemma combine_entry (lam : R) (knn_p vocab_p c : tensor3 R) i j k x y :
  combine_knn_and_vocab_probs knn_p vocab_p lam = Ok c ->
  Dist.entry knn_p i j k = Some x ->
  Dist.entry vocab_p i j k = Some y ->
  Dist.entry c i j k = Some (combine_scalar lam x y).
Proof.
  unfold Dist.entry. intros Hc Hx Hy.
  destruct (Dist.row knn_p i j) as [krow|] eqn:Hk; last done.
  destruct (Dist.row vocab_p i j) as [vrow|] eqn:Hv; last done.
  simpl in *.
  destruct (combine_row lam _ _ _ i j krow vrow Hc Hk Hv)
    as (crow & -> & Hcrow).
  simpl.
  destruct (zip_r_lookup _ _ _ _ Hcrow k x y Hx Hy) as (z & -> & Hz).
  by injection Hz as <-.
Qed.

(** The same at rank two. *)
Lemma combine2_cell (lam : R) (knn_p vocab_p c : tensor2 R) i j x y :
  combine2 knn_p vocab_p lam = Ok c ->
  Dist.cell knn_p i j = Some x ->
  Dist.cell vocab_p i j = Some y ->
  Dist.cell c i j = Some (combine_scalar lam x y).
Proof.
  unfold Dist.cell. intros Hc Hx Hy.
  destruct (knn_p !! i) as [krow|] eqn:Hk; last done.
  destruct (vocab_p !! i) as [vrow|] eqn:Hv; last done. simpl in *.
  destruct (zip_r_lookup _ _ _ _ Hc i krow vrow Hk Hv) as (crow & -> & Hcrow).
  simpl.
  destruct (zip_r_lookup _ _ _ _ Hcrow j x y Hx Hy) as (z & -> & Hz).
  by injection Hz as <-.
Qed.

(** A combination has the shape of what it combines. *)
Lemma zip_r_Forall2 {A B C} (f : A -> B -> result C) (Q : A -> C -> Prop) :
  (forall a b c, f a b = Ok c -> Q a c) ->
  forall la lb lc, zip_r f la lb = Ok lc -> Forall2 Q la lc.
Proof.
  intros Hf. induction la as [|a la IH]; intros [|b lb] lc Hzip;
    simplify_eq/=; first constructor.
  destruct (f a b) as [c|] eqn:Hc; last done. simpl in Hzip.
  destruct (zip_r f la lb) as [cs|] eqn:Hcs; last done. simplify_eq/=.
  constructor; [by apply (Hf a b) | by apply (IH lb)].
Qed.

Lemma combine2_shape (lam : R) (knn_p vocab_p c : tensor2 R) :
  combine2 knn_p vocab_p lam = Ok c -> Spec.same_shape2 knn_p c.
Proof.
  apply zip_r_Forall2. intros k v row Hrow.
  by destruct (zip_r_lengths _ _ _ _ Hrow).
Qed.

Lemma combine_shape (lam : R) (knn_p vocab_p c : tensor3 R) :
  combine_knn_and_vocab_probs knn_p vocab_p lam = Ok c ->
  Spec.same_shape3 knn_p c.
Proof.
  apply zip_r_Forall2. intros k v m. apply combine2_shape.
Qed.

End CombinerEntries.

(** ** The probability combiner, in exact arithmetic *)

Section CombinerFacts.
Import Scorer.
Local Open Scope R_scope.

Lemma combine_scalar_value (lam x y : R) :
  combine_scalar lam x y = ln (exp (y + ln (1 - lam)) + exp (x + ln lam)).
Proof.
  unfold combine_scalar. simpl. unfold n_one. simpl. by rewrite Rplus_0_r.
Qed.

Lemma combine_scalar_swap (lam x y : R) :
  combine_scalar lam x y = combine_scalar (1 - lam) y x.
Proof.
  rewrite !combine_scalar_value.
  replace (1 - (1 - lam)) with lam by lra. by rewrite Rplus_comm.
Qed.

Lemma combine_scalar_mixture (lam x y : R) :
  0 < lam < 1 ->
  exp (combine_scalar lam x y) = (1 - lam) * exp y + lam * exp x.
Proof.
  intros Hlam. rewrite combine_scalar_value.
  rewrite exp_ln by (apply Rplus_lt_0_compat; apply exp_pos).
  rewrite !exp_plus, !exp_ln by lra. lra.
Qed.

(** C5. For a weight strictly between 0 and 1 and tensors of identical
    shape, combining retrieval [a] with model [b] under [lam] succeeds
    and gives the tensor that combining [b] with [a] under [1 - lam]
    gives, at rank three and at rank two; that tensor has the shape of
    [a] and [b], and its entry at every index is
    [log(exp(q + log(1 - lam)) + exp(p + log(lam)))] for the entries
    [p] of [a] and [q] of [b] there.  The scalar function is symmetric
    in the same way, and its exponential is the mixture
    [(1 - lam) exp y + lam exp x]. *)
Theorem combine_knn_and_vocab_probs_symmetric
    (lam : R) (a b : tensor3 R) (a2 b2 : tensor2 R) (x y : R) :
  0 < lam < 1 ->
  Spec.same_shape3 a b ->
  Spec.same_shape2 a2 b2 ->
  (exists c, combine_knn_and_vocab_probs a b lam = Ok c /\
             combine_knn_and_vocab_probs b a (1 - lam) = Ok c /\
             Spec.same_shape3 a c /\
             forall i j k p q,
               Dist.entry a i j k = Some p ->
               Dist.entry b i j k = Some q ->
               Dist.entry c i j k
               = Some (ln (exp (q + ln (1 - lam)) + exp (p + ln lam)))) /\
  (exists c, combine2 a2 b2 lam = Ok c /\
             combine2 b2 a2 (1 - lam) = Ok c /\
             Spec.same_shape2 a2 c /\
             forall i j p q,
               Dist.cell a2 i j = Some p ->
               Dist.cell b2 i j = Some q ->
               Dist.cell c i j
               = Some (ln (exp (q + ln (1 - lam)) + exp (p + ln lam)))) /\
  combine_scalar lam x y = combine_scalar (1 - lam) y x /\
  combine_scalar lam x y = ln (exp (y + ln (1 - lam)) + exp (x + ln lam)) /\
  exp (combine_scalar lam x y) = (1 - lam) * exp y + lam * exp x.
Proof.
  intros Hlam Hab Hab2.
  assert (Hswap1 : forall k v, combine1 k v lam = combine1 v k (1 - lam)).
  { intros k v. apply zip_r_swap. intros p q.
    by rewrite combine_scalar_swap. }
  assert (Hswap2 : forall k v, combine2 k v lam = combine2 v k (1 - lam)).
  { intros k v. by apply zip_r_swap. }
  assert (Hok1 : forall k v : list R, length k = length v ->
                   exists c, combine1 k v lam = Ok c).
  { intros k v Hlen. apply (zip_r_total _ (fun _ _ => True)).
    - intros p q _. by eexists.
    - revert v Hlen. induction k as [|p k IH]; intros [|q v] Hlen;
        simplify_eq/=; constructor; auto. }
  assert (Hok2 : forall k v, Spec.same_shape2 k v ->
                   exists c, combine2 k v lam = Ok c).
  { intros k v Hkv. by apply (zip_r_total _ _ Hok1). }
  split; last split; last (split; last split).
  - destruct (zip_r_total _ _ Hok2 a b Hab) as [c Hc].
    exists c. split; first exact Hc. split; last split.
    + unfold combine_knn_and_vocab_probs in *.
      by rewrite <- (zip_r_swap _ _ Hswap2).
    + by apply (combine_shape lam a b).
    + intros i j k p q Hp Hq. rewrite <- combine_scalar_value.
      by apply (combine_entry lam a b).
  - destruct (Hok2 a2 b2 Hab2) as [c Hc].
    exists c. split; first exact Hc. split; last split.
    + by rewrite <- Hswap2.
    + by apply (combine2_shape lam a2 b2).
    + intros i j p q Hp Hq. rewrite <- combine_scalar_value.
      by apply (combine2_cell lam a2 b2).
  - apply combine_scalar_swap.
  - apply combine_scalar_value.
  - by apply combine_scalar_mixture.
Qed.

End CombinerFacts.

(** The combiner on a [1 x 1 x 2] pair of tensors with weight 1/4. *)
Lemma combine_knn_and_vocab_probs_symmetric_witness :
  (exists c,
     Scorer.combine_knn_and_vocab_probs [[[-1; -2]]] [[[-3; -4]]] (1 / 4) = Ok c /\
     Scorer.combine_knn_and_vocab_probs [[[-3; -4]]] [[[-1; -2]]] (1 - 1 / 4)
     = Ok c /\
     Dist.entry c 0 0 1
     = Some (ln (exp (-4 + ln (1 - 1 / 4)) + exp (-2 + ln (1 / 4)))))%R.
Proof.
  destruct (combine_knn_and_vocab_probs_symmetric
              (1 / 4) [[[-1; -2]]] [[[-3; -4]]] [[-1]] [[-3]] (-1) (-3))%R
    as [(c & Hc & Hswap & _ & Hentry) _].
  - lra.
  - repeat constructor.
  - repeat constructor.
  - exists c. split; first exact Hc. split; first exact Hswap.
    by apply (Hentry 0%nat 0%nat 1%nat).
Defined.

(** ** Finalization, in exact arithmetic *)

Section FinalizeFacts.
Local Open Scope R_scope.

Lemma ln_2_pos : 0 < ln 2.
Proof. rewrite <- ln_1. apply ln_increasing; lra. Qed.

(** C6. With a token count other than zero, finalization succeeds with
    the loss [-(score_sum) / count / ln 2] and the perplexity 2 to the
    power of that loss, which is [exp(-(score_sum) / count)]. *)
Theorem finalize_perplexity (score_sum : R) (count : Z) :
  count <> 0%Z ->
  exists avg_nll_loss perplexity,
    Driver.finalize (Some score_sum) count = Ok (avg_nll_loss, perplexity) /\
    avg_nll_loss = - score_sum / IZR count / ln 2 /\
    perplexity = Rpower 2 avg_nll_loss /\
    perplexity = exp (- score_sum / IZR count).
Proof.
  intros Hcount. do 2 eexists. split; first done. simpl.
  split; first done. split; first done.
  unfold n_div_int, Rpower. simpl. f_equal. field.
  pose proof ln_2_pos. split; last lra.
  by apply not_0_IZR.
Qed.

End FinalizeFacts.

(** Finalization on a score sum of -6 over 3 tokens. *)
Lemma finalize_perplexity_witness :
  exists avg_nll_loss perplexity,
    Driver.finalize (Some (-6)%R) 3 = Ok (avg_nll_loss, perplexity) /\
    avg_nll_loss = (- -6 / 3 / ln 2)%R /\
    perplexity = Rpower 2 avg_nll_loss /\
    perplexity = exp (- -6 / 3)%R.
Proof. apply (finalize_perplexity (-6)%R 3). lia. Defined.

(** ** The datastore writer at capacity *)

Section WriterBounds.
Context {K : Type}.
Variable astype : bool -> K -> K.
Import Writer.

(** A source of other than one row is only accepted by a window of as
    many rows, which lies within the array. *)
Lemma set_slice_fits {A} err (dst src r : list A) (lo hi : Z) :
  Py.set_slice err dst lo hi src = Ok r ->
  length src <> 1%nat ->
  0 <= lo <= Z.of_nat (length dst) ->
  hi = Z.of_nat (length src) + lo ->
  hi <= Z.of_nat (length dst).
Proof.
  unfold Py.set_slice. intros Hset Hlen Hlo ->.
  rewrite !slice_index_nonneg in Hset by lia.
  destruct (decide (length src = _)) as [Hcnt|_].
  - lia.
  - destruct src as [|x [|y src]]; simplify_eq/=.
Qed.

(** What is left of the invariant: a write that returns keeps the cursor
    within the capacity unless the hypothesis has exactly one token. *)
Lemma write_cursor_bound dstore_size fp16 sample_id keys tokens
      (d d' : dstore (K := K)) :
  write astype dstore_size fp16 sample_id keys tokens d = (Ok tt, d') ->
  length tokens <> 1%nat ->
  Z.of_nat (length (dstore_vals d)) = dstore_size ->
  0 <= dstore_idx d <= dstore_size ->
  dstore_idx d' = dstore_idx d + Z.of_nat (length tokens) /\
  dstore_idx d' <= dstore_size.
Proof.
  intros Hrun Hlen Hsize Hidx. unfold write in Hrun.
  unfold bind at 1 in Hrun. unfold get at 1 in Hrun.
  unfold bind at 1 in Hrun.
  destruct ((if dstore_idx d + Z.of_nat (length keys) >? dstore_size
             then (print "ERROR! dstore_size exceeded!" ;;;
                   ret (Py.upto keys (dstore_size - dstore_idx d)))%prog
             else ret keys) d) as [[keys'|e] d1] eqn:Hguard; last done.
  assert (dstore_vals d1 = dstore_vals d /\ dstore_idx d1 = dstore_idx d)
    as [Hv1 Hi1].
  { destruct (dstore_idx d + Z.of_nat (length keys) >? dstore_size);
      unfold bind, print, modify, ret in Hguard; by simplify_eq/=. }
  unfold bind at 1 in Hrun. unfold set_map at 1, modify at 1 in Hrun.
  unfold bind at 1 in Hrun. unfold assign_keys at 1 in Hrun.
  cbn [dstore_keys dstore_idx dstore_vals dstore_token_sample_map stdout]
    in Hrun.
  destruct (Py.set_slice Py.numpy_shape_error (dstore_keys d1) _ _ _)
    as [ks|e]; last done.
  unfold bind at 1 in Hrun. unfold assign_vals at 1 in Hrun.
  cbn [dstore_keys dstore_idx dstore_vals dstore_token_sample_map stdout]
    in Hrun.
  destruct (Py.set_slice Py.numpy_shape_error (dstore_vals d1) _ _ tokens)
    as [vs|e] eqn:Hvals; last done.
  unfold advance, modify in Hrun. simplify_eq/=.
  split; first (rewrite Hi1; lia).
  rewrite Hv1 in Hvals.
  pose proof (set_slice_fits _ _ _ _ _ _ Hvals Hlen ltac:(lia) eq_refl).
  lia.
Qed.

End WriterBounds.

Section WriterFacts.
Import Writer Examples.

(** C1. A datastore of capacity 1, written with two hypotheses of one
    token each: both writes return, the second one reports the overflow,
    and the cursor ends at 2, beyond the capacity. *)
Theorem write_cursor_beyond_capacity :
  let run := write_all keep 1 false
               [(7, key_rows 1 11, token_ids 1 11);
                (8, key_rows 1 12, token_ids 1 12)]
               (Writer.open [0%R] 1) in
  run.1 = Ok tt /\
  dstore_idx run.2 = 2 /\
  stdout run.2 = ["ERROR! dstore_size exceeded!"%string] /\
  length (dstore_vals run.2) = 1%nat /\
  dstore_token_sample_map run.2 !! 8 = Some (1, 2).
Proof. repeat split; reflexivity. Qed.

(** C2. A datastore of capacity 5, written with one hypothesis of 15
    tokens and 15 key rows: the overflow is reported and the five first
    key rows are stored, but the range recorded for the sample is
    [(0, 15)], and the assignment of the 15 values to the five remaining
    slots raises, so the write does not return: no value is stored and
    the cursor stays at 0. *)
Theorem write_overflow_raises :
  let run := write keep 5 false 7 (key_rows 15 100) (token_ids 15 100)
               (Writer.open [0%R] 5) in
  run.1 = Raise Py.numpy_shape_error /\
  stdout run.2 = ["ERROR! dstore_size exceeded!"%string] /\
  dstore_keys run.2 = key_rows 5 100 /\
  dstore_token_sample_map run.2 !! 7 = Some (0, 15) /\
  dstore_vals run.2 = replicate 5 0 /\
  dstore_idx run.2 = 0.
Proof. repeat split; reflexivity. Qed.

End WriterFacts.

(** ** The sample is left as it was found *)

Section FrameFacts.
Context {R : Type} `{Numeric R}.
Variable uninit : R.
Variable extract_hard_alignment :
  list (list R) -> list Z -> list Z -> Z -> Z -> list Z.
Import Scorer.
Implicit Types smp : Sample.

Lemma keeps_ret {A} smp (a : A) : Spec.keeps smp (ret a).
Proof. intros w a' w' Hrun. by inversion Hrun. Qed.

Lemma keeps_throw {A} smp e : Spec.keeps (A := A) smp (throw e).
Proof. intros w a' w' Hrun. inversion Hrun. Qed.

Lemma keeps_lift {A} smp (r : result A) : Spec.keeps smp (lift r).
Proof. intros w a' w' Hrun. by inversion Hrun. Qed.

Lemma keeps_get smp : Spec.keeps smp get.
Proof. intros w a' w' Hrun. by inversion Hrun. Qed.

Lemma keeps_log_call smp c : Spec.keeps smp (log_call c).
Proof. intros w a' w' Hrun. by inversion Hrun. Qed.

Lemma keeps_bind {A B} smp (m : prog world A) (f : A -> prog world B) :
  Spec.keeps smp m -> (forall a, Spec.keeps smp (f a)) ->
  Spec.keeps smp (bind m f).
Proof.
  intros Hm Hf w b w' Hrun Hw. unfold bind in Hrun.
  destruct (m w) as [[a|e] w1] eqn:Hmw; last done.
  eapply Hf; first exact Hrun. by eapply Hm.
Qed.

Lemma keeps_for_each {X A} smp (body : A -> X -> prog world A) xs :
  (forall a x, Spec.keeps smp (body a x)) ->
  forall a, Spec.keeps smp (for_each body xs a).
Proof.
  intros Hbody. induction xs as [|x xs IH]; intros a; simpl.
  - apply keeps_ret.
  - apply keeps_bind; [apply Hbody | apply IH].
Qed.

Lemma set_target_restore smp tgt orig :
  target smp = orig -> set_target orig (set_target tgt smp) = smp.
Proof. intros <-. by destruct smp. Qed.

(** One chunk: the provider is called on the sample holding the chunk's
    target, and the sample holds the original target again afterwards. *)
Lemma chunk_body_swaps k model n orig acc bd tgt flag w acc' w' :
  chunk_body uninit k model n orig acc (bd, tgt, flag) w = (Ok acc', w') ->
  (exists curr_prob,
     get_normalized_probs model bd (n =? 1)%nat (set_target tgt (w_sample w))
     = Ok curr_prob) /\
  w_sample w' = set_target orig (w_sample w).
Proof.
  unfold chunk_body, bind, store_target, log_call, modify, get, lift, ret.
  simpl. intros Hrun.
  destruct (get_normalized_probs model bd (n =? 1)%nat
              (set_target tgt (w_sample w))) as [curr_prob|e]; last done.
  split; first by eexists.
  destruct flag.
  - destruct (rbind (gather_target_probs curr_prob orig) _); last done.
    inversion Hrun; subst. simpl. by destruct (w_sample w).
  - destruct (scatter_chunk uninit orig acc curr_prob tgt); last done.
    inversion Hrun; subst. simpl. by destruct (w_sample w).
Qed.

Lemma keeps_chunk_body smp k model n acc c :
  Spec.keeps smp (chunk_body uninit k model n (target smp) acc c).
Proof.
  destruct c as [[bd tgt] flag]. intros w acc' w' Hrun Hw.
  apply chunk_body_swaps in Hrun as [_ ->].
  rewrite Hw. by destruct smp.
Qed.

Lemma keeps_fuse_knn smp self n dstore rest orig probs full_probs :
  Spec.keeps smp (fuse_knn self n dstore rest orig probs full_probs).
Proof.
  unfold fuse_knn.
  apply keeps_bind; first apply keeps_lift. intros queries.
  destruct (negb (n =? 1)%nat); first apply keeps_throw.
  repeat first
    [ apply keeps_ret | apply keeps_lift | apply keeps_get
    | apply keeps_log_call | apply keeps_bind; [|intros ?] ].
Qed.

Lemma keeps_model_body smp self n knn inp acc km :
  Spec.keeps smp (model_body uninit self n knn inp (target smp) acc km).
Proof.
  destruct km as [k model]. unfold model_body.
  repeat first
    [ apply keeps_ret | apply keeps_lift | apply keeps_get
    | apply keeps_log_call | apply keeps_fuse_knn
    | apply keeps_for_each; intros; apply keeps_chunk_body
    | apply keeps_bind; [|intros ?]
    | match goal with
      | |- Spec.keeps _ (let '(_, _) := ?p in _) => destruct p
      | |- Spec.keeps _ (match ?o with Some _ => _ | None => _ end) =>
          destruct o
      end ].
Qed.

Lemma keeps_bind_get {B} smp (f : world -> prog world B) :
  (forall w0, w_sample w0 = smp -> Spec.keeps smp (f w0)) ->
  Spec.keeps smp (bind get f).
Proof. intros Hf w b w' Hrun Hw. exact (Hf w Hw w b w' Hrun Hw). Qed.

Lemma keeps_generate smp self models knn :
  Spec.keeps smp (generate uninit extract_hard_alignment self models knn).
Proof.
  unfold generate. apply keeps_bind_get. intros w0 <-.
  repeat first
    [ apply keeps_ret | apply keeps_lift | apply keeps_get
    | apply keeps_for_each; intros; apply keeps_model_body
    | apply keeps_bind; [|intros ?]
    | match goal with
      | |- Spec.keeps _ (let '(_, _) := ?p in _) => destruct p
      end ].
Qed.

(** C8. When [generate] returns, the sample is the one it was given, its
    target field included; and every pass of the loop over chunks that
    completes has called the provider on the sample holding the chunk's
    target and has put the original target back. *)
Theorem generate_restores_target self models knn w hypos w' :
  generate uninit extract_hard_alignment self models knn w = (Ok hypos, w') ->
  target (w_sample w') = target (w_sample w) /\
  w_sample w' = w_sample w /\
  (forall k model n acc bd tgt flag w1 acc' w2,
     chunk_body uninit k model n (target (w_sample w)) acc (bd, tgt, flag) w1
     = (Ok acc', w2) ->
     (exists curr_prob,
        get_normalized_probs model bd (n =? 1)%nat
          (set_target tgt (w_sample w1)) = Ok curr_prob) /\
     target (w_sample w2) = target (w_sample w)).
Proof.
  intros Hrun.
  assert (w_sample w' = w_sample w) as Hsame
    by (by eapply keeps_generate).
  split; first by rewrite Hsame. split; first done.
  intros k model n acc bd tgt flag w1 acc' w2 Hchunk.
  apply chunk_body_swaps in Hchunk as [Hcall ->].
  split; first done. by destruct (w_sample w1).
Qed.

End FrameFacts.

(** The toy batch scored in two chunks: [generate] returns, and the sample
    holds its target. *)
Lemma generate_restores_target_witness :
  is_ok Examples.toy_run.1 = true /\
  Scorer.target (Scorer.w_sample Examples.toy_run.2) = Examples.toy_target.
Proof.
  assert (is_ok Examples.toy_run.1 = true) as Hok by (vm_compute; reflexivity).
  split; first exact Hok.
  destruct Examples.toy_run as [[hypos|e] w'] eqn:Hrun; last discriminate Hok.
  exact (proj1 (generate_restores_target _ _ _ _ _ _ _ _ Hrun)).
Defined.

(** ** Lists, slices and views *)

Section ListFacts.
Context {A : Type}.
Implicit Types l : list A.

(** Assigning [src] to the window it exactly fills. *)
Lemma set_slice_exact err (dst src : list A) (s : nat) :
  (s + length src <= length dst)%nat ->
  Py.set_slice err dst (Z.of_nat s) (Z.of_nat (length src) + Z.of_nat s) src
  = Ok (take s dst ++ src ++ drop (s + length src) dst).
Proof.
  intros Hfit. unfold Py.set_slice.
  rewrite !slice_index_nonneg by lia.
  replace (Z.to_nat (Z.min (Z.of_nat s) (Z.of_nat (length dst)))) with s by lia.
  replace (Z.to_nat _) with (length src) by lia.
  by rewrite decide_True.
Qed.

Lemma groups_concat (t : list (list A)) b c :
  Spec.has_shape t b c -> Tensor.groups c b (concat t) = t.
Proof.
  intros [Hb Hc]. subst b.
  induction Hc as [|row t Hrow _ IH]; simpl; first done.
  rewrite take_app_length', drop_app_length' by done. by rewrite IH.
Qed.

Lemma concat_concat_singletons (t : list (list A)) :
  concat (concat ((fun row : list A => (fun x : A => [x]) <$> row) <$> t))
  = concat t.
Proof.
  induction t as [|row t IH]; first done.
  rewrite fmap_cons. simpl. rewrite concat_app, IH. f_equal.
  induction row as [|x row IHrow]; first done.
  rewrite fmap_cons. simpl. by rewrite IHrow.
Qed.

End ListFacts.

Section ViewFacts.
Context {A : Type}.

Lemma view2_concat (t : list (list A)) b c :
  Spec.has_shape t b c -> Tensor.view2 (concat t) b c = Ok t.
Proof.
  intros Hs. unfold Tensor.view2.
  rewrite (length_concat_shape _ _ _ Hs), decide_True by done.
  by rewrite groups_concat.
Qed.

Lemma view3_concat (t : list (list (list A))) b c v :
  Spec.has_shape t b c -> (0 < b * c)%nat ->
  Forall (fun row => length row = v) (concat t) ->
  Tensor.view3 (concat (concat t)) b c = Ok t.
Proof.
  intros Hs Hpos Hrows. unfold Tensor.view3.
  assert (Spec.has_shape (concat t) (b * c) v) as Hflat
    by (split; [by apply length_concat_shape | done]).
  rewrite (length_concat_shape _ _ _ Hflat).
  rewrite decide_False by lia.
  rewrite (Nat.mul_comm (b * c) v), Nat.Div0.mod_mul, decide_True by done.
  rewrite Nat.div_mul by lia.
  by rewrite (groups_concat _ _ _ Hflat), groups_concat.
Qed.

End ViewFacts.

Section GatherFacts.
Context {R : Type} `{Numeric R}.
Import Scorer.

Lemma pick_entry (row : list R) tok :
  0 <= tok < Z.of_nat (length row) -> pick row tok = Ok [Spec.entry row tok].
Proof.
  intros Htok. unfold pick, Spec.entry.
  destruct (Z.ltb_spec tok 0); first lia.
  destruct (row !! Z.to_nat tok) as [p|] eqn:Hp; first done.
  apply lookup_ge_None in Hp. lia.
Qed.

Lemma gather_row_entries (rows : list (list R)) (toks : list Z) :
  Forall2 (fun row tok => 0 <= tok < Z.of_nat (length row)) rows toks ->
  along_r pick rows toks
  = Ok ((fun x : R => [x]) <$> zip_with Spec.entry rows toks).
Proof.
  induction 1 as [|row tok rows toks Htok _ IH]; first done.
  simpl. by rewrite pick_entry, IH.
Qed.

Lemma gather_target_probs_entries (probs : tensor3 R) (target : tensor2 Z) :
  Forall2 (Forall2 (fun row tok => 0 <= tok < Z.of_nat (length row)))
          probs target ->
  gather_target_probs probs target
  = Ok ((fun row : list R => (fun x : R => [x]) <$> row)
          <$> Spec.target_probs probs target).
Proof.
  unfold gather_target_probs, Spec.target_probs.
  induction 1 as [|prow trow probs target Hrow _ IH]; first done.
  simpl. by rewrite gather_row_entries, IH.
Qed.

Lemma add2_same_shape (a b : tensor2 R) n c :
  Spec.has_shape a n c -> Spec.has_shape b n c ->
  exists s, add2 a b = Ok s /\ Spec.has_shape s n c.
Proof.
  intros [Ha Hac] [Hb Hbc]. subst n. revert b Hb Hbc.
  induction Hac as [|ra a Hra _ IH]; intros [|rb b] Hb Hbc; simplify_eq/=.
  - exists []. split; first done. by split.
  - inversion Hbc as [|? ? Hrb Hbc']; subst.
    destruct (IH b ltac:(done) Hbc') as (s & Hs & Hlen & Hall).
    assert (exists r, zip_r (fun x y => Ok (n_add x y)) ra rb = Ok r /\
                      length r = length ra) as (r & Hr & Hrl).
    { clear -Hrb. revert rb Hrb.
      induction ra as [|x ra IHr]; intros [|y rb] Hlen; simplify_eq/=.
      - by exists [].
      - destruct (IHr rb ltac:(done)) as (r & Hr & Hrl).
        exists (n_add x y :: r). by rewrite Hr, <- Hrl. }
    exists (r :: s). unfold add2 in *. simpl. rewrite Hr, Hs.
    split; first done. split; first (simpl; lia).
    constructor; [done | done].
Qed.

End GatherFacts.

(** ** One model over one batch *)

Section FlatFacts.
Context {R : Type} `{Numeric R}.
Import Scorer.
Variables (B T V : nat) (first : list (list (list R)))
          (f : list R -> list R) (target : list (list Z)).
Hypothesis Hws : Spec.well_shaped B T V first f target.

Lemma concat_map2 {X Y} (g : X -> Y) (t : list (list X)) :
  concat (Tensor.map2 g t) = g <$> concat t.
Proof.
  unfold Tensor.map2. induction t as [|row t IH]; first done.
  rewrite fmap_cons. simpl. by rewrite fmap_app, IH.
Qed.

Lemma flat_first_length : length (concat first) = (B * T)%nat.
Proof using Hws. apply length_concat_shape, Hws. Qed.

Lemma flat_target_length : length (concat target) = (B * T)%nat.
Proof using Hws. apply length_concat_shape, Hws. Qed.

Lemma flat_vocab : Forall (fun row => length (f row) = V) (concat first).
Proof using Hws.
  destruct Hws as [_ _ _ _ _ Hv _]. clear Hws.
  induction Hv as [|row t Hrow _ IH]; simpl; first done.
  by apply Forall_app.
Qed.

Lemma flat_in_vocab :
  Forall (fun tok => 0 <= tok < Z.of_nat V) (concat target).
Proof using Hws.
  destruct Hws as [_ _ _ _ _ _ Hr]. clear Hws.
  induction Hr as [|row t Hrow _ IH]; simpl; first done.
  by apply Forall_app.
Qed.

Lemma flat_in_range :
  Forall2 (fun row tok => 0 <= tok < Z.of_nat (length row))
          (f <$> concat first) (concat target).
Proof using Hws.
  apply Forall2_same_length_lookup_2.
  - rewrite length_fmap, flat_first_length, flat_target_length. done.
  - intros i row tok Hrow Htok.
    rewrite list_lookup_fmap in Hrow.
    destruct (concat first !! i) as [r|] eqn:Hr; simplify_eq/=.
    pose proof (Forall_lookup_1 _ _ _ _ flat_vocab Hr) as Hlen.
    pose proof (Forall_lookup_1 _ _ _ _ flat_in_vocab Htok) as Hin.
    simpl in Hlen, Hin. rewrite Hlen. lia.
Qed.

Lemma nested_in_range :
  Forall2 (Forall2 (fun row tok => 0 <= tok < Z.of_nat (length row)))
          (Tensor.map2 f first) target.
Proof using Hws.
  destruct Hws as [_ _ [Hb Hfs] _ [Hb' Hts] Hv Hr]. clear Hws.
  unfold Tensor.map2.
  apply Forall2_same_length_lookup_2; first (rewrite length_fmap; lia).
  intros i prow' trow Hprow Htrow. rewrite list_lookup_fmap in Hprow.
  destruct (first !! i) as [prow|] eqn:Hi; last done.
  simpl in Hprow. injection Hprow as <-.
  pose proof (Forall_lookup_1 _ _ _ _ Hfs Hi) as Hlp.
  pose proof (Forall_lookup_1 _ _ _ _ Hts Htrow) as Hlt.
  pose proof (Forall_lookup_1 _ _ _ _ Hv Hi) as Hvp.
  pose proof (Forall_lookup_1 _ _ _ _ Hr Htrow) as Hrt.
  simpl in Hlp, Hlt, Hvp, Hrt.
  apply Forall2_same_length_lookup_2; first (rewrite length_fmap; lia).
  intros j row tok Hrow Htok. rewrite list_lookup_fmap in Hrow.
  destruct (prow !! j) as [r|] eqn:Hj; simplify_eq/=.
  pose proof (Forall_lookup_1 _ _ _ _ Hvp Hj) as Hlen.
  pose proof (Forall_lookup_1 _ _ _ _ Hrt Htok) as Hin.
  simpl in Hlen, Hin. rewrite Hlen. lia.
Qed.

Lemma target_probs_shape :
  Spec.has_shape (Spec.target_probs (Tensor.map2 f first) target) B T.
Proof using Hws.
  destruct Hws as [_ _ [Hb Hfs] _ [Hb' Hts] _ _]. clear Hws.
  subst B. unfold Spec.target_probs, Tensor.map2. revert target Hb' Hts.
  induction first as [|prow fs IH]; intros [|trow tgt] Hlen Hts;
    simplify_eq/=; first by split.
  inversion Hfs; inversion Hts; subst.
  destruct (IH ltac:(done) tgt ltac:(done) ltac:(done)) as [Hl Hall].
  split; first (simpl; lia).
  constructor; last done.
  rewrite length_zip_with, length_fmap. lia.
Qed.

Lemma flat_target_probs :
  concat (Spec.target_probs (Tensor.map2 f first) target)
  = zip_with Spec.entry (f <$> concat first) (concat target).
Proof using Hws.
  destruct Hws as [_ _ [Hb Hfs] _ [Hb' Hts] _ _]. clear Hws.
  subst B. unfold Spec.target_probs, Tensor.map2. revert target Hb' Hts.
  induction first as [|prow fs IH]; intros [|trow tgt] Hlen Hts;
    simplify_eq/=; first done.
  inversion Hfs; inversion Hts; subst.
  rewrite fmap_app, zip_with_app by (rewrite length_fmap; lia).
  by rewrite IH.
Qed.

Lemma floor_zeros_shape :
  Spec.has_shape (floor_zeros (Tensor.map2 f first)) B T.
Proof using Hws.
  destruct Hws as [_ _ [Hb Hfs] _ _ _ _]. clear Hws.
  unfold floor_zeros, Tensor.map3, Tensor.map2.
  split; first by rewrite !length_fmap.
  rewrite !Forall_fmap. eapply Forall_impl; first exact Hfs.
  intros row Hrow. simpl. by rewrite !length_fmap.
Qed.

Lemma floor_zeros_rows :
  Forall (fun row => length row = V)
         (concat (floor_zeros (Tensor.map2 f first))).
Proof using Hws.
  unfold floor_zeros, Tensor.map3. rewrite !concat_map2.
  rewrite <- list_fmap_compose. apply Forall_fmap.
  eapply Forall_impl; first exact flat_vocab.
  intros row Hrow. simpl. by rewrite length_fmap.
Qed.

Lemma floor_zeros_vocab :
  Forall (Forall (fun row => length row = V))
         (floor_zeros (Tensor.map2 f first)).
Proof using Hws.
  destruct Hws as [_ _ _ _ _ Hv _]. clear Hws.
  unfold floor_zeros, Tensor.map3, Tensor.map2.
  rewrite !Forall_fmap. eapply Forall_impl; first exact Hv.
  intros rows Hrows. simpl. rewrite !Forall_fmap.
  eapply Forall_impl; first exact Hrows.
  intros row Hrow. simpl in *. by rewrite length_fmap.
Qed.

End FlatFacts.

Section ScatterFacts.
Context {R : Type} `{Numeric R}.
Variable uninit : R.
Import Scorer.
Variables (B T V : nat) (first : list (list (list R)))
          (f : list R -> list R) (target : list (list Z)).
Hypothesis Hws : Spec.well_shaped B T V first f target.
Variable M : Z.
Hypothesis HM : 0 < M.

Local Abbreviation N := (B * T)%nat.
Local Abbreviation flatP := (f <$> concat first).
Local Abbreviation flatG := (zip_with Spec.entry flatP (concat target)).

Lemma slice_window {A} (l : list A) (s : nat) :
  Py.slice l (Z.of_nat s) (Z.of_nat s + M) = take (Z.to_nat M) (drop s l).
Proof using HM.
  rewrite slice_take_drop by lia. rewrite Nat2Z.id. f_equal. lia.
Qed.

Lemma take_clip {A} (l : list A) n :
  take n l = take (n `min` length l) l.
Proof.
  destruct (Nat.le_gt_cases n (length l)).
  - by rewrite Nat.min_l.
  - rewrite Nat.min_r by lia. rewrite !take_ge; [done | lia | lia].
Qed.

Lemma flatG_length : length flatG = N.
Proof using Hws.
  rewrite length_zip_with, length_fmap.
  rewrite (flat_first_length B T V first f target Hws).
  rewrite (flat_target_length B T V first f target Hws). lia.
Qed.

(** The buffers after the positions below [s] have been written. *)
Local Abbreviation probs_upto s :=
  (take s flatG ++ replicate (N - s) uninit).
Local Abbreviation full_upto s :=
  ([take s flatP ++ replicate (N - s) (replicate V uninit)]).

(** One pass of the [else] branch, on the chunk that starts at [s]. *)
Lemma scatter_chunk_step (s : nat) (acc : chunk_acc R) :
  (s < N)%nat ->
  c_idx acc = Z.of_nat s ->
  default (replicate N uninit) (c_probs acc) = probs_upto s ->
  default [replicate N (replicate V uninit)] (c_full acc) = full_upto s ->
  let e := ((s + Z.to_nat M) `min` N)%nat in
  scatter_chunk uninit target acc
    [f <$> Py.slice (concat first) (Z.of_nat s) (Z.of_nat s + M)]
    [Py.slice (concat target) (Z.of_nat s) (Z.of_nat s + M)]
  = Ok {| c_probs := Some (probs_upto e);
          c_full := Some (full_upto e);
          c_idx := Z.of_nat e |}.
Proof using Hws HM.
  intros Hs Hidx Hprobs Hfull e.
  pose proof (flat_first_length B T V first f target Hws) as Hlf.
  pose proof (flat_target_length B T V first f target Hws) as Hlt.
  pose proof flatG_length as HlG.
  pose proof (flat_vocab B T V first f target Hws) as Hvoc.
  pose proof (flat_in_range B T V first f target Hws) as Hrange.
  rewrite !slice_window. rewrite fmap_take, fmap_drop.
  set (m := Z.to_nat M) in *.
  assert (length (take m (drop s flatP)) = (e - s)%nat) as Hlen.
  { rewrite length_take, length_drop, length_fmap, Hlf. lia. }
  assert (length (take m (drop s (concat target))) = (e - s)%nat) as Hlen'.
  { rewrite length_take, length_drop, Hlt. lia. }
  assert (size2 [take m (drop s flatP)] = V) as Hsize2.
  { unfold size2. simpl.
    destruct (take m (drop s flatP)) as [|row rows] eqn:Hrows;
      first (simpl in Hlen; lia).
    simpl. assert (row ∈ flatP) as Hin.
    { apply (subseteq_drop s), (subseteq_take m).
      rewrite Hrows. by left. }
    apply list_elem_of_fmap in Hin as (r & -> & Hr).
    by apply (proj1 (Forall_forall _ _) Hvoc). }
  unfold scatter_chunk. rewrite Hsize2. unfold Tensor.numel2.
  rewrite Hlt.
  replace (match c_probs acc with
           | Some p => p
           | None => replicate N uninit
           end) with (probs_upto s) by (rewrite <- Hprobs; by destruct (c_probs acc)).
  replace (match c_full acc with
           | Some f0 => f0
           | None => replicate (length [take m (drop s flatP)])
                       (replicate N (replicate V uninit))
           end) with (full_upto s) by (rewrite <- Hfull; by destruct (c_full acc)).
  unfold size0, size1. simpl hd.
  change (Z.of_nat (length [take m (drop s flatP)])) with 1.
  rewrite Hidx, !Z.mul_1_l.
  simpl zip_r.
  rewrite set_slice_exact
    by (rewrite Hlen, length_app, length_take, length_fmap,
          length_replicate, Hlf; lia).
  simpl rbind. rewrite !app_nil_r.
  rewrite decide_True by (rewrite Hlen, Hlen'; done).
  simpl rbind.
  unfold gather_target_probs. simpl along_r.
  rewrite gather_row_entries
    by (apply Forall2_take, Forall2_drop, Hrange).
  simpl rbind. simpl concat. rewrite !app_nil_r.
  rewrite concat_singletons, list_fmap_id.
  rewrite <- zip_with_take, <- zip_with_drop.
  replace (Z.of_nat (length (take m (drop s flatP))) + Z.of_nat s)
    with (Z.of_nat (length (take m (drop s flatG))) + Z.of_nat s)
    by (rewrite Hlen, length_take, length_drop, HlG; lia).
  rewrite set_slice_exact
    by (rewrite length_take, length_drop, HlG, length_app, length_take,
          HlG, length_replicate; lia).
  simpl rbind. do 2 f_equal.
  - rewrite take_app_length' by (rewrite length_take, HlG; lia).
    rewrite drop_app_ge by (rewrite length_take, HlG; lia).
    rewrite drop_replicate, app_assoc, take_take_drop.
    rewrite !length_take, !length_drop, HlG.
    rewrite (take_clip _ (s + m)), HlG. fold e.
    do 3 f_equal. unfold e. lia.
  - f_equal.
    rewrite take_app_length' by (rewrite length_take, length_fmap, Hlf; lia).
    rewrite drop_app_ge by (rewrite length_take, length_fmap, Hlf; lia).
    rewrite drop_replicate, app_assoc, take_take_drop.
    rewrite !length_take, !length_drop, !length_fmap, Hlf.
    rewrite (take_clip _ (s + m)), length_fmap, Hlf. fold e.
    do 3 f_equal. unfold e. lia.
  - rewrite length_take, length_drop, HlG. unfold e. lia.
Qed.

End ScatterFacts.

Section PassFacts.
Context {R : Type} `{Numeric R}.
Variable uninit : R.
Import Scorer.
Variables (B T V : nat) (first : list (list (list R)))
          (f : list R -> list R) (orig : list (list Z)).
Hypothesis Hws : Spec.well_shaped B T V first f orig.
Variables (self : SequenceScorer R) (model : Model R) (k n_models : nat)
          (rest : extra R).
Hypothesis HM : 0 < softmax_batch self.
Hypothesis Hrow :
  forall bd s,
    get_normalized_probs model bd (n_models =? 1)%nat s
    = Ok (Tensor.map2 f bd.1).

Local Abbreviation M := (softmax_batch self).
Local Abbreviation N := (B * T)%nat.
Local Abbreviation flatP := (f <$> concat first).
Local Abbreviation flatG := (zip_with Spec.entry flatP (concat orig)).

(** Number of passes of the loop over chunks. *)
Local Abbreviation passes :=
  (if Z.of_nat N <? M then 1%nat
   else Z.to_nat ((Z.of_nat N + M - 1) / M)).

(** One pass of the loop over chunks, on the chunk that starts at [s]. *)
Lemma chunk_body_sub (s : nat) (acc : chunk_acc R) (w : world) :
  (s < N)%nat ->
  c_idx acc = Z.of_nat s ->
  default (replicate N uninit) (c_probs acc)
  = take s flatG ++ replicate (N - s) uninit ->
  default [replicate N (replicate V uninit)] (c_full acc)
  = [take s flatP ++ replicate (N - s) (replicate V uninit)] ->
  target (w_sample w) = orig ->
  let e := ((s + Z.to_nat M) `min` N)%nat in
  chunk_body uninit k model n_models orig acc
    ([Py.slice (concat first) (Z.of_nat s) (Z.of_nat s + M)], rest,
     [Py.slice (concat orig) (Z.of_nat s) (Z.of_nat s + M)], false) w
  = (Ok {| c_probs := Some (take e flatG ++ replicate (N - e) uninit);
           c_full := Some [take e flatP
                           ++ replicate (N - e) (replicate V uninit)];
           c_idx := Z.of_nat e |},
     {| w_sample := w_sample w;
        w_calls := w_calls w ++ [Normalize k] |}).
Proof using Hws HM Hrow.
  intros Hs Hidx Hprobs Hfull Htgt e.
  unfold chunk_body, bind, store_target, log_call, modify, get, lift, ret.
  simpl. rewrite Hrow. unfold Tensor.map2. simpl.
  rewrite (scatter_chunk_step uninit B T V first f orig Hws M HM s acc
             Hs Hidx Hprobs Hfull).
  by rewrite set_target_restore.
Qed.

Lemma chunk_loop_pass (cnt : nat) :
  forall (s : nat) (acc : chunk_acc R) (w : world),
    (s < N)%nat ->
    cnt = Z.to_nat ((Z.of_nat N - Z.of_nat s + M - 1) / M) ->
    c_idx acc = Z.of_nat s ->
    default (replicate N uninit) (c_probs acc)
    = take s flatG ++ replicate (N - s) uninit ->
    default [replicate N (replicate V uninit)] (c_full acc)
    = [take s flatP ++ replicate (N - s) (replicate V uninit)] ->
    target (w_sample w) = orig ->
    for_each (chunk_body uninit k model n_models orig)
      ((fun j : nat =>
          ([Py.slice (concat first) (Z.of_nat s + Z.of_nat j * M)
                     (Z.of_nat s + Z.of_nat j * M + M)], rest,
           [Py.slice (concat orig) (Z.of_nat s + Z.of_nat j * M)
                     (Z.of_nat s + Z.of_nat j * M + M)], false))
       <$> seq 0 cnt) acc w
    = (Ok {| c_probs := Some flatG; c_full := Some [flatP];
             c_idx := Z.of_nat N |},
       {| w_sample := w_sample w;
          w_calls := w_calls w ++ replicate cnt (Normalize k) |}).
Proof using Hws HM Hrow.
  pose proof (flat_first_length B T V first f orig Hws) as Hlf.
  pose proof (flatG_length B T V first f orig Hws) as HlG.
  induction cnt as [|c IH]; intros s acc w Hs Hcnt Hidx Hprobs Hfull Htgt.
  { exfalso.
    assert (1 <= (Z.of_nat N - Z.of_nat s + M - 1) / M); last lia.
    apply Z.div_le_lower_bound; lia. }
  rewrite <- cons_seq, fmap_cons.
  cbv beta. rewrite Z.mul_0_l, Z.add_0_r.
  cbn [for_each]. unfold bind at 1.
  rewrite (chunk_body_sub s acc w Hs Hidx Hprobs Hfull Htgt).
  destruct (Nat.lt_ge_cases (s + Z.to_nat M) N) as [Hlt|Hge].
  - rewrite Nat.min_l by lia.
    rewrite <- fmap_S_seq, <- list_fmap_compose.
    rewrite (list_fmap_ext _
               (fun j : nat =>
                  ([Py.slice (concat first)
                      (Z.of_nat (s + Z.to_nat M) + Z.of_nat j * M)
                      (Z.of_nat (s + Z.to_nat M) + Z.of_nat j * M + M)], rest,
                   [Py.slice (concat orig)
                      (Z.of_nat (s + Z.to_nat M) + Z.of_nat j * M)
                      (Z.of_nat (s + Z.to_nat M) + Z.of_nat j * M + M)],
                   false)) (seq 0 c)).
    2:{ intros _ j _. unfold compose.
        replace (Z.of_nat s + Z.of_nat (S j) * M)
          with (Z.of_nat (s + Z.to_nat M) + Z.of_nat j * M) by lia.
        done. }
    rewrite (IH (s + Z.to_nat M)%nat); try done; try lia.
    + simpl. by rewrite <- app_assoc.
    + replace (Z.of_nat N - Z.of_nat s + M - 1)
        with (Z.of_nat N - Z.of_nat (s + Z.to_nat M) + M - 1 + 1 * M)
        in Hcnt by lia.
      rewrite Z.div_add in Hcnt by lia.
      assert (0 <= (Z.of_nat N - Z.of_nat (s + Z.to_nat M) + M - 1) / M)
        by (apply Z.div_pos; lia).
      lia.
  - rewrite Nat.min_r by lia.
    assert (c = 0%nat) as ->.
    { assert ((Z.of_nat N - Z.of_nat s + M - 1) / M < 2); last lia.
      apply Z.div_lt_upper_bound; lia. }
    simpl. unfold ret.
    rewrite Nat.sub_diag. simpl. rewrite !app_nil_r.
    rewrite !take_ge by (rewrite ?length_fmap; lia). done.
Qed.

Local Abbreviation P := (Tensor.map2 f first).
Local Abbreviation G := (Spec.target_probs P orig).

(** The loop over chunks of one model, whichever path it takes. *)
Lemma chunks_scored (w : world) :
  target (w_sample w) = orig ->
  exists batched full0,
    batch_for_softmax M (first, rest) orig = Ok batched /\
    for_each (chunk_body uninit k model n_models orig) batched
      {| c_probs := None; c_full := None; c_idx := 0 |} w
    = (Ok {| c_probs := Some (concat G); c_full := Some full0;
             c_idx := Z.of_nat (if Z.of_nat N <? M then 0 else N) |},
       {| w_sample := w_sample w;
          w_calls := w_calls w ++ replicate passes (Normalize k) |}) /\
    concat (concat (floor_zeros full0)) = concat (concat (floor_zeros P)).
Proof using Hws HM Hrow.
  intros Htgt.
  pose proof (flat_first_length B T V first f orig Hws) as Hlf.
  pose proof (flat_target_length B T V first f orig Hws) as Hlt.
  pose proof (flat_target_probs B T V first f orig Hws) as HG.
  destruct Hws as [HB HT Hfirst Hdim Horig _ _].
  unfold batch_for_softmax.
  rewrite (shape2_of_shape first B T Hfirst HB).
  replace (Z.of_nat B * Z.of_nat T) with (Z.of_nat N) by lia.
  destruct (Z.ltb_spec (Z.of_nat N) M) as [Hlt'|Hge].
  - eexists _, P. split; first reflexivity. split; last done.
    simpl for_each. unfold bind at 1. unfold chunk_body.
    unfold bind, store_target, log_call, modify, get, lift, ret. simpl.
    rewrite Hrow. simpl.
    rewrite (gather_target_probs_entries P orig)
      by apply (nested_in_range B T V first f orig Hws).
    simpl. rewrite concat_concat_singletons.
    by rewrite set_target_restore.
  - assert (length (hd [] (hd [] first)) <> 0%nat) as Hd.
    { destruct Hfirst as [Hb Hrows].
      destruct first as [|row0 fs]; first (simpl in Hb; lia).
      inversion Hrows as [|? ? Hrow0 _]; subst.
      inversion Hdim as [|? ? Hdim0 _]; subst.
      destruct row0 as [|r0 row0]; first (simpl in *; lia).
      inversion Hdim0; subst. simpl. lia. }
    rewrite decide_False by done.
    rewrite decide_True by lia.
    rewrite chunk_loop_yields by lia.
    eexists _, [flatP]. split; first reflexivity. split.
    + rewrite Z.sub_0_r, Hlf.
      rewrite (list_fmap_ext _
                 (fun j : nat =>
                    ([Py.slice (concat first)
                        (Z.of_nat 0 + Z.of_nat j * M)
                        (Z.of_nat 0 + Z.of_nat j * M + M)], rest,
                     [Py.slice (concat orig)
                        (Z.of_nat 0 + Z.of_nat j * M)
                        (Z.of_nat 0 + Z.of_nat j * M + M)],
                     false))) by done.
      rewrite (chunk_loop_pass _ 0%nat); try done; try lia.
      * by rewrite HG.
      * do 2 f_equal. lia.
      * simpl. by rewrite Nat.sub_0_r.
      * simpl. by rewrite Nat.sub_0_r.
    + unfold floor_zeros, Tensor.map3. rewrite !concat_map2.
      simpl. by rewrite app_nil_r.
Qed.

(** One iteration of the loop over models, up to the retrieval branch:
    the model has been run and normalised chunk by chunk, and what is
    left is the fusion and the accumulation, on the target
    probabilities [G] and the floored distributions of the model. *)
Lemma model_body_scored knn inp (acc : ens_acc R) (w : world) :
  forward model inp = Ok (first, rest) ->
  target (w_sample w) = orig ->
  model_body uninit self n_models knn inp orig acc (k, model) w
  = (pf <- match knn with
           | Some dstore =>
               fuse_knn self n_models dstore rest orig G (floor_zeros P)
           | None => ret (G, floor_zeros P)
           end ;;
     avg_probs <- lift (match acc with
                        | None => Ok pf.1
                        | Some (avg_probs, _, _, _) => add2 avg_probs pf.1
                        end) ;;
     avg_attn <- lift (match attn_of rest, acc with
                       | Some a, Some (_, Some avg_attn, _, _) =>
                           rmap Some (add3 avg_attn a)
                       | Some a, _ => Ok (Some a)
                       | None, Some (_, avg_attn, _, _) => Ok avg_attn
                       | None, None => Ok None
                       end) ;;
     ret (Some (avg_probs, avg_attn, pf.2, (first, rest))))%prog
    {| w_sample := w_sample w;
       w_calls := w_calls w ++ Forward k :: replicate passes (Normalize k) |}.
Proof using Hws HM Hrow.
  intros Hfwd Htgt.
  destruct (chunks_scored
              {| w_sample := w_sample w; w_calls := w_calls w ++ [Forward k] |}
              Htgt) as (batched & full0 & Hbatch & Hloop & Hfull).
  unfold model_body.
  unfold bind at 1. unfold log_call at 1, modify at 1.
  unfold bind at 1. unfold lift at 1. rewrite Hfwd.
  unfold bind at 1. unfold lift at 1. cbn [snd]. rewrite Hbatch.
  unfold bind at 1. rewrite Hloop.
  unfold bind at 1. unfold lift at 1. cbn [c_full of_option].
  unfold bind at 1. unfold lift at 1. cbn [c_probs of_option].
  unfold bind at 1. unfold get at 1. cbn [w_sample].
  rewrite Htgt.
  rewrite (shape2_of_shape orig B T) by apply Hws.
  unfold bind at 1. unfold lift at 1.
  rewrite view2_concat
    by apply (target_probs_shape B T V first f orig Hws).
  unfold bind at 1. unfold lift at 1.
  rewrite Hfull.
  rewrite (view3_concat _ B T V).
  - cbn [w_calls]. rewrite <- app_assoc. reflexivity.
  - apply (floor_zeros_shape B T V first f orig Hws).
  - destruct Hws. nia.
  - apply (floor_zeros_rows B T V first f orig Hws).
Qed.

End PassFacts.

(** ** Assembling the hypotheses *)

Section AssemblyFacts.
Context {R : Type} `{Numeric R}.
Variable extract_hard_alignment :
  list (list R) -> list Z -> list Z -> Z -> Z -> list Z.
Import Scorer.

Lemma map_r_Forall2 {X Y} (g : X -> result Y) (Q : X -> Y -> Prop) l :
  Forall (fun x => exists y, g x = Ok y /\ Q x y) l ->
  exists ys, map_r g l = Ok ys /\ Forall2 Q l ys.
Proof.
  induction 1 as [|x l (y & Hy & HQ) _ (ys & Hys & HQs)].
  - by exists [].
  - exists (y :: ys). simpl. rewrite Hy, Hys. split; first done.
    by constructor.
Qed.

Lemma map_r_total {X Y} (g : X -> result Y) (g' : X -> Y) l :
  Forall (fun x => g x = Ok (g' x)) l -> map_r g l = Ok (g' <$> l).
Proof.
  induction 1 as [|x l Hx _ IH]; first done.
  simpl. by rewrite Hx, IH.
Qed.

(** The top-100 extraction goes through on rows of 100 entries or more. *)
Lemma topk_rows (v : nat) (t : list (list (list R))) :
  (100 <= v)%nat ->
  Forall (Forall (fun row => length row = v)) t ->
  map_r (map_r (n_topk 100)) t
  = Ok (Tensor.map2 (fun row => take 100 (n_argsort row)) t).
Proof.
  intros Hv Ht. unfold Tensor.map2. apply map_r_total.
  eapply Forall_impl; first exact Ht.
  intros rows Hrows. simpl. apply map_r_total.
  eapply Forall_impl; first exact Hrows.
  intros row Hrow. simpl in *. unfold n_topk.
  by rewrite decide_True by lia.
Qed.

Lemma slice_subseteq {A} (l : list A) lo hi : Py.slice l lo hi ⊆ l.
Proof.
  unfold Py.slice. etrans; first apply subseteq_take. apply subseteq_drop.
Qed.

(** One hypothesis: what [hypo_of] returns for sequence [i]. *)
Lemma hypo_of_fields self sample avg_probs avg_attn topk_tokens
      (first : tensor3 R) rest start_idxs (i b : nat) start trow row trk :
  (i < b)%nat ->
  start_idxs !! i = Some start ->
  target sample !! i = Some trow ->
  avg_probs !! i = Some row ->
  topk_tokens !! i = Some trk ->
  (forall a, avg_attn = Some a -> (b <= length a)%nat) ->
  (compute_alignment self = true ->
   exists inp, net_input sample = Some inp /\
               (b <= length (src_tokens inp))%nat) ->
  (save_knnlm_dstore (args self) = true ->
   exists st, key_states self rest = Ok st /\
              Forall (fun tb => (b <= length tb)%nat) st) ->
  exists hypo,
    hypo_of extract_hard_alignment self sample avg_probs avg_attn
            topk_tokens (first, rest) start_idxs i = Ok [hypo] /\
    tokens hypo = Spec.reference (pad self) trow start /\
    positional_scores hypo = Spec.window (pad self) trow start row /\
    score hypo
    = n_div_int (n_sum (Spec.window (pad self) trow start row))
                (Z.of_nat (length (Spec.reference (pad self) trow start))) /\
    predicted_topk hypo = Spec.window (pad self) trow start trk.
Proof.
  intros Hi Hstart Htrow Hrow Htrk Hattn Halign Hkeys.
  assert (Hks : save_knnlm_dstore (args self) = true ->
            exists st ks,
              key_states self rest = Ok st /\
              map_r (fun tb : list (list R) => of_option IndexError (tb !! i))
                    (Py.from st start) = Ok ks).
  { intros Hsave. destruct (Hkeys Hsave) as (st & Hst & Hall).
    exists st.
    destruct (map_r_Forall2
                (fun tb : list (list R) => of_option IndexError (tb !! i))
                (fun _ _ => True) (Py.from st start)) as (ks & Hks & _);
      last by exists ks.
    apply Forall_forall. intros tb Htb.
    apply slice_subseteq in Htb.
    pose proof (proj1 (Forall_forall _ _) Hall tb Htb) as Hlen.
    destruct (lookup_lt_is_Some_2 tb i ltac:(simpl in Hlen; lia)) as [x ->].
    by eexists. }
  unfold hypo_of. rewrite Hstart, Htrow, Hrow, Htrk. cbn [of_option rbind].
  destruct avg_attn as [a|].
  - specialize (Hattn a eq_refl).
    destruct (lookup_lt_is_Some_2 a i ltac:(lia)) as [ai ->].
    cbn [of_option rbind].
    destruct (compute_alignment self).
    + destruct (Halign eq_refl) as (inp & -> & Hsrc).
      destruct (lookup_lt_is_Some_2 (src_tokens inp) i ltac:(lia))
        as [si ->].
      cbn [of_option rbind snd].
      destruct (save_knnlm_dstore (args self)).
      * destruct (Hks eq_refl) as (st & ks & -> & Hmap).
        cbn [rbind]. rewrite Hmap. cbn. by eexists.
      * cbn. by eexists.
    + cbn [of_option rbind snd].
      destruct (save_knnlm_dstore (args self)).
      * destruct (Hks eq_refl) as (st & ks & -> & Hmap).
        cbn [rbind]. rewrite Hmap. cbn. by eexists.
      * cbn. by eexists.
  - cbn [of_option rbind snd].
    destruct (save_knnlm_dstore (args self)).
    + destruct (Hks eq_refl) as (st & ks & -> & Hmap).
      cbn [rbind]. rewrite Hmap. cbn. by eexists.
    + cbn. by eexists.
Qed.

End AssemblyFacts.

(** ** A single model, no retrieval *)

Section SingleModelFacts.
Context {R : Type} `{Numeric R}.
Variable uninit : R.
Variable extract_hard_alignment :
  list (list R) -> list Z -> list Z -> Z -> Z -> list Z.
Import Scorer.

Lemma start_idxs_lookup (sample : Sample) (b i : nat) :
  (i < b)%nat ->
  (forall l, start_indices sample = Some l -> (b <= length l)%nat) ->
  match start_indices sample with
  | Some l => l
  | None => replicate b 0
  end !! i = Some (Spec.start_of sample i).
Proof.
  intros Hi Hl. unfold Spec.start_of.
  destruct (start_indices sample) as [l|].
  - destruct (lookup_lt_is_Some_2 l i) as [x Hx];
      first (specialize (Hl l eq_refl); lia).
    by rewrite Hx.
  - by apply lookup_replicate_2.
Qed.

(** The hypotheses of a batch, from the averaged target probabilities
    [avg_probs] and the top tokens [topk_tokens] of its [b] sequences. *)
Lemma hypotheses_assembled self sample (avg_probs : list (list R)) avg_attn
      (topk_tokens : list (list (list Z))) (first : tensor3 R) rest (b : nat) :
  length avg_probs = b ->
  length topk_tokens = b ->
  length (target sample) = b ->
  Spec.assembles self sample rest b ->
  (forall a, avg_attn = Some a -> (b <= length a)%nat) ->
  exists hypos,
    map_r (hypo_of extract_hard_alignment self sample avg_probs avg_attn
                   topk_tokens (first, rest)
                   match start_indices sample with
                   | Some l => l
                   | None => replicate (length avg_probs) 0
                   end) (seq 0 (length avg_probs)) = Ok hypos /\
    length hypos = b /\
    forall i trow row trk,
      target sample !! i = Some trow ->
      avg_probs !! i = Some row ->
      topk_tokens !! i = Some trk ->
      exists hypo,
        hypos !! i = Some [hypo] /\
        tokens hypo
        = Spec.reference (pad self) trow (Spec.start_of sample i) /\
        positional_scores hypo
        = Spec.window (pad self) trow (Spec.start_of sample i) row /\
        score hypo
        = n_div_int (n_sum (positional_scores hypo))
                    (Z.of_nat (length (tokens hypo))) /\
        predicted_topk hypo
        = Spec.window (pad self) trow (Spec.start_of sample i) trk.
Proof.
  intros Havg Htopk Htgt [Hstarts Halign Hkeys] Hattn. rewrite Havg.
  set (Q := fun (i : nat) (y : list (Hypo R)) =>
    forall trow row trk,
      target sample !! i = Some trow ->
      avg_probs !! i = Some row ->
      topk_tokens !! i = Some trk ->
      exists hypo,
        y = [hypo] /\
        tokens hypo
        = Spec.reference (pad self) trow (Spec.start_of sample i) /\
        positional_scores hypo
        = Spec.window (pad self) trow (Spec.start_of sample i) row /\
        score hypo
        = n_div_int (n_sum (positional_scores hypo))
                    (Z.of_nat (length (tokens hypo))) /\
        predicted_topk hypo
        = Spec.window (pad self) trow (Spec.start_of sample i) trk).
  destruct (map_r_Forall2
              (hypo_of extract_hard_alignment self sample avg_probs avg_attn
                 topk_tokens (first, rest)
                 match start_indices sample with
                 | Some l => l
                 | None => replicate b 0
                 end) Q (seq 0 b)) as (hypos & Hrun & Hall).
  { apply Forall_forall. intros i Hi. apply elem_of_seq in Hi.
    destruct (lookup_lt_is_Some_2 (target sample) i ltac:(lia)) as [trow Htrow].
    destruct (lookup_lt_is_Some_2 avg_probs i ltac:(lia)) as [row Hrow].
    destruct (lookup_lt_is_Some_2 topk_tokens i ltac:(lia)) as [trk Htrk].
    destruct (hypo_of_fields extract_hard_alignment self sample avg_probs
                avg_attn topk_tokens first rest _ i b _ trow row trk
                ltac:(lia) (start_idxs_lookup sample b i ltac:(lia) Hstarts)
                Htrow Hrow Htrk Hattn Halign Hkeys)
      as (hypo & Hhypo & Htok & Hpos & Hscore & Htop).
    exists [hypo]. split; first exact Hhypo.
    intros trow' row' trk' Ht' Hr' Hk'.
    pose proof (eq_trans (eq_sym Htrow) Ht') as Heq1. injection Heq1 as <-.
    pose proof (eq_trans (eq_sym Hrow) Hr') as Heq2. injection Heq2 as <-.
    pose proof (eq_trans (eq_sym Htrk) Hk') as Heq3. injection Heq3 as <-.
    exists hypo. rewrite Hpos, Htok. repeat split; assumption. }
  exists hypos. split; first exact Hrun.
  pose proof (Forall2_length _ _ _ Hall) as Hlen.
  rewrite length_seq in Hlen. split; first done.
  intros i trow row trk Htrow Hrow Htrk.
  assert (i < b)%nat as Hi by (apply lookup_lt_Some in Htrow; lia).
  destruct (lookup_lt_is_Some_2 hypos i ltac:(lia)) as [y Hy].
  pose proof (Forall2_lookup_lr _ _ _ i i y Hall
                (lookup_seq_lt 0 b i Hi) Hy) as HQ.
  destruct (HQ trow row trk Htrow Hrow Htrk) as (hypo & -> & Hfields).
  by exists hypo.
Qed.

(** The top-100 extraction is refused on rows of fewer than 100
    entries. *)
Lemma topk_small (v b t : nat) (full : tensor3 R) :
  (v < 100)%nat -> (0 < b)%nat -> (0 < t)%nat ->
  Spec.has_shape full b t ->
  Forall (Forall (fun row => length row = v)) full ->
  map_r (map_r (n_topk 100)) full = Raise RuntimeError.
Proof.
  intros Hv Hb Ht [Hl Hr] Hrows.
  destruct full as [|m full]; first (simpl in Hl; lia).
  apply Forall_cons in Hr as [Hm _].
  apply Forall_cons in Hrows as [Hmr _].
  destruct m as [|row m]; first (simpl in Hm; lia).
  apply Forall_cons in Hmr as [Hrow _]. simpl in Hrow.
  cbn [map_r]. unfold n_topk at 1. by rewrite decide_False by lia.
Qed.

(** A slice of an entrywise combination is the combination of the
    slices. *)
Lemma slice_zip_with {A B C} (g : A -> B -> C) (l1 : list A) (l2 : list B)
      lo hi :
  length l1 = length l2 ->
  Py.slice (zip_with g l1 l2) lo hi
  = zip_with g (Py.slice l1 lo hi) (Py.slice l2 lo hi).
Proof.
  intros Hlen. unfold Py.slice.
  rewrite length_zip_with, <- Hlen, Nat.min_id.
  by rewrite zip_with_drop, zip_with_take.
Qed.

(** One model, no retrieval: [generate] up to the top-100 extraction
    and the assembly of the hypotheses. *)
Lemma single_model_topk
    tgt_pad tgt_eos sb ca (a : Args R) (self : SequenceScorer R)
    (model : Model R) (w : world) (inp : NetInput)
    (first : list (list (list R))) (rest : extra R)
    (f : list R -> list R) (B T V : nat) :
  init tgt_pad tgt_eos sb ca a = Ok self ->
  net_input (w_sample w) = Some inp ->
  forward model inp = Ok (first, rest) ->
  (forall bd s,
     get_normalized_probs model bd true s = Ok (Tensor.map2 f bd.1)) ->
  Spec.well_shaped B T V first f (target (w_sample w)) ->
  let G := Spec.target_probs (Tensor.map2 f first) (target (w_sample w)) in
  exists w',
    generate uninit extract_hard_alignment self [model] None w
    = (topk_tokens <- lift (map_r (map_r (n_topk 100))
                                  (floor_zeros (Tensor.map2 f first))) ;;
       lift (map_r (hypo_of extract_hard_alignment self (w_sample w) G
                            (attn_of rest) topk_tokens (first, rest)
                            match start_indices (w_sample w) with
                            | Some l => l
                            | None => replicate (length G) 0
                            end) (seq 0 (length G))))%prog w'.
Proof.
  intros Hinit Hinp Hfwd Hrow Hws G.
  pose proof (init_softmax_batch_pos _ _ _ _ _ _ Hinit) as HM.
  eexists. unfold generate.
  unfold bind at 1. unfold get at 1.
  unfold bind at 1. unfold lift at 1. rewrite Hinp. cbn [of_option].
  cbn [imap for_each length].
  unfold bind at 1. unfold bind at 1.
  rewrite (model_body_scored uninit B T V first f _ Hws self model 0 1
             rest HM Hrow None inp None w Hfwd eq_refl).
  unfold bind at 1. unfold ret at 1.
  unfold bind at 1. unfold lift at 1. cbn [fst].
  unfold bind at 1. unfold lift at 1.
  assert (match attn_of rest, @None (tensor2 R * option (tensor3 R)
                                     * tensor3 R * decoder_out R) with
          | Some a0, Some (_, Some avg_attn, _, _) =>
              rmap Some (add3 avg_attn a0)
          | Some a0, _ => Ok (Some a0)
          | None, Some (_, avg_attn, _, _) => Ok avg_attn
          | None, None => Ok None
          end = Ok (attn_of rest)) as -> by (by destruct (attn_of rest)).
  unfold ret at 1. unfold ret at 1.
  unfold bind at 1. unfold lift at 1. cbn [of_option].
  cbn [average Nat.ltb Nat.leb snd].
  unfold bind at 1. unfold lift at 1.
  unfold bind at 1. unfold lift at 1.
  destruct (map_r (map_r (n_topk 100)) (floor_zeros (Tensor.map2 f first)))
    as [topk|e]; last reflexivity.
  unfold bind at 1. unfold get at 1. cbn [w_sample].
  unfold lift. reflexivity.
Qed.

(** Over fewer than 100 symbols the scores are computed and then lost:
    the top-100 extraction of line 166 raises. *)
Lemma single_model_refused
    tgt_pad tgt_eos sb ca (a : Args R) (self : SequenceScorer R)
    (model : Model R) (w : world) (inp : NetInput)
    (first : list (list (list R))) (rest : extra R)
    (f : list R -> list R) (B T V : nat) :
  init tgt_pad tgt_eos sb ca a = Ok self ->
  net_input (w_sample w) = Some inp ->
  forward model inp = Ok (first, rest) ->
  (forall bd s,
     get_normalized_probs model bd true s = Ok (Tensor.map2 f bd.1)) ->
  Spec.well_shaped B T V first f (target (w_sample w)) ->
  (V < 100)%nat ->
  (generate uninit extract_hard_alignment self [model] None w).1
  = Raise RuntimeError.
Proof.
  intros Hinit Hinp Hfwd Hrow Hws HV.
  destruct (single_model_topk _ _ _ _ _ _ _ _ _ _ _ _ B T V
              Hinit Hinp Hfwd Hrow Hws) as [w' ->].
  rewrite (topk_small V B T);
    [done | done | apply Hws | apply Hws | |].
  - apply (floor_zeros_shape B T V first f _ Hws).
  - apply (floor_zeros_vocab B T V first f _ Hws).
Qed.

(** Over 100 symbols or more the hypotheses are returned. *)
Lemma single_model_hypos
    tgt_pad tgt_eos sb ca (a : Args R) (self : SequenceScorer R)
    (model : Model R) (w : world) (inp : NetInput)
    (first : list (list (list R))) (rest : extra R)
    (f : list R -> list R) (B T V : nat) :
  init tgt_pad tgt_eos sb ca a = Ok self ->
  net_input (w_sample w) = Some inp ->
  forward model inp = Ok (first, rest) ->
  (forall bd s,
     get_normalized_probs model bd true s = Ok (Tensor.map2 f bd.1)) ->
  Spec.well_shaped B T V first f (target (w_sample w)) ->
  (100 <= V)%nat ->
  Spec.assembles self (w_sample w) rest B ->
  (forall att, attn_of rest = Some att -> (B <= length att)%nat) ->
  exists hypos w',
    generate uninit extract_hard_alignment self [model] None w
    = (Ok hypos, w') /\
    length hypos = B /\
    forall i prow trow,
      first !! i = Some prow ->
      target (w_sample w) !! i = Some trow ->
      exists hypo,
        hypos !! i = Some [hypo] /\
        tokens hypo
        = Spec.reference (pad self) trow (Spec.start_of (w_sample w) i) /\
        positional_scores hypo
        = Spec.window (pad self) trow (Spec.start_of (w_sample w) i)
                      (Spec.positional f prow trow) /\
        score hypo
        = n_div_int (n_sum (positional_scores hypo))
                    (Z.of_nat (length (tokens hypo))).
Proof.
  intros Hinit Hinp Hfwd Hrow Hws HV Hasm Hatt.
  set (P := Tensor.map2 f first).
  set (G := Spec.target_probs P (target (w_sample w))).
  pose proof (target_probs_shape B T V first f _ Hws) as [HGlen _].
  pose proof (floor_zeros_shape B T V first f _ Hws) as [HFlen HFrows].
  destruct (hypotheses_assembled self (w_sample w) G (attn_of rest)
              (Tensor.map2 (fun row => take 100 (n_argsort row))
                           (floor_zeros P))
              first rest B)
    as (hypos & Hrun & Hlen & Hfields); try done.
  { unfold Tensor.map2. by rewrite length_fmap. }
  { apply Hws. }
  destruct (single_model_topk _ _ _ _ _ _ _ _ _ _ _ _ B T V
              Hinit Hinp Hfwd Hrow Hws) as [w' Hgen].
  exists hypos, w'. split; last split.
  - rewrite Hgen. fold P G.
    rewrite (topk_rows V)
      by (done || apply (floor_zeros_vocab B T V first f _ Hws)).
    unfold bind at 1. unfold lift at 1. unfold lift. by rewrite Hrun.
  - done.
  - intros i prow trow Hprow Htrow.
    assert (G !! i = Some (Spec.positional f prow trow)) as HG.
    { unfold G, Spec.target_probs, P, Tensor.map2.
      rewrite lookup_zip_with, list_lookup_fmap, Hprow, Htrow. done. }
    destruct (lookup_lt_is_Some_2
                (Tensor.map2 (fun row : list R => take 100 (n_argsort row))
                             (floor_zeros P)) i) as [trk Htrk].
    { unfold Tensor.map2. rewrite length_fmap. fold P in HFlen.
      rewrite HFlen. apply lookup_lt_Some in Hprow.
      destruct Hws as [_ _ [Hb _] _ _ _ _]. lia. }
    destruct (Hfields i trow _ trk Htrow HG Htrk)
      as (hypo & Hh & Htok & Hpos & Hscore & _).
    by exists hypo.
Qed.

(** C7, as the code has it.  One model, no retrieval, on a well-shaped
    batch.  Over fewer than 100 symbols [generate] raises, and there is
    no score.  Over 100 symbols or more it returns one hypothesis per
    sequence: its tokens are the reference (the target from the start
    offset on, padding stripped); its positional scores are the
    log-probabilities the model gives the target at the positions from
    the start offset on, as many as the reference has tokens; its score
    is these positional scores added up from the first on, divided by
    the length of the reference.  When no padding lies at these
    positions, the positional scores are those of the tokens of the
    reference. *)
Theorem single_model_score
    tgt_pad tgt_eos sb ca (a : Args R) (self : SequenceScorer R)
    (model : Model R) (w : world) (inp : NetInput)
    (first : list (list (list R))) (rest : extra R)
    (f : list R -> list R) (B T V : nat) :
  init tgt_pad tgt_eos sb ca a = Ok self ->
  net_input (w_sample w) = Some inp ->
  forward model inp = Ok (first, rest) ->
  (forall bd s,
     get_normalized_probs model bd true s = Ok (Tensor.map2 f bd.1)) ->
  Spec.well_shaped B T V first f (target (w_sample w)) ->
  Spec.assembles self (w_sample w) rest B ->
  (forall att, attn_of rest = Some att -> (B <= length att)%nat) ->
  ((V < 100)%nat ->
   (generate uninit extract_hard_alignment self [model] None w).1
   = Raise RuntimeError) /\
  ((100 <= V)%nat ->
   exists hypos w',
     generate uninit extract_hard_alignment self [model] None w
     = (Ok hypos, w') /\
     length hypos = B /\
     forall i prow trow,
       first !! i = Some prow ->
       target (w_sample w) !! i = Some trow ->
       let start := Spec.start_of (w_sample w) i in
       exists hypo,
         hypos !! i = Some [hypo] /\
         tokens hypo = Spec.reference (pad self) trow start /\
         positional_scores hypo
         = Spec.window (pad self) trow start (Spec.positional f prow trow) /\
         score hypo
         = n_div (fold_left n_add (positional_scores hypo) (n_of_int 0))
                 (n_of_int (Z.of_nat (length (tokens hypo)))) /\
         (Spec.window (pad self) trow start trow = tokens hypo ->
          positional_scores hypo
          = zip_with Spec.entry
                     (Spec.window (pad self) trow start (f <$> prow))
                     (tokens hypo))).
Proof.
  intros Hinit Hinp Hfwd Hrow Hws Hasm Hatt. split.
  - intros HV.
    by apply (single_model_refused tgt_pad tgt_eos sb ca a self model w inp
                first rest f B T V).
  - intros HV.
    destruct (single_model_hypos tgt_pad tgt_eos sb ca a self model w inp
                first rest f B T V Hinit Hinp Hfwd Hrow Hws HV Hasm Hatt)
      as (hypos & w' & Hgen & Hlen & Hfields).
    exists hypos, w'. split; first exact Hgen. split; first exact Hlen.
    intros i prow trow Hprow Htrow start.
    destruct (Hfields i prow trow Hprow Htrow)
      as (hypo & Hh & Htok & Hpos & Hscore).
    exists hypo. split; first exact Hh. split; first exact Htok.
    split; first exact Hpos. split; first exact Hscore.
    intros Hwin. rewrite Hpos. unfold Spec.window, Spec.positional.
    fold start. rewrite slice_zip_with.
    + unfold Spec.window in Hwin. fold start in Hwin. by rewrite Hwin.
    + destruct Hws as [_ _ [_ Hfs] _ [_ Hts] _ _].
      rewrite Forall_forall in Hfs. rewrite Forall_forall in Hts.
      rewrite length_fmap, (Hfs prow), (Hts trow); first done;
        by eapply list_elem_of_lookup_2.
Qed.

End SingleModelFacts.

(** ** An ensemble of several models, no retrieval *)

Section EnsembleFacts.
Context {R : Type} `{Numeric R}.
Variable uninit : R.
Variable extract_hard_alignment :
  list (list R) -> list Z -> list Z -> Z -> Z -> list Z.
Import Scorer.

Lemma for_each_app {S X A} (body : A -> X -> prog S A) xs ys a w :
  for_each body (xs ++ ys) a w
  = bind (for_each body xs a) (for_each body ys) w.
Proof.
  revert a w. induction xs as [|x xs IH]; intros a w; simpl; first done.
  unfold bind. destruct (body a x w) as [[a'|e] w']; last done.
  rewrite IH. done.
Qed.

Lemma zip_r_shape {X Y C S} (sx : X -> S) (sy : Y -> S) (sc : C -> S)
      (g : X -> Y -> result C) :
  (forall x y, sx x = sy y -> exists c, g x y = Ok c /\ sc c = sx x) ->
  forall la lb, sx <$> la = sy <$> lb ->
  exists lc, zip_r g la lb = Ok lc /\ sc <$> lc = sx <$> la.
Proof.
  intros Hg. induction la as [|x la IH]; intros [|y lb] Hs;
    simplify_eq/=; first by exists [].
  destruct (Hg x y ltac:(done)) as (c & Hc & Hsc).
  destruct (IH lb ltac:(done)) as (lc & Hlc & Hslc).
  exists (c :: lc). rewrite Hc, Hlc. split; first done.
  rewrite !fmap_cons. by rewrite Hsc, Hslc.
Qed.

Lemma add_rows_length (r1 r2 : list R) :
  length r1 = length r2 ->
  exists c, zip_r (fun x y => Ok (n_add x y)) r1 r2 = Ok c /\
            length c = length r1.
Proof.
  revert r2. induction r1 as [|p r1 IH]; intros [|q r2] Hlen;
    simplify_eq/=; first by exists [].
  destruct (IH r2 ltac:(done)) as (c & Hc & Hl).
  exists (n_add p q :: c). rewrite Hc. simpl. by rewrite Hl.
Qed.

Lemma add3_shape (a b : tensor3 R) :
  Spec.shape3 a = Spec.shape3 b ->
  exists c, add3 a b = Ok c /\ Spec.shape3 c = Spec.shape3 a.
Proof.
  unfold Spec.shape3, Tensor.map2, add3, add2.
  apply (zip_r_shape (fmap length) (fmap length) (fmap length)).
  intros x y. apply (zip_r_shape length length length).
  apply add_rows_length.
Qed.

Lemma shape3_length {A} (a : list (list (list A))) s :
  Spec.shape3 a = s -> length a = length s.
Proof. intros <-. unfold Spec.shape3, Tensor.map2. by rewrite length_fmap. Qed.

Section Loop.
Variables (B T : nat) (orig : list (list Z)) (ashape : list (list nat)).
Variables (self : SequenceScorer R) (n : nat) (inp : NetInput).
Hypothesis HM : 0 < softmax_batch self.
Hypothesis Hn : (n =? 1)%nat = false.

(** What the loop over models keeps true of its accumulator. *)
Local Abbreviation acc_ok acc :=
  (forall avg att (full : tensor3 R) (dec : decoder_out R),
     acc = Some (avg, att, full, dec) ->
     Spec.has_shape avg B T /\
     (forall a, att = Some a -> Spec.shape3 a = ashape)).

Lemma model_step k (model : Model R) first rest f v (acc : ens_acc R) w :
  forward model inp = Ok (first, rest) ->
  (forall bd s,
     get_normalized_probs model bd false s = Ok (Tensor.map2 f bd.1)) ->
  Spec.well_shaped B T v first f orig ->
  (forall a, attn_of rest = Some a -> Spec.shape3 a = ashape) ->
  acc_ok acc ->
  target (w_sample w) = orig ->
  exists avg att w',
    model_body uninit self n None inp orig acc (k, model) w
    = (Ok (Some (avg, att, floor_zeros (Tensor.map2 f first),
                 (first, rest))), w') /\
    Spec.has_shape avg B T /\
    (forall a, att = Some a -> Spec.shape3 a = ashape) /\
    w_sample w' = w_sample w.
Proof using HM Hn.
  intros Hfwd Hrow Hws Hattn Hacc Htgt.
  rewrite <- Hn in Hrow.
  rewrite (model_body_scored uninit B T v first f orig Hws self model k n
             rest HM Hrow None inp acc w Hfwd Htgt).
  pose proof (target_probs_shape B T v first f orig Hws) as HG.
  unfold bind at 1. unfold ret at 1. cbn [fst snd].
  destruct acc as [[[[avg0 att0] full0] dec0]|].
  - destruct (Hacc avg0 att0 full0 dec0 eq_refl) as [Havg0 Hatt0].
    destruct (add2_same_shape avg0 _ B T Havg0 HG) as (avg & Hadd & Havg).
    unfold bind at 1. unfold lift at 1. rewrite Hadd.
    unfold bind at 1. unfold lift at 1.
    destruct (attn_of rest) as [a|] eqn:Ha.
    + destruct att0 as [a0|].
      * destruct (add3_shape a0 a) as (c & Hc & Hsc).
        { rewrite (Hatt0 a0 eq_refl). symmetry. by apply Hattn. }
        rewrite Hc. cbn. eexists _, _, _. split; first reflexivity.
        split; first done. split; last done.
        intros a' [= <-]. rewrite Hsc. by apply Hatt0.
      * cbn. eexists _, _, _. split; first reflexivity.
        split; first done. split; last done.
        intros a' [= <-]. by apply Hattn.
    + cbn. eexists _, _, _. split; first reflexivity.
      split; first done. split; last done. done.
  - unfold bind at 1. unfold lift at 1.
    unfold bind at 1. unfold lift at 1.
    destruct (attn_of rest) as [a|] eqn:Ha.
    + cbn. eexists _, _, _. split; first reflexivity.
      split; first done. split; last done.
      intros a' [= <-]. by apply Hattn.
    + cbn. eexists _, _, _. split; first reflexivity.
      split; first done. split; last done. done.
Qed.

Lemma ensemble_loop (ms : list (Model R)) :
  forall j (acc : ens_acc R) w,
    Forall (Spec.scores inp orig B T ashape) ms ->
    acc_ok acc ->
    target (w_sample w) = orig ->
    exists acc' w',
      for_each (model_body uninit self n None inp orig)
               (imap (fun k m => ((j + k)%nat, m)) ms) acc w
      = (Ok acc', w') /\
      acc_ok acc' /\
      w_sample w' = w_sample w.
Proof using HM Hn.
  induction ms as [|m ms IH]; intros j acc w Hms Hacc Htgt.
  - exists acc, w. by split.
  - apply Forall_cons in Hms as [Hm Hms'].
    destruct Hm as (first & rest & f & v & Hfwd & Hrow & Hws & Hattn).
    destruct (model_step (j + 0) m first rest f v acc w
                Hfwd Hrow Hws Hattn Hacc Htgt)
      as (avg & att & w1 & Hstep & Havg & Hatt & Hw1).
    rewrite imap_cons. cbn [for_each]. unfold bind at 1. rewrite Hstep.
    destruct (IH (S j) (Some (avg, att, floor_zeros (Tensor.map2 f first),
                              (first, rest))) w1 Hms')
      as (acc' & w' & Hloop & Hacc' & Hw').
    { intros avg' att' full' dec' [= <- <- <- <-]. by split. }
    { by rewrite Hw1. }
    exists acc', w'. split; last (split; [done | by rewrite Hw', Hw1]).
    rewrite <- Hloop. f_equal. apply imap_ext.
    intros k x _. simpl. f_equal. lia.
Qed.

End Loop.

(** C10. An ensemble of two models or more, without retrieval, whose
    members all score the batch: [generate] returns one hypothesis per
    sequence, and its [predicted_topk] is, for the positions of the
    reference, the 100 best tokens of the floored distribution of the
    last model alone. *)
Theorem ensemble_topk_last_model
    tgt_pad tgt_eos sb ca (a : Args R) (self : SequenceScorer R)
    (models : list (Model R)) (model : Model R) (w : world) (inp : NetInput)
    (first : list (list (list R))) (rest : extra R)
    (f : list R -> list R) (B T V : nat) (ashape : list (list nat)) :
  init tgt_pad tgt_eos sb ca a = Ok self ->
  net_input (w_sample w) = Some inp ->
  models <> [] ->
  Forall (Spec.scores inp (target (w_sample w)) B T ashape) models ->
  forward model inp = Ok (first, rest) ->
  (forall bd s,
     get_normalized_probs model bd false s = Ok (Tensor.map2 f bd.1)) ->
  Spec.well_shaped B T V first f (target (w_sample w)) ->
  (forall att, attn_of rest = Some att -> Spec.shape3 att = ashape) ->
  (100 <= V)%nat ->
  Spec.assembles self (w_sample w) rest B ->
  (B <= length ashape)%nat ->
  exists hypos w',
    generate uninit extract_hard_alignment self (models ++ [model]) None w
    = (Ok hypos, w') /\
    length hypos = B /\
    forall i prow trow,
      first !! i = Some prow ->
      target (w_sample w) !! i = Some trow ->
      exists hypo,
        hypos !! i = Some [hypo] /\
        predicted_topk hypo
        = Spec.window (pad self) trow (Spec.start_of (w_sample w) i)
                      ((fun row => Spec.top100 (f row)) <$> prow).
Proof.
  intros Hinit Hinp Hne Hms Hfwd Hrow Hws Hattn HV Hasm Hlen.
  pose proof (init_softmax_batch_pos _ _ _ _ _ _ Hinit) as HM.
  set (n := length (models ++ [model])).
  assert ((n =? 1)%nat = false) as Hn.
  { apply Nat.eqb_neq. unfold n. rewrite length_app. simpl.
    destruct models; [done | simpl; lia]. }
  destruct (ensemble_loop B T (target (w_sample w)) ashape self n inp HM Hn
              models 0 None w Hms ltac:(done) eq_refl)
    as (acc1 & w1 & Hloop & Hacc1 & Hw1).
  destruct (model_step B T (target (w_sample w)) ashape self n inp HM Hn
              (length models + 0) model first rest f V acc1 w1
              Hfwd Hrow Hws Hattn Hacc1 ltac:(by rewrite Hw1))
    as (avg & att & w2 & Hstep & Havg & Hatt & Hw2).
  set (P := Tensor.map2 f first) in *.
  pose proof (floor_zeros_shape B T V first f _ Hws) as [HFlen _].
  fold P in HFlen.
  set (topk := Tensor.map2 (fun row : list R => take 100 (n_argsort row))
                           (floor_zeros P)).
  assert (length topk = B) as Htopk
    by (unfold topk, Tensor.map2; by rewrite length_fmap).
  destruct (hypotheses_assembled extract_hard_alignment self (w_sample w)
              (average n avg att).1 (average n avg att).2 topk first rest B)
    as (hypos & Hrun & Hhl & Hfields); try done.
  { unfold average. destruct (1 <? n)%nat; cbn [fst].
    - unfold Tensor.map2. rewrite length_fmap. apply Havg.
    - apply Havg. }
  { apply Hws. }
  { intros a' Ha'. unfold average in Ha'.
    destruct (1 <? n)%nat; cbn [snd] in Ha'.
    - destruct att as [a0|]; simplify_eq/=.
      unfold Tensor.map3, Tensor.map2. rewrite length_fmap.
      rewrite (shape3_length a0 ashape) by by apply Hatt. done.
    - rewrite (shape3_length a' ashape) by by apply Hatt. done. }
  exists hypos, w2. split; last split; last first.
  - intros i prow trow Hprow Htrow.
    assert (i < B)%nat as Hi.
    { apply lookup_lt_Some in Htrow. destruct Hws as [_ _ _ _ [Hb _] _ _].
      lia. }
    destruct (lookup_lt_is_Some_2 (average n avg att).1 i) as [row Hrow'].
    { unfold average. destruct (1 <? n)%nat; cbn [fst].
      - unfold Tensor.map2. rewrite length_fmap.
        destruct Havg as [-> _]. done.
      - destruct Havg as [-> _]. done. }
    assert (topk !! i
            = Some ((fun row => Spec.top100 (f row)) <$> prow)) as Htrk.
    { unfold topk, floor_zeros, Tensor.map3, P, Tensor.map2.
      rewrite !list_lookup_fmap, Hprow. simpl.
      rewrite <- !list_fmap_compose. done. }
    destruct (Hfields i trow row _ Htrow Hrow' Htrk)
      as (hypo & Hh & _ & _ & _ & Htop).
    by exists hypo.
  - done.
  - unfold generate.
    unfold bind at 1. unfold get at 1.
    unfold bind at 1. unfold lift at 1. rewrite Hinp. cbn [of_option].
    unfold bind at 1. fold n.
    rewrite imap_app, for_each_app. unfold bind at 1.
    rewrite (imap_ext _ (fun k m => ((0 + k)%nat, m))) by done.
    rewrite Hloop. cbn [imap for_each]. unfold bind at 1.
    rewrite Hstep. unfold ret at 1.
    unfold bind at 1. unfold lift at 1. cbn [of_option].
    destruct (average n avg att) as [avg_probs avg_attn] eqn:Havgd.
    unfold bind at 1. unfold lift at 1.
    rewrite (topk_rows V)
      by (done || apply (floor_zeros_vocab B T V first f _ Hws)).
    unfold bind at 1. unfold get at 1. cbn [w_sample].
    unfold lift. rewrite Hw2, Hw1. fold P topk.
    cbn [fst snd] in Hrun. rewrite Hrun. reflexivity.
Qed.

End EnsembleFacts.

(** ** Configuration conflicts *)

Section ConflictFacts.
Context {R : Type} `{Numeric R}.
Variable uninit : R.
Variable extract_hard_alignment :
  list (list R) -> list Z -> list Z -> Z -> Z -> list Z.
Variable astype : bool -> list R -> list R.
Import Scorer.

(** Retrieval fusion with several models: [generate] raises once the
    first model has been run and normalised over the batch. *)
Lemma generate_knn_ensemble (self : SequenceScorer R) (model : Model R)
      models dstore w inp first rest f (B T V : nat) queries :
  0 < softmax_batch self ->
  net_input (w_sample w) = Some inp ->
  models <> [] ->
  forward model inp = Ok (first, rest) ->
  (forall bd s,
     get_normalized_probs model bd false s = Ok (Tensor.map2 f bd.1)) ->
  Spec.well_shaped B T V first f (target (w_sample w)) ->
  key_states self rest = Ok queries ->
  exists passes,
    (1 <= passes)%nat /\
    generate uninit extract_hard_alignment self (model :: models)
             (Some dstore) w
    = (Raise (ValueError "Only knn *log* probs are supported."),
       {| w_sample := w_sample w;
          w_calls := w_calls w
                     ++ Forward 0 :: replicate passes (Normalize 0) |}).
Proof.
  intros HM Hinp Hne Hfwd Hrow Hws Hkeys.
  set (n := length (model :: models)).
  assert ((n =? 1)%nat = false) as Hn.
  { apply Nat.eqb_neq. unfold n. destruct models; [done | simpl; lia]. }
  rewrite <- Hn in Hrow.
  eexists. split; last first.
  - unfold generate.
    unfold bind at 1. unfold get at 1.
    unfold bind at 1. unfold lift at 1. rewrite Hinp. cbn [of_option].
    unfold bind at 1. fold n. rewrite imap_cons. cbn [for_each].
    unfold bind at 1.
    rewrite (model_body_scored uninit B T V first f _ Hws self model 0 n
               rest HM Hrow (Some dstore) inp None w Hfwd eq_refl).
    unfold bind at 1. unfold fuse_knn.
    unfold bind at 1. unfold lift at 1. rewrite Hkeys.
    rewrite Hn. cbn [negb]. unfold throw. reflexivity.
  - destruct (Z.of_nat (B * T) <? softmax_batch self); first lia.
    destruct Hws as [HB HT _ _ _ _ _].
    assert (1 <= (Z.of_nat (B * T) + softmax_batch self - 1)
                 / softmax_batch self); last lia.
    apply Z.div_le_lower_bound; nia.
Qed.

Import Driver.

(** Batches without ['net_input'] are skipped. *)
Lemma skipped_samples a dict scorer models knn (skipped : list Sample) :
  Forall (fun s => net_input s = None) skipped ->
  forall j r,
    for_each (per_sample uninit extract_hard_alignment astype a dict scorer
                         models knn)
             (imap (fun k s => ((j + k)%nat, s)) skipped) tt r
    = (Ok tt, r).
Proof.
  induction 1 as [|s skipped Hs _ IH]; intros j r; first done.
  rewrite imap_cons. cbn [for_each]. unfold bind at 1.
  unfold per_sample at 1. rewrite Hs. unfold ret at 1.
  rewrite <- (IH (S j) r). f_equal. apply imap_ext.
  intros k x _. simpl. f_equal. lia.
Qed.

(** C4, as the code has it.  Retrieval together with datastore building
    is refused before any provider is called, the run being left as it
    started.  Retrieval with several models is refused by [generate] on
    the first batch that has an input, once the first model has been run
    and normalised over that batch: no retrieval query has been made, no
    hypothesis returned, no score accumulated.  With no such batch the
    conflict is not reported. *)
Theorem configuration_conflicts
    (a : Driver.Args) (dict : Dictionary) (scorer : SequenceScorer R)
    (model : Model R) (models : list (Model R)) (knn : KNN_Dstore R)
    (skipped later : list Sample) (sample : Sample) (inp : NetInput)
    first rest f (B T V : nat) queries :
  knnlm a = true ->
  init (dict_pad dict) (dict_eos dict) (Driver.softmax_batch a) false
       (scorer_args a) = Ok scorer ->
  remove_bpe a <> Some None ->
  models <> [] ->
  Forall (fun s => net_input s = None) skipped ->
  net_input sample = Some inp ->
  forward model inp = Ok (first, rest) ->
  (forall bd s,
     get_normalized_probs model bd false s = Ok (Tensor.map2 f bd.1)) ->
  Spec.well_shaped B T V first f (target sample) ->
  key_states scorer rest = Ok queries ->
  (save_knnlm_dstore (scorer_args a) = true ->
   forall ensemble samples,
     ensemble <> [] ->
     main uninit extract_hard_alignment astype a dict ensemble knn samples
          initial
     = (Raise (ValueError
                 "Cannot use knnlm while trying to build the datastore!"),
        initial) /\
     Spec.before_processing
       (main uninit extract_hard_alignment astype a dict ensemble knn
             samples initial)) /\
  (save_knnlm_dstore (scorer_args a) = false ->
   (exists passes,
      (1 <= passes)%nat /\
      main uninit extract_hard_alignment astype a dict (model :: models)
           knn (skipped ++ sample :: later) initial
      = (Raise (ValueError "Only knn *log* probs are supported."),
         {| events :=
              LoadKnn :: Call (length skipped) (Forward 0)
              :: replicate passes (Call (length skipped) (Normalize 0));
            store := None; score_sum := None; count := 0;
            prediction_save := [] |})) /\
   main uninit extract_hard_alignment astype a dict (model :: models) knn
        skipped initial
   = (Raise ZeroDivisionError,
      {| events := [LoadKnn]; store := None; score_sum := None;
         count := 0; prediction_save := [] |})).
Proof.
  intros Hknn Hinit Hbpe Hne Hskip Hinp Hfwd Hrow Hws Hkeys.
  assert (Hhead : forall ensemble samples,
    ensemble <> [] ->
    main uninit extract_hard_alignment astype a dict ensemble knn
         samples initial
    = ((if knnlm a && save_knnlm_dstore (scorer_args a) then
          throw (ValueError
                   "Cannot use knnlm while trying to build the datastore!")
        else ret tt) ;;;
       (if knnlm a then log_events [LoadKnn] else ret tt) ;;;
       (if save_knnlm_dstore (scorer_args a) then
          log_events [OpenMemmaps] ;;;
          modify (set_store
                    (Writer.open
                       (replicate (Z.to_nat (decoder_embed_dim a)) n_zero)
                       (dstore_size a)))
        else ret tt) ;;;
       for_each (per_sample uninit extract_hard_alignment astype a dict
                            scorer ensemble
                            (if knnlm a then Some knn else None))
                (imap (fun ex_i s => (ex_i, s)) samples) tt ;;;
       (if save_knnlm_dstore (scorer_args a) then
          r <- get ;;
          if shape_bound (store r) then ret tt else throw UnboundLocalError
        else ret tt) ;;;
       r <- get ;;
       lift (finalize (score_sum r) (count r)))%prog initial).
  { intros ensemble samples Hens. unfold main.
    unfold bind at 1.
    rewrite decide_True by (destruct ensemble; [done | simpl; lia]).
    unfold ret at 1.
    unfold bind at 1. unfold lift at 1. rewrite Hinit.
    unfold bind at 1.
    destruct (remove_bpe a) as [[toks|]|]; done. }
  split.
  - intros Hsave ensemble samples Hens.
    rewrite (Hhead ensemble samples Hens), Hknn, Hsave. cbn [andb].
    split; first done.
    split; first by eexists.
    intros ex_i c Hin. cbn in Hin. by apply elem_of_nil in Hin.
  - intros Hsave. split.
    + destruct (generate_knn_ensemble scorer model models knn
                  {| w_sample := sample; w_calls := [] |} inp first rest f
                  B T V queries
                  (init_softmax_batch_pos _ _ _ _ _ _ Hinit)
                  Hinp Hne Hfwd Hrow Hws Hkeys)
        as (passes & Hpasses & Hgen).
      exists passes. split; first done.
      rewrite Hhead by done. rewrite Hknn, Hsave. cbn [andb].
      unfold bind at 1. unfold ret at 1.
      unfold bind at 1. unfold log_events at 1, modify at 1.
      unfold bind at 1. unfold ret at 1.
      unfold bind at 1.
      rewrite imap_app, for_each_app. unfold bind at 1.
      rewrite (imap_ext _ (fun k s => ((0 + k)%nat, s))) by done.
      rewrite (skipped_samples a dict scorer (model :: models) (Some knn)
                 skipped Hskip).
      cbn [imap for_each]. unfold bind at 1.
      unfold per_sample at 1. rewrite Hinp, Hgen.
      unfold bind at 1. unfold log_events at 1, modify at 1.
      unfold bind at 1. unfold lift at 1.
      cbn. rewrite Nat.add_0_r, fmap_replicate. done.
    + rewrite Hhead by done. rewrite Hknn, Hsave. cbn [andb].
      unfold bind at 1. unfold ret at 1.
      unfold bind at 1. unfold log_events at 1, modify at 1.
      unfold bind at 1. unfold ret at 1.
      unfold bind at 1.
      rewrite (imap_ext _ (fun k s => ((0 + k)%nat, s))) by done.
      rewrite (skipped_samples a dict scorer (model :: models) (Some knn)
                 skipped Hskip).
      done.
Qed.

End ConflictFacts.

(** ** The theorems on concrete runs *)

Section ToyFacts.
Import Scorer Examples.

Lemma toy_scorer_init : init 1 2 (Some 4) false args0 = Ok toy_scorer.
Proof. reflexivity. Qed.

Lemma toy_well_shaped (k : Z) :
  Spec.well_shaped 2 3 100 (logits 100 k) (fun row => row) toy_target.
Proof.
  split; try lia.
  - split; [reflexivity | repeat constructor].
  - repeat (constructor; try (vm_compute; lia)).
  - split; [reflexivity | repeat constructor].
  - repeat (constructor; try (vm_compute; lia)).
  - repeat (constructor; try lia).
Qed.

Lemma toy_assembles : Spec.assembles toy_scorer toy_sample toy_extra 2.
Proof. split; [intros l [=] | intros [=] | intros [=]]. Qed.

Lemma small_well_shaped :
  Spec.well_shaped 2 3 4 (logits 4 0) (fun row => row) Cases.small_target.
Proof.
  split; try lia.
  - split; [reflexivity | repeat constructor].
  - repeat (constructor; try (vm_compute; lia)).
  - split; [reflexivity | repeat constructor].
  - repeat (constructor; try (vm_compute; lia)).
  - repeat (constructor; try lia).
Qed.

Lemma padded_well_shaped :
  Spec.well_shaped 2 3 100 (logits 100 0) (fun row => row)
                   Cases.padded_target.
Proof.
  split; try lia.
  - split; [reflexivity | repeat constructor].
  - repeat (constructor; try (vm_compute; lia)).
  - split; [reflexivity | repeat constructor].
  - repeat (constructor; try (vm_compute; lia)).
  - repeat (constructor; try lia).
Qed.

Lemma cases_assemble (w : world) :
  start_indices (w_sample w) = None ->
  Spec.assembles toy_scorer (w_sample w) toy_extra 2.
Proof. intros Hs. split; [intros l; by rewrite Hs | intros [=] | intros [=]]. Qed.

End ToyFacts.

(** One model over 100 symbols on the toy batch, ceiling 4. *)
Lemma single_model_score_witness :
  exists hypos w',
    Scorer.generate 0%R Examples.no_alignment Examples.toy_scorer
      [Examples.toy_model 100 0] None Examples.toy_world = (Ok hypos, w') /\
    length hypos = 2%nat.
Proof.
  destruct (single_model_score 0%R Examples.no_alignment
              1 2 (Some 4) false Examples.args0 Examples.toy_scorer
              (Examples.toy_model 100 0) Examples.toy_world
              {| Scorer.src_tokens := Examples.toy_target;
                 Scorer.src_lengths := [3; 3] |}
              (Examples.logits 100 0) Examples.toy_extra (fun row => row)
              2 3 100)
    as [_ Hlarge].
  - reflexivity.
  - reflexivity.
  - reflexivity.
  - reflexivity.
  - apply toy_well_shaped.
  - apply toy_assembles.
  - intros att [=].
  - destruct (Hlarge ltac:(lia)) as (hypos & w' & Hrun & Hlen & _).
    exists hypos, w'. split; [exact Hrun | exact Hlen].
Defined.

(** One model on a batch of two sequences of three tokens.  Over four
    symbols no score is produced: [generate] raises.  Over 100 symbols,
    with the padding symbol 1 between the tokens 5 and 6 of the first
    sequence, the reference is [5; 6] and the two positional scores
    are those of the positions 0 and 1, the second being the score of
    the padding; the score 8 of the token 6, at position 2, is not
    counted, and the score of the hypothesis is not the mean of the
    scores of the tokens of its reference. *)
Lemma single_model_score_exceptions :
  (Scorer.generate 0%R Examples.no_alignment Examples.toy_scorer
     [Examples.toy_model 4 0] None Cases.small_world).1
  = Raise RuntimeError /\
  exists hypos w' hypo,
    Scorer.generate 0%R Examples.no_alignment Examples.toy_scorer
      [Examples.toy_model 100 0] None Cases.padded_world = (Ok hypos, w') /\
    hypos !! 0%nat = Some [hypo] /\
    Scorer.tokens hypo = [5; 6] /\
    Scorer.positional_scores hypo = [5%R; 2%R] /\
    Dist.entry (Examples.logits 100 0) 0 0 5 = Some 5%R /\
    Dist.entry (Examples.logits 100 0) 0 2 6 = Some 8%R /\
    Scorer.score hypo = ((0 + 5 + 2) / 2)%R /\
    Scorer.score hypo <> ((5 + 8) / 2)%R.
Proof.
  split.
  - apply (single_model_refused 0%R Examples.no_alignment
             1 2 (Some 4) false Examples.args0 Examples.toy_scorer
             (Examples.toy_model 4 0) Cases.small_world
             {| Scorer.src_tokens := Cases.small_target;
                Scorer.src_lengths := [3; 3] |}
             (Examples.logits 4 0) Examples.toy_extra (fun row => row)
             2 3 4).
    + reflexivity.
    + reflexivity.
    + reflexivity.
    + reflexivity.
    + apply small_well_shaped.
    + lia.
  - destruct (single_model_hypos 0%R Examples.no_alignment
                1 2 (Some 4) false Examples.args0 Examples.toy_scorer
                (Examples.toy_model 100 0) Cases.padded_world
                {| Scorer.src_tokens := Cases.padded_target;
                   Scorer.src_lengths := [3; 3] |}
                (Examples.logits 100 0) Examples.toy_extra (fun row => row)
                2 3 100)
      as (hypos & w' & Hrun & _ & Hfields).
    + reflexivity.
    + reflexivity.
    + reflexivity.
    + reflexivity.
    + apply padded_well_shaped.
    + lia.
    + by apply cases_assemble.
    + intros att [=].
    + destruct (Hfields 0%nat _ [5; 1; 6] eq_refl eq_refl)
        as (hypo & Hh & Htok & Hpos & Hscore).
      assert (Scorer.positional_scores hypo = [5%R; 2%R]) as Hps.
      { rewrite Hpos. reflexivity. }
      assert (Scorer.tokens hypo = [5; 6]) as Hts.
      { rewrite Htok. reflexivity. }
      exists hypos, w', hypo. split; first exact Hrun.
      split; first exact Hh. split; first exact Hts.
      split; first exact Hps.
      split; first reflexivity. split; first reflexivity.
      assert (Scorer.score hypo = ((0 + 5 + 2) / 2)%R) as Hsc.
      { rewrite Hscore, Hps, Hts. reflexivity. }
      split; first exact Hsc. rewrite Hsc. lra.
Defined.

(** Two models over 100 symbols on the toy batch, ceiling 4. *)
Lemma ensemble_topk_last_model_witness :
  exists hypos w',
    Scorer.generate 0%R Examples.no_alignment Examples.toy_scorer
      ([Examples.toy_model 100 0] ++ [Examples.toy_model 100 7]) None
      Examples.toy_world = (Ok hypos, w') /\
    length hypos = 2%nat.
Proof.
  destruct (ensemble_topk_last_model 0%R Examples.no_alignment
              1 2 (Some 4) false Examples.args0 Examples.toy_scorer
              [Examples.toy_model 100 0] (Examples.toy_model 100 7)
              Examples.toy_world
              {| Scorer.src_tokens := Examples.toy_target;
                 Scorer.src_lengths := [3; 3] |}
              (Examples.logits 100 7) Examples.toy_extra (fun row => row)
              2 3 100 [[]; []])
    as (hypos & w' & Hrun & Hlen & _).
  - reflexivity.
  - reflexivity.
  - discriminate.
  - constructor; last constructor.
    exists (Examples.logits 100 0), Examples.toy_extra, (fun row => row), 100%nat.
    split; first reflexivity. split; first reflexivity.
    split; first apply toy_well_shaped. intros att [=].
  - reflexivity.
  - reflexivity.
  - apply toy_well_shaped.
  - intros att [=].
  - lia.
  - apply toy_assembles.
  - simpl. lia.
  - exists hypos, w'. split; [exact Hrun | exact Hlen].
Defined.

(** Retrieval fusion with two models on the toy batch. *)
Lemma configuration_conflicts_witness :
  exists passes,
    (1 <= passes)%nat /\
    Examples.knn_ensemble_run
    = (Raise (ValueError "Only knn *log* probs are supported."),
       {| Driver.events :=
            Driver.LoadKnn :: Driver.Call 0 (Scorer.Forward 0)
            :: replicate passes (Driver.Call 0 (Scorer.Normalize 0));
          Driver.store := None; Driver.score_sum := None;
          Driver.count := 0; Driver.prediction_save := [] |}).
Proof.
  refine (proj1 (proj2 (configuration_conflicts 0%R Examples.no_alignment
                          Examples.keep Examples.knn_args Examples.toy_dict
                          Examples.toy_scorer (Examples.toy_model 100 0)
                          [Examples.toy_model 100 7] Examples.toy_knn [] []
                          Examples.toy_sample
                          {| Scorer.src_tokens := Examples.toy_target;
                             Scorer.src_lengths := [3; 3] |}
                          (Examples.logits 100 0) Examples.toy_extra
                          (fun row => row) 2 3 100 Examples.toy_states
                          _ _ _ _ _ _ _ _ _ _) _)).
  - reflexivity.
  - reflexivity.
  - discriminate.
  - discriminate.
  - constructor.
  - reflexivity.
  - reflexivity.
  - reflexivity.
  - apply toy_well_shaped.
  - reflexivity.
  - reflexivity.
Defined.

(** C4, as stated, fails: with retrieval fusion and two models, the error
    comes after the first model's forward pass and normalisation of the
    first batch, and without a batch it does not come at all. *)
Lemma conflict_reported_after_forward_pass :
  ~ Spec.before_processing Examples.knn_ensemble_run /\
  Driver.events Examples.knn_ensemble_run.2
  = [Driver.LoadKnn; Driver.Call 0 (Scorer.Forward 0);
     Driver.Call 0 (Scorer.Normalize 0); Driver.Call 0 (Scorer.Normalize 0)] /\
  Examples.knn_ensemble_idle.1 = Raise ZeroDivisionError.
Proof.
  assert (Driver.events Examples.knn_ensemble_run.2
          = [Driver.LoadKnn; Driver.Call 0 (Scorer.Forward 0);
             Driver.Call 0 (Scorer.Normalize 0);
             Driver.Call 0 (Scorer.Normalize 0)]) as Hev
    by (vm_compute; reflexivity).
  split; last (split; [exact Hev | vm_compute; reflexivity]).
  intros [_ Hno]. apply (Hno 0%nat (Scorer.Forward 0)).
  rewrite Hev. apply list_elem_of_further, list_elem_of_here.
Qed.

(** * Further facts *)

(** ** The datastore writer below capacity *)

Section WriterLayout.
Context {K : Type}.
Variable astype : bool -> K -> K.
Variable zero_row : K.
Import Writer.

(** A write that finds room: nothing is reported, the tokens and as many
    key rows are stored from the cursor on, the range is recorded and the
    cursor moves by the number of tokens. *)
Lemma write_fits dstore_size fp16 sample_id keys tokens
      (d : dstore (K := K)) :
  0 <= dstore_idx d ->
  dstore_idx d + Z.of_nat (length keys) <= dstore_size ->
  (length tokens <= length keys)%nat ->
  Z.of_nat (length (dstore_keys d)) = dstore_size ->
  Z.of_nat (length (dstore_vals d)) = dstore_size ->
  let s := Z.to_nat (dstore_idx d) in
  let n := length tokens in
  write astype dstore_size fp16 sample_id keys tokens d
  = (Ok tt,
     {| dstore_idx := dstore_idx d + Z.of_nat n;
        dstore_keys := take s (dstore_keys d)
                       ++ (astype fp16 <$> take n keys)
                       ++ drop (s + n) (dstore_keys d);
        dstore_vals := take s (dstore_vals d) ++ tokens
                       ++ drop (s + n) (dstore_vals d);
        dstore_token_sample_map :=
          <[sample_id := (dstore_idx d, Z.of_nat n + dstore_idx d)]>
            (dstore_token_sample_map d);
        stdout := stdout d |}).
Proof.
  intros Hidx Hroom Hlen Hks Hvs s n.
  assert (dstore_idx d = Z.of_nat s) as Hs by (unfold s; lia).
  unfold write. unfold bind at 1. unfold get at 1.
  destruct (Z.gtb_spec (dstore_idx d + Z.of_nat (length keys)) dstore_size)
    as [Hgt|_]; first lia.
  unfold bind at 1. unfold ret at 1.
  unfold bind at 1. unfold set_map at 1, modify at 1.
  unfold bind at 1. unfold assign_keys at 1.
  cbn [dstore_keys dstore_idx dstore_vals dstore_token_sample_map stdout].
  rewrite upto_take by lia. rewrite Nat2Z.id. fold n.
  assert (length (astype fp16 <$> take n keys) = n) as Hsrc
    by (rewrite length_fmap, length_take; unfold n; lia).
  rewrite Hs at 1 2.
  rewrite <- Hsrc at 1.
  rewrite set_slice_exact by (rewrite Hsrc; unfold n in *; lia).
  unfold bind at 1. unfold assign_vals at 1.
  cbn [dstore_keys dstore_idx dstore_vals dstore_token_sample_map stdout].
  rewrite Hs at 1 2. fold n. unfold n at 1.
  rewrite set_slice_exact by (unfold n in *; lia).
  unfold advance, modify.
  cbn [dstore_keys dstore_idx dstore_vals dstore_token_sample_map stdout].
  rewrite Hsrc. reflexivity.
Qed.

Lemma splice_take {A} (l a : list A) (s n : nat) :
  length a = n -> (s + n <= length l)%nat ->
  take (s + n) (take s l ++ a ++ drop (s + n) l) = take s l ++ a.
Proof.
  intros <- Hfit. rewrite app_assoc.
  rewrite take_app_length'; first done.
  rewrite length_app, length_take. lia.
Qed.

Lemma splice_drop {A} (l a : list A) (s n m : nat) :
  length a = n -> (s + n <= length l)%nat ->
  drop (s + n + m) (take s l ++ a ++ drop (s + n) l) = drop (s + n + m) l.
Proof.
  intros <- Hfit. rewrite app_assoc.
  rewrite drop_app_ge by (rewrite length_app, length_take; lia).
  rewrite drop_drop. f_equal. rewrite length_app, length_take. lia.
Qed.

Lemma key_rows_length fp16 dstore_size (hs : list (Z * list K * list Z)) :
  forall idx, Layout.fits dstore_size idx hs ->
  length (Layout.key_rows astype fp16 hs) = length (Layout.values hs).
Proof.
  unfold Layout.key_rows, Layout.values.
  induction hs as [|[[sample_id keys] tokens] hs IH]; intros idx Hfit;
    first done.
  destruct Hfit as (_ & Hlen & Hfit). rewrite !fmap_cons. simpl.
  rewrite !length_app, length_fmap, length_take, (IH _ Hfit). lia.
Qed.

(** The writes of [hs], all finding room: the state they leave. *)
Lemma write_all_state dstore_size fp16 (hs : list (Z * list K * list Z)) :
  forall d : dstore (K := K),
    0 <= dstore_idx d <= dstore_size ->
    Z.of_nat (length (dstore_keys d)) = dstore_size ->
    Z.of_nat (length (dstore_vals d)) = dstore_size ->
    Layout.fits dstore_size (dstore_idx d) hs ->
    let s := Z.to_nat (dstore_idx d) in
    let n := length (Layout.values hs) in
    exists d',
      write_all astype dstore_size fp16 hs d = (Ok tt, d') /\
      dstore_idx d' = dstore_idx d + Z.of_nat n /\
      Z.of_nat (s + n) <= dstore_size /\
      dstore_keys d' = take s (dstore_keys d)
                       ++ Layout.key_rows astype fp16 hs
                       ++ drop (s + n) (dstore_keys d) /\
      dstore_vals d' = take s (dstore_vals d) ++ Layout.values hs
                       ++ drop (s + n) (dstore_vals d) /\
      dstore_token_sample_map d'
      = fold_left (fun m r => <[r.1 := r.2]> m)
                  (Layout.ranges (dstore_idx d) hs)
                  (dstore_token_sample_map d) /\
      stdout d' = stdout d.
Proof.
  induction hs as [|[[sample_id keys] tokens] hs IH];
    intros d Hidx Hks Hvs Hfit s n.
  - exists d. unfold n, Layout.values, Layout.key_rows. simpl.
    rewrite Nat.add_0_r, !take_drop.
    repeat split; try done; lia.
  - destruct Hfit as (Hroom & Hlen & Hfit).
    pose proof (write_fits dstore_size fp16 sample_id keys tokens d
                  (proj1 Hidx) Hroom Hlen Hks Hvs) as Hw.
    cbv zeta in Hw. fold s in Hw.
    set (n0 := length tokens) in *.
    assert (length (astype fp16 <$> take n0 keys) = n0) as Hsrc
      by (rewrite length_fmap, length_take; unfold n0; lia).
    match type of Hw with _ = (_, ?d0) => set (d1 := d0) in * end.
    destruct (IH d1) as (d' & Hrun & Hi & Hb & Hk & Hv & Hm & Ho).
    { simpl. lia. }
    { simpl. rewrite !length_app, length_take, Hsrc, length_drop. lia. }
    { simpl. rewrite !length_app, length_take, length_drop. unfold n0. lia. }
    { exact Hfit. }
    subst d1.
    cbn [dstore_idx dstore_keys dstore_vals dstore_token_sample_map stdout]
      in *.
    assert (n = (n0 + length (Layout.values hs))%nat) as Hn.
    { unfold n, Layout.values. rewrite fmap_cons. simpl.
      by rewrite length_app. }
    replace (Z.to_nat (dstore_idx d + Z.of_nat n0)) with (s + n0)%nat
      in * by (unfold s; lia).
    exists d'. split.
    { unfold write_all in *. cbn [for_each]. unfold bind at 1.
      rewrite Hw. exact Hrun. }
    split; first lia. split; first lia.
    split; last split; last split; last done.
    + rewrite Hk.
      rewrite splice_take, splice_drop by (done || lia).
      rewrite Hn.
      unfold Layout.key_rows. rewrite fmap_cons. simpl.
      rewrite <- !app_assoc. do 3 f_equal. f_equal. lia.
    + rewrite Hv.
      rewrite splice_take, splice_drop by (done || lia).
      rewrite Hn.
      unfold Layout.values. rewrite fmap_cons. simpl.
      rewrite <- !app_assoc. do 3 f_equal. f_equal. lia.
    + rewrite Hm. simpl. done.
Qed.

Lemma values_app (hs1 hs2 : list (Z * list K * list Z)) :
  Layout.values (hs1 ++ hs2) = Layout.values hs1 ++ Layout.values hs2.
Proof. unfold Layout.values. by rewrite fmap_app, concat_app. Qed.

Lemma key_rows_app fp16 (hs1 hs2 : list (Z * list K * list Z)) :
  Layout.key_rows astype fp16 (hs1 ++ hs2)
  = Layout.key_rows astype fp16 hs1 ++ Layout.key_rows astype fp16 hs2.
Proof. unfold Layout.key_rows. by rewrite fmap_app, concat_app. Qed.

Lemma fits_app dstore_size (hs1 hs2 : list (Z * list K * list Z)) :
  forall idx,
    Layout.fits dstore_size idx (hs1 ++ hs2) ->
    Layout.fits dstore_size idx hs1 /\
    Layout.fits dstore_size (idx + Z.of_nat (length (Layout.values hs1))) hs2.
Proof.
  induction hs1 as [|[[sample_id keys] tokens] hs1 IH]; intros idx Hfit.
  - simpl. by rewrite Z.add_0_r.
  - destruct Hfit as (Hroom & Hlen & Hfit).
    destruct (IH _ Hfit) as [H1 H2]. split; first done.
    unfold Layout.values. rewrite fmap_cons. simpl. rewrite length_app.
    replace (idx + Z.of_nat (length tokens + _))
      with (idx + Z.of_nat (length tokens)
            + Z.of_nat (length (Layout.values hs1))); first done.
    unfold Layout.values. lia.
Qed.

Lemma ranges_ids (hs : list (Z * list K * list Z)) :
  forall idx,
    (Layout.ranges idx hs).*1 = (fun h : Z * list K * list Z => h.1.1) <$> hs.
Proof.
  induction hs as [|[[sample_id keys] tokens] hs IH]; intros idx; first done.
  simpl. by rewrite IH.
Qed.

(** An identifier that is not written again keeps its range. *)
Lemma ranges_other (rs : list (Z * (Z * Z))) sample_id :
  sample_id ∉ rs.*1 ->
  forall m : gmap Z (Z * Z),
    fold_left (fun m r => <[r.1 := r.2]> m) rs m !! sample_id
    = m !! sample_id.
Proof.
  induction rs as [|[i r] rs IH]; intros Hnot m; first done.
  rewrite fmap_cons in Hnot. apply not_elem_of_cons in Hnot as [Hne Hnot].
  simpl. rewrite IH by done. by rewrite lookup_insert_ne.
Qed.

Lemma ranges_lookup (hs : list (Z * list K * list Z)) :
  forall idx k sample_id keys tokens (m : gmap Z (Z * Z)),
    NoDup ((fun h : Z * list K * list Z => h.1.1) <$> hs) ->
    hs !! k = Some (sample_id, keys, tokens) ->
    fold_left (fun m r => <[r.1 := r.2]> m) (Layout.ranges idx hs) m
      !! sample_id
    = Some (idx + Z.of_nat (length (Layout.values (take k hs))),
            Z.of_nat (length tokens)
            + (idx + Z.of_nat (length (Layout.values (take k hs))))).
Proof.
  induction hs as [|[[i0 keys0] tokens0] hs IH];
    intros idx k sample_id keys tokens m Hnd Hk; first done.
  rewrite fmap_cons in Hnd. apply NoDup_cons in Hnd as [Hnot Hnd].
  destruct k as [|k]; simpl in Hk.
  - injection Hk as -> -> ->. simpl.
    rewrite ranges_other by (by rewrite ranges_ids).
    rewrite lookup_insert_eq. unfold Layout.values. simpl.
    by rewrite Z.add_0_r.
  - simpl. rewrite (IH _ k sample_id keys tokens) by done.
    unfold Layout.values. rewrite fmap_cons. simpl. rewrite length_app.
    do 2 f_equal; lia.
Qed.

(** X1. A datastore with room for all the hypotheses of a run: after the
    run it holds their tokens end to end from row 0, followed by the rows
    never written, and as many key rows per hypothesis as it has tokens,
    cast to the precision; the cursor is the number of tokens written
    and is within the capacity; nothing has been reported. *)
Theorem write_all_layout dstore_size fp16 (hs : list (Z * list K * list Z)) :
  0 <= dstore_size ->
  Layout.fits dstore_size 0 hs ->
  let n := length (Layout.values hs) in
  exists d',
    write_all astype dstore_size fp16 hs (open zero_row dstore_size)
    = (Ok tt, d') /\
    dstore_idx d' = Z.of_nat n /\
    dstore_idx d' <= dstore_size /\
    dstore_vals d'
    = Layout.values hs ++ replicate (Z.to_nat dstore_size - n) 0 /\
    dstore_keys d'
    = Layout.key_rows astype fp16 hs
      ++ replicate (Z.to_nat dstore_size - n) zero_row /\
    dstore_token_sample_map d'
    = fold_left (fun m r => <[r.1 := r.2]> m) (Layout.ranges 0 hs) ∅ /\
    stdout d' = [].
Proof.
  intros Hsize Hfit n.
  destruct (write_all_state dstore_size fp16 hs (open zero_row dstore_size))
    as (d' & Hrun & Hi & Hb & Hk & Hv & Hm & Ho).
  - simpl. lia.
  - simpl. rewrite length_replicate. lia.
  - simpl. rewrite length_replicate. lia.
  - exact Hfit.
  - simpl in *. fold n in Hi, Hb, Hk, Hv.
    exists d'. split; first exact Hrun.
    split; first lia. split; first lia.
    rewrite Hv, Hk, !drop_replicate. done.
Qed.

(** X2. The same run when no sample identifier occurs twice: the range
    recorded for a sample selects, in the values, its tokens, and in the
    keys, its key rows. *)
Theorem write_all_lookup dstore_size fp16 (hs : list (Z * list K * list Z)) :
  0 <= dstore_size ->
  Layout.fits dstore_size 0 hs ->
  NoDup ((fun h : Z * list K * list Z => h.1.1) <$> hs) ->
  exists d',
    write_all astype dstore_size fp16 hs (open zero_row dstore_size)
    = (Ok tt, d') /\
    forall k sample_id keys tokens,
      hs !! k = Some (sample_id, keys, tokens) ->
      let lo := Z.of_nat (length (Layout.values (take k hs))) in
      let hi := Z.of_nat (length tokens) + lo in
      dstore_token_sample_map d' !! sample_id = Some (lo, hi) /\
      Py.slice (dstore_vals d') lo hi = tokens /\
      Py.slice (dstore_keys d') lo hi
      = astype fp16 <$> take (length tokens) keys.
Proof.
  intros Hsize Hfit Hnd.
  destruct (write_all_state dstore_size fp16 hs (open zero_row dstore_size))
    as (d' & Hrun & Hi & Hb & Hk & Hv & Hm & Ho).
  - simpl. lia.
  - simpl. rewrite length_replicate. lia.
  - simpl. rewrite length_replicate. lia.
  - exact Hfit.
  - simpl in Hk, Hv, Hm.
    exists d'. split; first exact Hrun.
    intros k sample_id keys tokens Hlook lo hi.
    pose proof (take_drop_middle hs k _ Hlook) as Hsplit.
    split; last split.
    + rewrite Hm, (ranges_lookup hs 0 k sample_id keys tokens) by done.
      unfold hi, lo. do 2 f_equal; lia.
    + rewrite Hv. rewrite <- Hsplit at 1.
      rewrite values_app. unfold hi.
      rewrite slice_take_drop by lia.
      unfold lo. rewrite Nat2Z.id.
      replace (Z.to_nat (Z.of_nat (length tokens) + _)
               - length (Layout.values (take k hs)))%nat
        with (length tokens) by lia.
      rewrite <- app_assoc, drop_app_length.
      unfold Layout.values at 1. rewrite fmap_cons. simpl.
      rewrite <- app_assoc. by rewrite take_app_length.
    + rewrite Hk. rewrite <- Hsplit at 1.
      rewrite key_rows_app. unfold hi.
      rewrite slice_take_drop by lia.
      unfold lo. rewrite Nat2Z.id.
      replace (Z.to_nat (Z.of_nat (length tokens) + _)
               - length (Layout.values (take k hs)))%nat
        with (length tokens) by lia.
      rewrite <- Hsplit in Hfit.
      apply fits_app in Hfit as [Hfit1 Hfit2].
      rewrite <- (key_rows_length fp16 dstore_size (take k hs) 0 Hfit1).
      rewrite <- app_assoc, drop_app_length.
      unfold Layout.key_rows at 1. rewrite fmap_cons. simpl.
      rewrite <- app_assoc.
      destruct Hfit2 as (_ & Hlen & _).
      rewrite take_app_length'; first done.
      rewrite length_fmap, length_take. lia.
Qed.

End WriterLayout.

(** Two hypotheses of 5 and 7 tokens in a datastore of 20 rows. *)
Lemma write_all_layout_witness :
  exists d',
    Writer.write_all Examples.keep 20 false Cases.two_hypotheses
      (Writer.open [0%R] 20) = (Ok tt, d') /\
    Writer.dstore_idx d' = 12 /\
    Writer.stdout d' = [].
Proof.
  destruct (write_all_layout Examples.keep [0%R] 20 false
              Cases.two_hypotheses)
    as (d' & Hrun & Hidx & _ & _ & _ & _ & Hout).
  - lia.
  - repeat split; vm_compute; try lia; discriminate.
  - exists d'. split; [exact Hrun | split; [exact Hidx | exact Hout]].
Defined.

(** The same run: the ranges recorded are [(0, 5)] and [(5, 12)]. *)
Lemma write_all_lookup_witness :
  exists d',
    Writer.write_all Examples.keep 20 false Cases.two_hypotheses
      (Writer.open [0%R] 20) = (Ok tt, d') /\
    Writer.dstore_token_sample_map d' !! 7 = Some (0, 5) /\
    Writer.dstore_token_sample_map d' !! 8 = Some (5, 12) /\
    Py.slice (Writer.dstore_vals d') 5 12 = Examples.token_ids 7 200.
Proof.
  destruct (write_all_lookup Examples.keep [0%R] 20 false
              Cases.two_hypotheses)
    as (d' & Hrun & Hall).
  - lia.
  - repeat split; vm_compute; try lia; discriminate.
  - simpl. apply NoDup_cons. split; last apply NoDup_singleton.
    intros Hin%list_elem_of_singleton. discriminate Hin.
  - exists d'. split; first exact Hrun.
    destruct (Hall 0%nat 7 _ _ eq_refl) as (H7 & _ & _).
    destruct (Hall 1%nat 8 _ _ eq_refl) as (H8 & Hv & _).
    split; [exact H7 | split; [exact H8 | exact Hv]].
Defined.

(** ** Sub-word pieces folded forward *)

Section BpeFacts.
Context {R : Type} `{Numeric R}.
Variable bpe_toks : gset Z.

(** One pass of the loop of lines 231-235. *)
Local Abbreviation bpe_step tokens :=
  (fun (acc : result (Z * list R)) (i : nat) =>
     rbind acc (fun '(skipped_toks, ps) =>
     rbind (of_option IndexError (tokens !! i)) (fun tok =>
     if bool_decide (tok ∈ bpe_toks) then
       rbind (of_option IndexError (ps !! i)) (fun x =>
       rbind (of_option IndexError (ps !! S i)) (fun y =>
       Ok (skipped_toks + 1,
           <[i := n_zero]> (<[S i := n_add y x]> ps))))
     else Ok (skipped_toks, ps)))).

(** The continuation tokens among the [k] first tokens. *)
Local Abbreviation pieces k tokens :=
  (filter (fun tok => tok ∈ bpe_toks) (take k tokens)).

(** The loop after [k] passes, all within the scores: the pieces met
    are counted and hold the score zero, the scores beyond position [k]
    are untouched, and whatever the folding of a score into the next one
    preserves still holds. *)
Lemma bpe_loop (P : list R -> Prop) (tokens : list Z) (pos_scores : list R)
      (passes : nat) :
  (forall ps i tok x y,
     (i < passes)%nat -> tokens !! i = Some tok -> tok ∈ bpe_toks ->
     ps !! i = Some x -> ps !! S i = Some y -> P ps ->
     P (<[i := n_zero]> (<[S i := n_add y x]> ps))) ->
  P pos_scores ->
  forall k : nat,
    (k <= passes)%nat ->
    (k <= length tokens)%nat ->
    (k < length pos_scores \/ k = 0)%nat ->
    exists ps',
      fold_left (bpe_step tokens) (seq 0 k) (Ok (0, pos_scores))
      = Ok (Z.of_nat (length (pieces k tokens)), ps') /\
      length ps' = length pos_scores /\
      P ps' /\
      (forall i tok, (i < k)%nat -> tokens !! i = Some tok ->
                     tok ∈ bpe_toks -> ps' !! i = Some n_zero) /\
      drop (S k) ps' = drop (S k) pos_scores.
Proof.
  intros Hstep HP. induction k as [|k IH]; intros Hk' Htok Hps.
  - exists pos_scores. simpl. repeat split; try done. intros i tok Hi. lia.
  - destruct IH as (ps & Hrun & Hlen & HPps & Hzero & Hrest);
      [lia | lia | lia |].
    rewrite seq_S, fold_left_app, Hrun. simpl.
    destruct (lookup_lt_is_Some_2 tokens k ltac:(lia)) as [tok Hk].
    rewrite Hk. simpl.
    rewrite (take_S_r _ _ _ Hk), filter_app, length_app.
    rewrite filter_cons, filter_nil.
    destruct (decide (tok ∈ bpe_toks)) as [Hin|Hout].
    + rewrite bool_decide_true by done.
      destruct (lookup_lt_is_Some_2 ps k ltac:(lia)) as [x Hx].
      destruct (lookup_lt_is_Some_2 ps (S k) ltac:(lia)) as [y Hy].
      rewrite Hx, Hy. simpl.
      eexists. split.
      { do 2 f_equal. simpl. lia. }
      split; first by rewrite !length_insert.
      split; first by apply (Hstep ps k tok x y).
      split.
      * intros i tok' Hi Htok' Hin'.
        destruct (decide (i = k)) as [->|Hne].
        -- apply list_lookup_insert_eq. rewrite length_insert. lia.
        -- rewrite !list_lookup_insert_ne by lia.
           apply (Hzero i tok'); [lia | done | done].
      * rewrite !drop_insert_lt by lia.
        replace (S (S k)) with (S k + 1)%nat by lia.
        by rewrite <- !drop_drop, Hrest.
    + rewrite bool_decide_false by done.
      exists ps. split.
      { do 2 f_equal. simpl. lia. }
      split; first done. split; first done. split.
      * intros i tok' Hi Htok' Hin'.
        destruct (decide (i = k)) as [->|Hne].
        -- rewrite Hk in Htok'. by injection Htok' as ->.
        -- apply (Hzero i tok'); [lia | done | done].
      * replace (S (S k)) with (S k + 1)%nat by lia.
        by rewrite <- !drop_drop, Hrest.
Qed.

(** X3. The loop over the continuation tokens of a hypothesis whose scores
    number as many as its tokens: it returns, having counted the
    continuation tokens among all tokens but the last; each of these
    positions holds the score zero afterwards, the number of scores is
    unchanged, and without such a token the scores are unchanged. *)
Theorem fold_bpe_counts (tokens : list Z) (pos_scores : list R) :
  length pos_scores = length tokens ->
  exists ps',
    Driver.fold_bpe bpe_toks (Z.of_nat (length tokens)) tokens pos_scores
    = Ok (Z.of_nat (length (pieces (length tokens - 1) tokens)), ps') /\
    length ps' = length pos_scores /\
    (forall i tok, (i < length tokens - 1)%nat -> tokens !! i = Some tok ->
                   tok ∈ bpe_toks -> ps' !! i = Some n_zero) /\
    (pieces (length tokens - 1) tokens = [] -> ps' = pos_scores).
Proof.
  intros Hlen.
  destruct (bpe_loop
              (fun ps => pieces (length tokens - 1) tokens = [] ->
                         ps = pos_scores)
              tokens pos_scores (length tokens - 1))
    with (k := (length tokens - 1)%nat)
    as (ps' & Hrun & Hl & HP & Hzero & _).
  - intros ps i tok x y Hi Htok Hin _ _ _ Hnone. exfalso.
    assert (tok ∈ pieces (length tokens - 1) tokens) as Hmem.
    { apply list_elem_of_filter. split; first done.
      apply list_elem_of_lookup. exists i. by rewrite lookup_take_lt. }
    rewrite Hnone in Hmem. by apply elem_of_nil in Hmem.
  - done.
  - lia.
  - lia.
  - lia.
  - exists ps'. unfold Driver.fold_bpe.
    replace (Z.to_nat (Z.of_nat (length tokens) - 1))
      with (length tokens - 1)%nat by lia.
    by rewrite Hrun.
Qed.

(** The passes over the pieces of one word, whose scores are [x :: ys]
    with the score of the final token last. *)
Lemma bpe_pieces (pieces : list Z) :
  forall (ys : list R) (pre_t post_t : list Z) (pre_s post_s : list R)
         (x : R) (c : Z),
    length ys = length pieces ->
    length pre_s = length pre_t ->
    Forall (fun tok => tok ∈ bpe_toks) pieces ->
    fold_left (bpe_step (pre_t ++ pieces ++ post_t))
              (seq (length pre_t) (length pieces))
              (Ok (c, pre_s ++ x :: ys ++ post_s))
    = Ok (c + Z.of_nat (length pieces),
          pre_s ++ replicate (length pieces) n_zero
          ++ [fold_left (fun c y => n_add y c) ys x] ++ post_s).
Proof.
  induction pieces as [|tok pieces IH];
    intros ys pre_t post_t pre_s post_s x c Hys Hpre Hin.
  - destruct ys; last done. simpl. do 2 f_equal. lia.
  - destruct ys as [|y ys]; first done. simpl in Hys.
    apply Forall_cons in Hin as [Htok Hin].
    cbn [length seq fold_left].
    rewrite lookup_app_r, Nat.sub_diag by lia.
    cbn [lookup list_lookup app of_option rbind].
    rewrite bool_decide_true by done.
    rewrite lookup_app_r by lia.
    replace (length pre_t - length pre_s)%nat with 0%nat by lia.
    rewrite lookup_app_r by lia.
    replace (S (length pre_t) - length pre_s)%nat with 1%nat by lia.
    cbn [lookup list_lookup app of_option rbind].
    rewrite insert_app_r_alt by lia.
    replace (S (length pre_t) - length pre_s)%nat with 1%nat by lia.
    rewrite insert_app_r_alt by lia.
    replace (length pre_t - length pre_s)%nat with 0%nat by lia.
    cbn [insert list_insert].
    replace (pre_t ++ tok :: pieces ++ post_t)
      with ((pre_t ++ [tok]) ++ pieces ++ post_t)
      by (by rewrite <- app_assoc).
    replace (pre_s ++ n_zero :: n_add y x :: ys ++ post_s)
      with ((pre_s ++ [n_zero]) ++ n_add y x :: ys ++ post_s)
      by (by rewrite <- app_assoc).
    replace (S (length pre_t)) with (length (pre_t ++ [tok]))
      by (rewrite length_app; simpl; lia).
    rewrite IH; [| lia | rewrite !length_app; simpl; lia | done].
    rewrite <- !app_assoc. simpl. do 2 f_equal. lia.
Qed.

(** The passes over the words of a hypothesis. *)
Lemma bpe_groups (gs : list Words.group) :
  forall (sgs : list (list R)) (pre_t : list Z) (pre_s : list R) (c : Z),
    gs <> [] ->
    Forall2 (fun (g : Words.group) sg => length sg = S (length g.1)) gs sgs ->
    Forall (fun g : Words.group => Forall (fun tok => tok ∈ bpe_toks) g.1)
           gs ->
    Forall (fun g : Words.group => g.2 ∉ bpe_toks)
           (take (length gs - 1) gs) ->
    length pre_s = length pre_t ->
    fold_left (bpe_step (pre_t ++ Words.tokens_of gs))
              (seq (length pre_t) (length (Words.tokens_of gs) - 1))
              (Ok (c, pre_s ++ concat sgs))
    = Ok (c + Z.of_nat (length (concat (fst <$> gs))),
          pre_s ++ concat (Words.folded <$> sgs)).
Proof.
  induction gs as [|[pieces final] gs IH];
    intros sgs pre_t pre_s c Hne Hlen Hpieces Hfinal Hpre; first done.
  apply Forall2_cons_inv_l in Hlen as (sg & sgs' & Hsg & Hlen & ->).
  apply Forall_cons in Hpieces as [Hp Hpieces].
  destruct sg as [|x ys]; first done. simpl in Hsg, Hp.
  injection Hsg as Hys.
  unfold Words.tokens_of. rewrite fmap_cons. cbn [concat fst snd].
  fold (Words.tokens_of gs).
  destruct gs as [|g' gs'].
  - apply Forall2_nil_inv_l in Hlen as ->.
    unfold Words.tokens_of. simpl. rewrite !app_nil_r.
    rewrite length_app. simpl.
    replace (length pieces + 1 - 1)%nat with (length pieces) by lia.
    rewrite <- (app_nil_r ys) at 1.
    rewrite (bpe_pieces pieces ys pre_t [final] pre_s [] x c)
      by done.
    rewrite Hys. done.
  - assert (length (Words.tokens_of (g' :: gs')) <> 0%nat) as Hpos.
    { unfold Words.tokens_of. rewrite fmap_cons. simpl.
      rewrite !length_app. simpl. lia. }
    rewrite !length_app. cbn [length].
    replace (length pieces + 1 + length (Words.tokens_of (g' :: gs')) - 1)%nat
      with (length pieces
            + (1 + (length (Words.tokens_of (g' :: gs')) - 1)))%nat by lia.
    rewrite !seq_app, !fold_left_app.
    rewrite <- (app_assoc pieces).
    change ((x :: ys) ++ concat sgs') with (x :: ys ++ concat sgs').
    rewrite (bpe_pieces pieces ys pre_t ([final] ++ Words.tokens_of (g' :: gs'))
               pre_s (concat sgs') x c) by done.
    cbn [seq fold_left rbind].
    rewrite lookup_app_r by lia.
    rewrite lookup_app_r by lia.
    replace (length pre_t + length pieces - length pre_t - length pieces)%nat
      with 0%nat by lia.
    cbn [app lookup list_lookup of_option rbind].
    simpl in Hfinal. apply Forall_cons in Hfinal as [Hf Hfinal].
    simpl in Hf. rewrite bool_decide_false by done.
    replace (pre_t ++ pieces ++ final :: Words.tokens_of (g' :: gs'))
      with ((pre_t ++ pieces ++ [final]) ++ Words.tokens_of (g' :: gs'))
      by (by rewrite <- !app_assoc).
    replace (pre_s ++ replicate (length pieces) n_zero
             ++ fold_left (fun c0 y => n_add y c0) ys x :: concat sgs')
      with ((pre_s ++ Words.folded (x :: ys)) ++ concat sgs')
      by (unfold Words.folded; simpl; rewrite Hys, <- !app_assoc; done).
    replace (length pre_t + length pieces + 1)%nat
      with (length (pre_t ++ pieces ++ [final]))
      by (rewrite !length_app; simpl; lia).
    rewrite IH; try done.
    + rewrite !fmap_cons. cbn [concat fst]. rewrite !length_app.
      rewrite <- !app_assoc.
      replace (c + Z.of_nat (length pieces)
               + Z.of_nat (length g'.1 + length (concat gs'.*1)))
        with (c + Z.of_nat (length pieces
                            + (length g'.1 + length (concat gs'.*1))))
        by lia.
      done.
    + replace (length (g' :: gs') - 1)%nat with (length gs')
        by (simpl; lia).
      replace (S (length (g' :: gs')) - 1 - 1)%nat with (length gs')
        in Hfinal by (simpl; lia).
      done.
    + unfold Words.folded. rewrite !length_app, length_replicate. simpl.
      lia.
Qed.

(** X4. A hypothesis read as words, each a run of continuation pieces and
    a final token that is not one (the last token is taken as it is):
    the loop counts the pieces, leaves them the score zero, and gives
    the final token of every word the scores of the word added up from
    the first piece on. *)
Theorem fold_bpe_groups (gs : list Words.group) (sgs : list (list R)) :
  Forall2 (fun (g : Words.group) sg => length sg = S (length g.1)) gs sgs ->
  Forall (fun g : Words.group => Forall (fun tok => tok ∈ bpe_toks) g.1)
         gs ->
  Forall (fun g : Words.group => g.2 ∉ bpe_toks) (take (length gs - 1) gs) ->
  Driver.fold_bpe bpe_toks (Z.of_nat (length (Words.tokens_of gs)))
                  (Words.tokens_of gs) (concat sgs)
  = Ok (Z.of_nat (length (concat (fst <$> gs))),
        concat (Words.folded <$> sgs)).
Proof.
  intros Hlen Hpieces Hfinal. unfold Driver.fold_bpe.
  replace (Z.to_nat (Z.of_nat (length (Words.tokens_of gs)) - 1))
    with (length (Words.tokens_of gs) - 1)%nat by lia.
  destruct gs as [|g gs].
  - apply Forall2_nil_inv_l in Hlen as ->. done.
  - pose proof (bpe_groups (g :: gs) sgs [] [] 0 ltac:(done)
                  Hlen Hpieces Hfinal eq_refl) as Hrun.
    simpl in Hrun. simpl. by rewrite Hrun.
Qed.

(** X5. With the sentence-start token counted out, the loop runs one pass
    too many: when the last token of the hypothesis is a continuation
    token, its score has no next score to be folded into, and the
    statistics of the hypothesis are lost on an [IndexError], its
    prediction being already saved. *)
Theorem accumulate_bos_trailing_piece
    (a : Driver.Args (R := R)) (dict : Driver.Dictionary)
    (hypo : Scorer.Hypo R) (r : Driver.run) (rest : list Z) (tok : Z) :
  Driver.add_bos_token a = true ->
  Driver.remove_bpe a = Some (Some bpe_toks) ->
  Scorer.tokens hypo = Driver.dict_bos dict :: rest ->
  last rest = Some tok ->
  tok ∈ bpe_toks ->
  length (Scorer.positional_scores hypo) = length (Scorer.tokens hypo) ->
  Driver.accumulate a dict hypo r
  = (Raise IndexError,
     {| Driver.events := Driver.events r;
        Driver.store := Driver.store r;
        Driver.score_sum := Driver.score_sum r;
        Driver.count := Driver.count r;
        Driver.prediction_save :=
          Driver.prediction_save r
          ++ [(Scorer.predicted_topk hypo, Scorer.tokens hypo)] |}).
Proof.
  intros Hbos Hbpe Htokens Hlast Hin Hlen.
  unfold Driver.accumulate. rewrite Hbos, Hbpe, Htokens.
  rewrite Z.eqb_refl.
  unfold bind at 1. unfold modify at 1.
  unfold bind at 1. unfold lift at 1.
  unfold bind at 1. unfold lift at 1. cbn [fst snd].
  rewrite !from_drop by lia. change (Z.to_nat 1) with 1%nat. cbn [drop].
  rewrite Htokens in Hlen. simpl in Hlen.
  destruct (Scorer.positional_scores hypo) as [|p0 ps]; first done.
  simpl in Hlen. injection Hlen as Hlen. cbn [drop]. rewrite !drop_0.
  destruct (last_is_Some rest) as [_ Hne].
  assert (rest <> []) as Hrest by (intros ->; by destruct Hne; eauto).
  destruct (length rest) as [|k] eqn:Hk;
    first by destruct rest.
  destruct (bpe_loop (fun _ => True) rest ps k) with (k := k)
    as (ps' & Hrun & Hl & _ & _ & _); try done; try lia.
  unfold Driver.fold_bpe.
  replace (Z.to_nat (Z.of_nat (length (Driver.dict_bos dict :: rest)) - 1))
    with (S k) by (simpl; lia).
  rewrite seq_S, fold_left_app, Hrun. simpl.
  assert (rest !! k = Some tok) as ->.
  { rewrite last_lookup, Hk in Hlast. done. }
  simpl. rewrite bool_decide_true by done.
  destruct (lookup_lt_is_Some_2 ps' k ltac:(lia)) as [x ->].
  rewrite (lookup_ge_None_2 ps' (S k)) by lia.
  done.
Qed.

End BpeFacts.

(** ** Sub-word pieces and the accumulated score, in exact arithmetic *)

Section BpeTotals.
Local Open Scope R_scope.

Lemma n_sum_from (l : list R) (a : R) :
  fold_left Rplus l a = a + n_sum l.
Proof.
  unfold n_sum. simpl. revert a.
  induction l as [|x l IH] using rev_ind; intros a.
  - simpl. lra.
  - rewrite !fold_left_app. simpl. rewrite IH. lra.
Qed.

Lemma n_sum_cons (x : R) (l : list R) : n_sum (x :: l) = x + n_sum l.
Proof.
  unfold n_sum at 1. simpl. rewrite n_sum_from. lra.
Qed.

Lemma n_sum_insert (l : list R) (i : nat) (x v : R) :
  l !! i = Some x -> n_sum (<[i := v]> l) = n_sum l - x + v.
Proof.
  revert i. induction l as [|y l IH]; intros [|i] Hi; simplify_eq/=.
  - rewrite !n_sum_cons. lra.
  - rewrite !n_sum_cons, (IH i) by done. lra.
Qed.

(** X6. Removing the continuation marker changes the token count, not the
    score: accumulating a hypothesis with the sub-word folding and
    without it adds the same sum of positional scores, and the folding
    counts out the continuation tokens among all tokens but the last. *)
Theorem accumulate_bpe_total
    (a a' : Driver.Args (R := R)) (dict : Driver.Dictionary)
    (hypo : Scorer.Hypo R) (r : Driver.run) (bpe_toks : gset Z) :
  Driver.add_bos_token a = false ->
  Driver.remove_bpe a = Some (Some bpe_toks) ->
  Driver.add_bos_token a' = false ->
  Driver.remove_bpe a' = None ->
  length (Scorer.positional_scores hypo) = length (Scorer.tokens hypo) ->
  let n := length (Scorer.tokens hypo) in
  let pieces := filter (fun tok => tok ∈ bpe_toks)
                       (take (n - 1) (Scorer.tokens hypo)) in
  exists r1 r2,
    Driver.accumulate a dict hypo r = (Ok tt, r1) /\
    Driver.accumulate a' dict hypo r = (Ok tt, r2) /\
    Driver.score_sum r1 = Driver.score_sum r2 /\
    Driver.score_sum r2
    = Some (default 0 (Driver.score_sum r)
            + n_sum (Scorer.positional_scores hypo)) /\
    Driver.count r2 = (Driver.count r + Z.of_nat n)%Z /\
    Driver.count r1 = (Driver.count r2 - Z.of_nat (length pieces))%Z.
Proof.
  intros Hbos Hbpe Hbos' Hbpe' Hlen n pieces.
  destruct (bpe_loop bpe_toks
              (fun ps => n_sum ps = n_sum (Scorer.positional_scores hypo))
              (Scorer.tokens hypo) (Scorer.positional_scores hypo) (n - 1))
    with (k := (n - 1)%nat)
    as (ps' & Hrun & Hl & Hsum & _ & _).
  - intros ps i tok x y _ _ _ Hx Hy Hps.
    rewrite (n_sum_insert _ i x)
      by (rewrite list_lookup_insert_ne by lia; exact Hx).
    rewrite (n_sum_insert _ (S i) y) by done.
    rewrite Hps. unfold n_zero. simpl. lra.
  - done.
  - lia.
  - unfold n. lia.
  - unfold n. lia.
  - unfold Driver.accumulate. rewrite Hbos, Hbpe, Hbos', Hbpe'.
    unfold bind, modify, lift. cbn [fst snd].
    unfold Driver.fold_bpe.
    replace (Z.to_nat (Z.of_nat (length (Scorer.tokens hypo)) - 1))
      with (n - 1)%nat by (unfold n; lia).
    rewrite Hrun.
    do 2 eexists. split; first reflexivity. split; first reflexivity.
    cbn [Driver.score_sum Driver.count fst snd].
    rewrite Hsum. split; first done. split; first done.
    rewrite Hl, Hlen. fold n. fold pieces. split; lia.
Qed.

End BpeTotals.

(** Three tokens of which the second continues into the third. *)
Lemma fold_bpe_counts_witness :
  exists ps',
    Driver.fold_bpe {[10]} 3 [0; 10; 11] [(-1)%R; (-2)%R; (-3)%R]
    = Ok (1, ps') /\
    length ps' = 3%nat.
Proof.
  destruct (fold_bpe_counts {[10]} [0; 10; 11] [(-1)%R; (-2)%R; (-3)%R]
              eq_refl) as (ps' & Hrun & Hlen & _).
  exists ps'. split; [exact Hrun | exact Hlen].
Defined.

(** The hypothesis [0; 10; 11] with the sentence-start token 0, when 11
    is a continuation token. *)
Lemma accumulate_bos_trailing_piece_witness :
  (Driver.accumulate (Cases.scoring_args true (Some (Some {[11]})))
     Examples.toy_dict Cases.three_tokens Driver.initial).1
  = Raise IndexError.
Proof.
  rewrite (accumulate_bos_trailing_piece {[11]}
             (Cases.scoring_args true (Some (Some {[11]})))
             Examples.toy_dict Cases.three_tokens Driver.initial
             [10; 11] 11).
  - reflexivity.
  - reflexivity.
  - reflexivity.
  - reflexivity.
  - reflexivity.
  - apply elem_of_singleton. reflexivity.
  - reflexivity.
Defined.

(** The hypothesis [0; 10; 11] when 10 is a continuation token: the sum
    added is that of the three scores, the count added is two. *)
Lemma accumulate_bpe_total_witness :
  exists r1 r2,
    Driver.accumulate (Cases.scoring_args false (Some (Some {[10]})))
      Examples.toy_dict Cases.three_tokens Driver.initial = (Ok tt, r1) /\
    Driver.accumulate (Cases.scoring_args false None)
      Examples.toy_dict Cases.three_tokens Driver.initial = (Ok tt, r2) /\
    Driver.score_sum r1 = Driver.score_sum r2 /\
    Driver.count r2 = 3 /\
    Driver.count r1 = 2.
Proof.
  destruct (accumulate_bpe_total
              (Cases.scoring_args false (Some (Some {[10]})))
              (Cases.scoring_args false None)
              Examples.toy_dict Cases.three_tokens Driver.initial {[10]}
              eq_refl eq_refl eq_refl eq_refl eq_refl)
    as (r1 & r2 & Hr1 & Hr2 & Hsum & _ & Hc2 & Hc1).
  exists r1, r2. split; first exact Hr1. split; first exact Hr2.
  split; first exact Hsum. split; first exact Hc2.
  rewrite Hc1, Hc2. reflexivity.
Defined.

(** The tokens [10; 11; 12] read as the word of the piece 10 and the
    token 11, and the word 12. *)
Lemma fold_bpe_groups_witness :
  Driver.fold_bpe {[10]} 3 [10; 11; 12] [(-1)%R; (-2)%R; (-3)%R]
  = Ok (1, [0%R; (-2 + -1)%R; (-3)%R]).
Proof.
  assert (Forall (fun g : Words.group => Forall (fun tok => tok ∈ ({[10]} : gset Z)) g.1)
                 [([10], 11); ([], 12)]) as Hpieces.
  { constructor; last (constructor; constructor).
    constructor; last constructor. apply elem_of_singleton. reflexivity. }
  assert (Forall (fun g : Words.group => g.2 ∉ ({[10]} : gset Z))
                 (take 1 [([10], 11); ([], 12)])) as Hfinal.
  { constructor; last constructor.
    intros Hin%elem_of_singleton. discriminate Hin. }
  exact (fold_bpe_groups {[10]} [([10], 11); ([], 12)]
           [[(-1)%R; (-2)%R]; [(-3)%R]]
           ltac:(repeat constructor) Hpieces Hfinal).
Defined.

(** ** The probability combiner as an interpolation *)

Section InterpolationFacts.
Import Scorer.
Local Open Scope R_scope.

Lemma exp_mono (x y : R) : x <= y -> exp x <= exp y.
Proof.
  intros [Hlt| ->]; last lra. left. by apply exp_increasing.
Qed.

Lemma exp_le_inv (x y : R) : exp x <= exp y -> x <= y.
Proof.
  intros Hle. apply Rnot_lt_le. intros Hlt.
  apply exp_increasing in Hlt. lra.
Qed.

(** X7. The combined tensor exists for tensors of identical shape, and each
    of its entries lies between the retrieval and the model
    log-probability it combines. *)
Theorem combine_between (lam : R) (knn_p vocab_p : tensor3 R) :
  0 < lam < 1 ->
  Spec.same_shape3 knn_p vocab_p ->
  exists c,
    combine_knn_and_vocab_probs knn_p vocab_p lam = Ok c /\
    forall i j k x y,
      Dist.entry knn_p i j k = Some x ->
      Dist.entry vocab_p i j k = Some y ->
      exists z, Dist.entry c i j k = Some z /\ Rmin x y <= z <= Rmax x y.
Proof.
  intros Hlam Hshape.
  destruct (combine_total lam knn_p vocab_p Hshape) as [c Hc].
  exists c. split; first exact Hc.
  intros i j k x y Hx Hy.
  exists (combine_scalar lam x y).
  split; first by apply (combine_entry lam knn_p vocab_p).
  pose proof (combine_scalar_mixture lam x y Hlam) as Hmix.
  pose proof (exp_pos x). pose proof (exp_pos y).
  split; apply exp_le_inv; rewrite Hmix.
  - pose proof (exp_mono (Rmin x y) x (Rmin_l x y)).
    pose proof (exp_mono (Rmin x y) y (Rmin_r x y)). nra.
  - pose proof (exp_mono x (Rmax x y) (Rmax_l x y)).
    pose proof (exp_mono y (Rmax x y) (Rmax_r x y)). nra.
Qed.

(** X8. A larger weight moves every entry toward the retrieval term: up
    where the retrieval log-probability is the larger one, down where it
    is the smaller one. *)
Theorem combine_monotone (lam1 lam2 : R) (knn_p vocab_p : tensor3 R) :
  0 < lam1 -> lam1 <= lam2 -> lam2 < 1 ->
  Spec.same_shape3 knn_p vocab_p ->
  exists c1 c2,
    combine_knn_and_vocab_probs knn_p vocab_p lam1 = Ok c1 /\
    combine_knn_and_vocab_probs knn_p vocab_p lam2 = Ok c2 /\
    forall i j k x y,
      Dist.entry knn_p i j k = Some x ->
      Dist.entry vocab_p i j k = Some y ->
      exists z1 z2,
        Dist.entry c1 i j k = Some z1 /\
        Dist.entry c2 i j k = Some z2 /\
        (y <= x -> z1 <= z2 <= x) /\
        (x <= y -> x <= z2 <= z1).
Proof.
  intros Hl1 Hle Hl2 Hshape.
  destruct (combine_total lam1 knn_p vocab_p Hshape) as [c1 Hc1].
  destruct (combine_total lam2 knn_p vocab_p Hshape) as [c2 Hc2].
  exists c1, c2. split; first exact Hc1. split; first exact Hc2.
  intros i j k x y Hx Hy.
  exists (combine_scalar lam1 x y), (combine_scalar lam2 x y).
  split; first by apply (combine_entry lam1 knn_p vocab_p).
  split; first by apply (combine_entry lam2 knn_p vocab_p).
  pose proof (combine_scalar_mixture lam1 x y ltac:(lra)) as Hm1.
  pose proof (combine_scalar_mixture lam2 x y ltac:(lra)) as Hm2.
  pose proof (exp_pos x). pose proof (exp_pos y).
  split; intros Hxy.
  - pose proof (exp_mono y x Hxy).
    split; apply exp_le_inv; rewrite ?Hm1, ?Hm2; nra.
  - pose proof (exp_mono x y Hxy).
    split; apply exp_le_inv; rewrite ?Hm1, ?Hm2; nra.
Qed.

Lemma combine1_mass (lam : R) (krow vrow crow : list R) :
  0 < lam < 1 ->
  combine1 krow vrow lam = Ok crow ->
  Dist.mass crow = (1 - lam) * Dist.mass vrow + lam * Dist.mass krow.
Proof.
  intros Hlam. unfold combine1, Dist.mass.
  revert vrow crow. induction krow as [|x krow IH]; intros [|y vrow] crow Hc;
    cbn [zip_r rbind] in Hc; try discriminate Hc.
  - injection Hc as <-. simpl. lra.
  - destruct (zip_r _ krow vrow) as [cs|] eqn:Hcs;
      cbn [rbind] in Hc; last discriminate Hc.
    injection Hc as <-. rewrite !fmap_cons. cbn [foldr].
    rewrite (IH vrow cs) by done.
    change (ln _) with (combine_scalar lam x y).
    rewrite combine_scalar_mixture by done. lra.
Qed.

(** X9. Combining two distributions gives a distribution: the mass of every
    combined row is the mixture of the masses of the two rows, so it is
    1 when both are. *)
Theorem combine_mass (lam : R) (knn_p vocab_p : tensor3 R) :
  0 < lam < 1 ->
  Spec.same_shape3 knn_p vocab_p ->
  exists c,
    combine_knn_and_vocab_probs knn_p vocab_p lam = Ok c /\
    forall i j krow vrow,
      Dist.row knn_p i j = Some krow ->
      Dist.row vocab_p i j = Some vrow ->
      exists crow,
        Dist.row c i j = Some crow /\
        Dist.mass crow
        = (1 - lam) * Dist.mass vrow + lam * Dist.mass krow /\
        (Dist.mass krow = 1 -> Dist.mass vrow = 1 -> Dist.mass crow = 1).
Proof.
  intros Hlam Hshape.
  destruct (combine_total lam knn_p vocab_p Hshape) as [c Hc].
  exists c. split; first exact Hc.
  intros i j krow vrow Hk Hv.
  destruct (combine_row lam _ _ _ i j krow vrow Hc Hk Hv)
    as (crow & Hrow & Hcrow).
  exists crow. split; first exact Hrow.
  pose proof (combine1_mass lam krow vrow crow Hlam Hcrow) as Hmass.
  split; first exact Hmass.
  intros Hk1 Hv1. rewrite Hmass, Hk1, Hv1. lra.
Qed.

End InterpolationFacts.

Section InterpolationCases.
Local Open Scope R_scope.

(** A [1 x 1 x 2] pair of tensors combined with weight 1/4. *)
Lemma combine_between_witness :
  exists c z,
    Scorer.combine_knn_and_vocab_probs [[[-1; -2]]] [[[-3; -4]]] (1 / 4)
    = Ok c /\
    Dist.entry c 0 0 0 = Some z /\
    Rmin (-1) (-3) <= z <= Rmax (-1) (-3).
Proof.
  destruct (combine_between (1 / 4) [[[-1; -2]]] [[[-3; -4]]])
    as (c & Hc & Hall).
  - lra.
  - repeat constructor.
  - destruct (Hall 0%nat 0%nat 0%nat (-1) (-3) eq_refl eq_refl) as (z & Hz & Hb).
    exists c, z. split; [exact Hc | split; [exact Hz | exact Hb]].
Defined.

(** The same pair combined with the weights 1/4 and 1/2. *)
Lemma combine_monotone_witness :
  exists c1 c2 z1 z2,
    Scorer.combine_knn_and_vocab_probs [[[-1; -2]]] [[[-3; -4]]] (1 / 4)
    = Ok c1 /\
    Scorer.combine_knn_and_vocab_probs [[[-1; -2]]] [[[-3; -4]]] (1 / 2)
    = Ok c2 /\
    Dist.entry c1 0 0 0 = Some z1 /\
    Dist.entry c2 0 0 0 = Some z2 /\
    z1 <= z2 <= -1.
Proof.
  destruct (combine_monotone (1 / 4) (1 / 2) [[[-1; -2]]] [[[-3; -4]]])
    as (c1 & c2 & Hc1 & Hc2 & Hall).
  - lra.
  - lra.
  - lra.
  - repeat constructor.
  - destruct (Hall 0%nat 0%nat 0%nat (-1) (-3) eq_refl eq_refl)
      as (z1 & z2 & Hz1 & Hz2 & Hup & _).
    exists c1, c2, z1, z2.
    split; first exact Hc1. split; first exact Hc2.
    split; first exact Hz1. split; first exact Hz2.
    apply Hup. lra.
Defined.

(** The same pair: the mass of the combined row. *)
Lemma combine_mass_witness :
  exists c crow,
    Scorer.combine_knn_and_vocab_probs [[[-1; -2]]] [[[-3; -4]]] (1 / 4)
    = Ok c /\
    Dist.row c 0 0 = Some crow /\
    Dist.mass crow
    = (1 - 1 / 4) * Dist.mass [-3; -4] + 1 / 4 * Dist.mass [-1; -2].
Proof.
  destruct (combine_mass (1 / 4) [[[-1; -2]]] [[[-3; -4]]])
    as (c & Hc & Hall).
  - lra.
  - repeat constructor.
  - destruct (Hall 0%nat 0%nat [-1; -2] [-3; -4] eq_refl eq_refl)
      as (crow & Hrow & Hmass & _).
    exists c, crow. split; [exact Hc | split; [exact Hrow | exact Hmass]].
Defined.

End InterpolationCases.

(** ** Gathering within the vocabulary *)

Section GatherBounds.
Context {R : Type} `{Numeric R}.
Import Scorer.

Lemma pick_inv (row : list R) (tok : Z) :
  match pick row tok with
  | Ok _ => 0 <= tok < Z.of_nat (length row)
  | Raise e => e = RuntimeError
  end.
Proof.
  unfold pick. destruct (Z.ltb_spec tok 0) as [Hneg|Hpos]; first done.
  destruct (row !! Z.to_nat tok) as [p|] eqn:Hp; simpl; last done.
  apply lookup_lt_Some in Hp. lia.
Qed.

Lemma along_r_inv {A B C} (g : A -> B -> result C) (Q : A -> B -> Prop) :
  (forall a b, match g a b with
               | Ok _ => Q a b
               | Raise e => e = RuntimeError
               end) ->
  forall la lb,
    match along_r g la lb with
    | Ok _ => Forall2 Q (take (length lb) la) lb
    | Raise e => e = RuntimeError
    end.
Proof.
  intros Hg la lb. revert la.
  induction lb as [|b lb IH]; intros [|a la]; simpl; try done;
    try by constructor.
  specialize (Hg a b). destruct (g a b) as [c|e]; simpl; last done.
  specialize (IH la). destruct (along_r g la lb) as [cs|e]; simpl; last done.
  by constructor.
Qed.

Lemma gather_error (probs : tensor3 R) (target : tensor2 Z) e :
  gather_target_probs probs target = Raise e -> e = RuntimeError.
Proof.
  intros He.
  assert (Hrow : forall (rows : list (list R)) (toks : list Z),
            match along_r pick rows toks with
            | Ok _ => True
            | Raise e => e = RuntimeError
            end).
  { intros rows toks.
    pose proof (along_r_inv (pick (R := R)) (fun _ _ => True)) as Hall.
    specialize (Hall (fun (row : list R) (tok : Z) => ltac:(
      pose proof (pick_inv row tok) as Hp;
      destruct (pick row tok); [exact I | exact Hp])) rows toks).
    by destruct (along_r pick rows toks). }
  pose proof (along_r_inv (along_r (pick (R := R))) (fun _ _ => True)
                Hrow probs target) as Hall.
  unfold gather_target_probs in He. by rewrite He in Hall.
Qed.

(** X10. On probabilities of shape [(b, t, v)] and a target of shape
    [(b, t)], the gather goes through exactly when every target token is
    a symbol of the vocabulary, giving the probability of each target
    token; every failure is a [RuntimeError]. *)
Theorem gather_target_probs_in_vocab
    (probs : tensor3 R) (target : tensor2 Z) (b t v : nat) :
  Spec.has_shape probs b t ->
  Forall (Forall (fun row => length row = v)) probs ->
  Spec.has_shape target b t ->
  (Spec.in_vocab v target ->
   gather_target_probs probs target
   = Ok (Tensor.map2 (fun x : R => [x]) (Spec.target_probs probs target))) /\
  (forall r, gather_target_probs probs target = Ok r ->
             Spec.in_vocab v target) /\
  (forall e, gather_target_probs probs target = Raise e ->
             e = RuntimeError /\ ~ Spec.in_vocab v target).
Proof.
  intros [Hb Hrows] Hv [Hb' Hrows'].
  assert (Hinv : forall r, gather_target_probs probs target = Ok r ->
                           Spec.in_vocab v target).
  { intros r Hr.
    pose proof (along_r_inv (along_r (pick (R := R)))
                  (fun rows toks =>
                     Forall2 (fun row tok => 0 <= tok < Z.of_nat (length row))
                             (take (length toks) rows) toks)
                  (along_r_inv pick _ pick_inv) probs target) as Hall.
    unfold gather_target_probs in Hr. rewrite Hr in Hall.
    rewrite take_ge in Hall by lia.
    unfold Spec.in_vocab.
    apply Forall_forall. intros toks Htoks.
    apply list_elem_of_lookup in Htoks as [i Hi].
    destruct (Forall2_lookup_r _ _ _ _ _ Hall Hi) as (rows & Hri & Hrt).
    apply Forall_forall. intros tok Htok.
    apply list_elem_of_lookup in Htok as [j Hj].
    destruct (Forall2_lookup_r _ _ _ _ _ Hrt Hj) as (row & Hrj & Hin).
    apply lookup_take_Some in Hrj as [Hrj _].
    pose proof (Forall_lookup_1 _ _ _ _ Hv Hri) as Hvi. simpl in Hvi.
    pose proof (Forall_lookup_1 _ _ _ _ Hvi Hrj) as Hlen. simpl in Hlen.
    lia. }
  assert (Hfwd : Spec.in_vocab v target ->
                 gather_target_probs probs target
                 = Ok (Tensor.map2 (fun x : R => [x])
                                   (Spec.target_probs probs target))).
  { intros Hin. unfold Tensor.map2.
    apply gather_target_probs_entries.
    apply Forall2_same_length_lookup_2; first lia.
    intros i rows toks Hri Hti.
    pose proof (Forall_lookup_1 _ _ _ _ Hrows Hri) as Hlr.
    pose proof (Forall_lookup_1 _ _ _ _ Hrows' Hti) as Hlt.
    pose proof (Forall_lookup_1 _ _ _ _ Hv Hri) as Hvi.
    pose proof (Forall_lookup_1 _ _ _ _ Hin Hti) as Hii.
    simpl in *.
    apply Forall2_same_length_lookup_2; first lia.
    intros j row tok Hrj Htj.
    pose proof (Forall_lookup_1 _ _ _ _ Hvi Hrj) as Hlen.
    pose proof (Forall_lookup_1 _ _ _ _ Hii Htj) as Htok.
    simpl in *. lia. }
  split; last split.
  - exact Hfwd.
  - exact Hinv.
  - intros e He. split.
    + apply (gather_error probs target e He).
    + intros Hin. apply Hfwd in Hin. congruence.
Qed.

End GatherBounds.

(** The toy target within a vocabulary of 100 symbols. *)
Lemma gather_target_probs_in_vocab_witness :
  Scorer.gather_target_probs (Examples.logits 100 0) Examples.toy_target
  = Ok (Tensor.map2 (fun x : R => [x])
          (Spec.target_probs (Examples.logits 100 0) Examples.toy_target)).
Proof.
  apply (proj1 (gather_target_probs_in_vocab
                  (Examples.logits 100 0) Examples.toy_target 2 3 100
                  ltac:(split; [reflexivity | repeat constructor])
                  ltac:(repeat (constructor; try reflexivity))
                  ltac:(split; [reflexivity | repeat constructor]))).
  repeat (constructor; try lia).
Defined.

(** ** The loop over the members of an ensemble *)

Section MembersFacts.
Context {R : Type} `{Numeric R}.
Variable uninit : R.
Variable extract_hard_alignment :
  list (list R) -> list Z -> list Z -> Z -> Z -> list Z.
Import Scorer.

Lemma add2_zip (a b : tensor2 R) n c :
  Spec.has_shape a n c -> Spec.has_shape b n c ->
  add2 a b = Ok (Ensemble.add a b) /\ Spec.has_shape (Ensemble.add a b) n c.
Proof.
  intros [Ha Hac] [Hb Hbc]. subst n. revert b Hb Hbc.
  unfold add2, Ensemble.add.
  induction Hac as [|ra a Hra _ IH]; intros [|rb b] Hb Hbc; simplify_eq/=.
  - split; first done. by split.
  - inversion Hbc as [|? ? Hrb Hbc']; subst.
    destruct (IH b ltac:(done) Hbc') as (Hs & Hlen & Hall).
    assert (zip_r (fun x y => Ok (n_add x y)) ra rb
            = Ok (zip_with n_add ra rb)) as Hr.
    { clear -Hrb. revert rb Hrb.
      induction ra as [|x ra IHr]; intros [|y rb] Hlen; simplify_eq/=;
        first done.
      by rewrite IHr. }
    rewrite Hr, Hs. split; first done.
    split; first (simpl; lia).
    constructor; last done. rewrite length_zip_with. lia.
Qed.

Section Loop.
Variables (B T : nat) (orig : list (list Z)) (ashape : list (list nat)).
Variables (self : SequenceScorer R) (n : nat) (inp : NetInput).
Hypothesis HM : 0 < softmax_batch self.

Local Abbreviation lp := (n =? 1)%nat.
Local Abbreviation passes := (Ensemble.passes (softmax_batch self) B T).

Local Abbreviation members_done := (Ensemble.done_with B T orig ashape).

Lemma sum_snoc (gs : list (list (list R))) g avg :
  Ensemble.sum gs = Some avg ->
  Ensemble.sum (gs ++ [g]) = Some (Ensemble.add avg g).
Proof.
  destruct gs as [|g0 gs]; first done. simpl. intros [= <-].
  by rewrite fold_left_app.
Qed.

Lemma member_step k (model : Model R) (o : Ensemble.output) os
      (acc : ens_acc R) w :
  Ensemble.scores_as lp inp orig B T model o ->
  Ensemble.attends ashape o ->
  members_done os acc ->
  target (w_sample w) = orig ->
  exists acc',
    model_body uninit self n None inp orig acc (k, model) w
    = (Ok acc',
       {| w_sample := w_sample w;
          w_calls := w_calls w
                     ++ Forward k :: replicate passes (Normalize k) |}) /\
    members_done (os ++ [o]) acc'.
Proof using HM.
  destruct o as [[[first rest] f] v].
  intros (Hfwd & Hrow & Hws) Hattn Hacc Htgt.
  unfold Ensemble.attends in Hattn. cbn [fst snd] in Hattn.
  rewrite (model_body_scored uninit B T v first f orig Hws self model k n
             rest HM Hrow None inp acc w Hfwd Htgt).
  pose proof (target_probs_shape B T v first f orig Hws) as HG.
  unfold bind at 1. unfold ret at 1. cbn [fst snd].
  assert (Hlast : exists first0 rest0 f0 v0,
            last (os ++ [(first, rest, f, v)]) = Some (first0, rest0, f0, v0) /\
            floor_zeros (Tensor.map2 f first)
            = floor_zeros (Tensor.map2 f0 first0) /\
            (first, rest) = (first0, rest0)).
  { exists first, rest, f, v. by rewrite last_snoc. }
  unfold Ensemble.done_with.
  destruct acc as [[[[avg0 att0] full0] dec0]|].
  - destruct Hacc as (Hsum & Havg0 & Hatt0 & _).
    destruct (add2_zip avg0 _ B T Havg0 HG) as (Hadd & Havg).
    unfold bind at 1. unfold lift at 1. rewrite Hadd.
    unfold bind at 1. unfold lift at 1.
    assert (Hs : Ensemble.sum
                   (Ensemble.target_probs orig <$> os ++ [(first, rest, f, v)])
                 = Some (Ensemble.add avg0
                           (Spec.target_probs (Tensor.map2 f first) orig))).
    { rewrite fmap_app. by apply sum_snoc. }
    destruct (attn_of rest) as [a|] eqn:Ha.
    + destruct att0 as [a0|].
      * destruct (add3_shape a0 a) as (c & Hc & Hsc).
        { rewrite (Hatt0 a0 eq_refl). symmetry. by apply Hattn. }
        rewrite Hc. cbn. eexists. split; first reflexivity.
        split; first done. split; first done. split; last done.
        intros a' [= <-]. rewrite Hsc. by apply Hatt0.
      * cbn. eexists. split; first reflexivity.
        split; first done. split; first done. split; last done.
        intros a' [= <-]. by apply Hattn.
    + cbn. eexists. split; first reflexivity.
      split; first done. split; first done. split; last done. done.
  - simpl in Hacc. subst os.
    unfold Ensemble.done_with.
    unfold bind at 1. unfold lift at 1.
    unfold bind at 1. unfold lift at 1.
    destruct (attn_of rest) as [a|] eqn:Ha.
    + cbn. eexists. split; first reflexivity.
      split; first done. split; first done. split; last done.
      intros a' [= <-]. by apply Hattn.
    + cbn. eexists. split; first reflexivity.
      split; first done. split; first done. split; last done. done.
Qed.

Lemma members_loop (ms : list (Model R)) :
  forall (os os0 : list Ensemble.output) j (acc : ens_acc R) w,
    Forall2 (Ensemble.scores_as lp inp orig B T) ms os ->
    Forall (Ensemble.attends ashape) os ->
    members_done os0 acc ->
    target (w_sample w) = orig ->
    exists acc',
      for_each (model_body uninit self n None inp orig)
               (imap (fun k m => ((j + k)%nat, m)) ms) acc w
      = (Ok acc',
         {| w_sample := w_sample w;
            w_calls :=
              w_calls w
              ++ concat ((fun k => Forward (j + k)
                                   :: replicate passes (Normalize (j + k)))
                         <$> seq 0 (length ms)) |}) /\
      members_done (os0 ++ os) acc'.
Proof using HM.
  induction ms as [|m ms IH]; intros os os0 j acc w Hms Hatt Hacc Htgt.
  - apply Forall2_nil_inv_l in Hms as ->.
    exists acc. simpl. rewrite !app_nil_r. split; last done.
    by destruct w.
  - apply Forall2_cons_inv_l in Hms as (o & os' & Hm & Hms & ->).
    apply Forall_cons in Hatt as [Ho Hatt].
    destruct (member_step (j + 0) m o os0 acc w Hm Ho Hacc Htgt)
      as (acc1 & Hstep & Hacc1).
    rewrite imap_cons. cbn [for_each]. unfold bind at 1. rewrite Hstep.
    destruct (IH os' (os0 ++ [o]) (S j) acc1
                {| w_sample := w_sample w;
                   w_calls := w_calls w
                              ++ Forward (j + 0)
                                 :: replicate passes (Normalize (j + 0)) |}
                Hms Hatt Hacc1 Htgt)
      as (acc' & Hloop & Hacc').
    exists acc'. split.
    + rewrite (imap_ext _ (fun k x => ((S j + k)%nat, x)))
        by (intros k x _; simpl; f_equal; lia).
      rewrite Hloop. cbn [w_sample w_calls]. do 2 f_equal.
      rewrite <- app_assoc. f_equal.
      cbn [length]. rewrite <- cons_seq, fmap_cons. cbn [concat].
      rewrite <- fmap_S_seq, <- list_fmap_compose.
      do 2 f_equal. apply list_fmap_ext. intros _ k _. simpl.
      by replace (S (j + k)) with (j + S k)%nat by lia.
    + by rewrite <- app_assoc in Hacc'.
Qed.

End Loop.

(** X11. The providers called for one batch, without retrieval: every member
    of the ensemble is run forward once, in the order of the ensemble,
    and asked to normalise once per chunk, that is once when the batch
    is below the ceiling and [ceil(b * t / M)] times otherwise; nothing
    else is called, whether the hypotheses can be assembled or not, and
    the sample is left as it was. *)
Theorem generate_calls
    tgt_pad tgt_eos sb ca (a : Args R) (self : SequenceScorer R)
    (models : list (Model R)) (os : list Ensemble.output) (w : world)
    (inp : NetInput) (B T : nat) (ashape : list (list nat)) :
  init tgt_pad tgt_eos sb ca a = Ok self ->
  net_input (w_sample w) = Some inp ->
  Forall2 (Ensemble.scores_as (length models =? 1)%nat inp
             (target (w_sample w)) B T) models os ->
  Forall (Ensemble.attends ashape) os ->
  (generate uninit extract_hard_alignment self models None w).2
  = {| w_sample := w_sample w;
       w_calls := w_calls w
                  ++ Ensemble.calls (softmax_batch self) B T (length models) |}.
Proof.
  intros Hinit Hinp Hms Hatt.
  pose proof (init_softmax_batch_pos _ _ _ _ _ _ Hinit) as HM.
  destruct (members_loop B T (target (w_sample w)) ashape self
              (length models) inp HM models os [] 0 None w
              Hms Hatt eq_refl eq_refl) as (acc' & Hloop & _).
  unfold generate.
  unfold bind at 1. unfold get at 1.
  unfold bind at 1. unfold lift at 1. rewrite Hinp. cbn [of_option].
  unfold bind at 1.
  rewrite (imap_ext _ (fun k m => ((0 + k)%nat, m))) by done.
  rewrite Hloop. cbn [Nat.add].
  unfold bind at 1. unfold lift at 1.
  destruct acc' as [[[[avg att] full] dec]|]; cbn [of_option]; last done.
  destruct (average (length models) avg att) as [avg_probs avg_attn].
  unfold bind at 1. unfold lift at 1.
  destruct (map_r (map_r (n_topk 100)) full) as [topk|e]; last done.
  unfold bind at 1. unfold get at 1. unfold lift.
  by destruct (map_r _ (seq 0 (length avg_probs))).
Qed.

Lemma last_scores lp inp orig B T (models : list (Model R))
      (os : list Ensemble.output) o :
  Forall2 (Ensemble.scores_as lp inp orig B T) models os ->
  last os = Some o ->
  exists model, Ensemble.scores_as lp inp orig B T model o.
Proof.
  intros Hms Hlast. rewrite last_lookup in Hlast.
  destruct (Forall2_lookup_r _ _ _ _ _ Hms Hlast) as (m & _ & Hm).
  by exists m.
Qed.

(** An ensemble of two members or more, without retrieval:
    [generate] up to the top-100 extraction and the assembly of the
    hypotheses, from the sum [avg0] of the target probabilities of the
    members and their summed attention [att]. *)
Lemma ensemble_topk
    tgt_pad tgt_eos sb ca (a : Args R) (self : SequenceScorer R)
    (models : list (Model R)) (os : list Ensemble.output) (w : world)
    (inp : NetInput) (first : list (list (list R))) (rest : extra R)
    (f : list R -> list R) (B T V : nat) (ashape : list (list nat)) :
  init tgt_pad tgt_eos sb ca a = Ok self ->
  net_input (w_sample w) = Some inp ->
  (2 <= length models)%nat ->
  Forall2 (Ensemble.scores_as false inp (target (w_sample w)) B T)
          models os ->
  Forall (Ensemble.attends ashape) os ->
  last os = Some (first, rest, f, V) ->
  exists (avg0 : tensor2 R) (att : option (tensor3 R)),
    Ensemble.sum (Ensemble.target_probs (target (w_sample w)) <$> os)
    = Some avg0 /\
    Spec.has_shape avg0 B T /\
    (forall a0, att = Some a0 -> Spec.shape3 a0 = ashape) /\
    Spec.well_shaped B T V first f (target (w_sample w)) /\
    let n := length models in
    let avg := Tensor.map2 (fun x => n_log (n_div_int x (Z.of_nat n))) avg0 in
    generate uninit extract_hard_alignment self models None w
    = (topk_tokens <- lift (map_r (map_r (n_topk 100))
                                  (floor_zeros (Tensor.map2 f first))) ;;
       lift (map_r (hypo_of extract_hard_alignment self (w_sample w) avg
                            (Tensor.map3 (fun x => n_div_int x (Z.of_nat n))
                             <$> att)
                            topk_tokens (first, rest)
                            match start_indices (w_sample w) with
                            | Some l => l
                            | None => replicate (length avg) 0
                            end) (seq 0 (length avg))))%prog
        {| w_sample := w_sample w;
           w_calls := w_calls w
             ++ concat ((fun k => Forward k
                           :: replicate (Ensemble.passes (softmax_batch self)
                                                         B T)
                                        (Normalize k))
                        <$> seq 0 (length models)) |}.
Proof.
  intros Hinit Hinp Hn Hms Hatt Hlast.
  pose proof (init_softmax_batch_pos _ _ _ _ _ _ Hinit) as HM.
  set (n := length models) in *.
  assert ((n =? 1)%nat = false) as Hn1 by (apply Nat.eqb_neq; lia).
  rewrite <- Hn1 in Hms.
  destruct (members_loop B T (target (w_sample w)) ashape self n inp HM
              models os [] 0 None w Hms Hatt eq_refl eq_refl)
    as (acc' & Hloop & Hdone).
  rewrite Hn1 in Hms.
  destruct (last_scores _ _ _ _ _ _ _ _ Hms Hlast) as (m & _ & _ & Hws).
  simpl in Hdone. unfold Ensemble.done_with in Hdone.
  destruct acc' as [[[[avg0 att] full] dec]|]; last first.
  { subst os. done. }
  destruct Hdone as (Hsum & Havg & Hattn & first' & rest' & f' & v' & Hl'
                     & -> & ->).
  rewrite Hlast in Hl'. injection Hl' as <- <- <- <-.
  exists avg0, att. split; first exact Hsum. split; first exact Havg.
  split; first exact Hattn. split; first exact Hws.
  cbv zeta. fold n.
  set (avg := Tensor.map2 (fun x => n_log (n_div_int x (Z.of_nat n))) avg0).
  assert (average n avg0 att
          = (avg, Tensor.map3 (fun x => n_div_int x (Z.of_nat n)) <$> att))
    as Haverage.
  { unfold average. destruct (Nat.ltb_spec 1 n); [done | lia]. }
  unfold generate.
  unfold bind at 1. unfold get at 1.
  unfold bind at 1. unfold lift at 1. rewrite Hinp. cbn [of_option].
  unfold bind at 1. fold n.
  rewrite (imap_ext _ (fun k m => ((0 + k)%nat, m))) by done.
  rewrite Hloop.
  unfold bind at 1. unfold lift at 1. cbn [of_option].
  rewrite Haverage.
  unfold bind at 1. unfold lift at 1.
  unfold bind at 1. unfold lift at 1.
  destruct (map_r (map_r (n_topk 100)) (floor_zeros (Tensor.map2 f first)))
    as [topk|e]; last reflexivity.
  unfold bind at 1. unfold get at 1. cbn [w_sample].
  unfold lift. reflexivity.
Qed.

(** Over 100 symbols or more, the hypotheses of such an ensemble. *)
Lemma ensemble_run
    tgt_pad tgt_eos sb ca (a : Args R) (self : SequenceScorer R)
    (models : list (Model R)) (os : list Ensemble.output) (w : world)
    (inp : NetInput) (first : list (list (list R))) (rest : extra R)
    (f : list R -> list R) (B T V : nat) (ashape : list (list nat)) :
  init tgt_pad tgt_eos sb ca a = Ok self ->
  net_input (w_sample w) = Some inp ->
  (2 <= length models)%nat ->
  Forall2 (Ensemble.scores_as false inp (target (w_sample w)) B T)
          models os ->
  Forall (Ensemble.attends ashape) os ->
  last os = Some (first, rest, f, V) ->
  (100 <= V)%nat ->
  Spec.assembles self (w_sample w) rest B ->
  (B <= length ashape)%nat ->
  exists hypos avg,
    generate uninit extract_hard_alignment self models None w
    = (Ok hypos,
       {| w_sample := w_sample w;
          w_calls := w_calls w
            ++ concat ((fun k => Forward k
                          :: replicate (Ensemble.passes (softmax_batch self)
                                                        B T)
                                       (Normalize k))
                       <$> seq 0 (length models)) |}) /\
    length hypos = B /\
    length avg = B /\
    Ensemble.mean_log (length models)
      (Ensemble.target_probs (target (w_sample w)) <$> os) = Some avg /\
    forall i trow row,
      target (w_sample w) !! i = Some trow ->
      avg !! i = Some row ->
      exists hypo,
        hypos !! i = Some [hypo] /\
        tokens hypo
        = Spec.reference (pad self) trow (Spec.start_of (w_sample w) i) /\
        positional_scores hypo
        = Spec.window (pad self) trow (Spec.start_of (w_sample w) i) row /\
        score hypo
        = n_div_int (n_sum (positional_scores hypo))
                    (Z.of_nat (length (tokens hypo))).
Proof.
  intros Hinit Hinp Hn Hms Hatt Hlast HV Hasm Hlen.
  destruct (ensemble_topk tgt_pad tgt_eos sb ca a self models os w inp
              first rest f B T V ashape Hinit Hinp Hn Hms Hatt Hlast)
    as (avg0 & att & Hsum & Havg & Hattn & Hws & Hgen).
  cbv zeta in Hgen.
  set (n := length models) in *.
  set (P := Tensor.map2 f first) in *.
  pose proof (floor_zeros_shape B T V first f _ Hws) as [HFlen _].
  fold P in HFlen.
  set (topk := Tensor.map2 (fun row : list R => take 100 (n_argsort row))
                           (floor_zeros P)).
  set (avg := Tensor.map2 (fun x => n_log (n_div_int x (Z.of_nat n))) avg0)
    in *.
  assert (length avg = B) as Hlavg.
  { unfold avg, Tensor.map2. rewrite length_fmap. apply Havg. }
  destruct (hypotheses_assembled extract_hard_alignment self (w_sample w)
              avg (Tensor.map3 (fun x => n_div_int x (Z.of_nat n)) <$> att)
              topk first rest B)
    as (hypos & Hrun & Hhl & Hfields); try done.
  { unfold topk, Tensor.map2. by rewrite length_fmap. }
  { apply Hws. }
  { intros a' Ha'. destruct att as [a0|]; simplify_eq/=.
    unfold Tensor.map3, Tensor.map2. rewrite length_fmap.
    rewrite (shape3_length a0 ashape) by by apply Hattn. done. }
  exists hypos, avg.
  split; last split; last split; last split.
  - rewrite Hgen.
    rewrite (topk_rows V)
      by (done || apply (floor_zeros_vocab B T V first f _ Hws)).
    unfold bind at 1. unfold lift at 1. unfold lift.
    fold topk. by rewrite Hrun.
  - done.
  - done.
  - unfold Ensemble.mean_log. fold n. by rewrite Hsum.
  - intros i trow row Htrow Hrow.
    destruct (lookup_lt_is_Some_2 topk i) as [trk Htrk].
    { unfold topk, Tensor.map2. rewrite length_fmap, HFlen.
      apply lookup_lt_Some in Hrow. lia. }
    destruct (Hfields i trow row trk Htrow Hrow Htrk)
      as (hypo & Hh & Htok & Hpos & Hscore & _).
    by exists hypo.
Qed.

(** Over fewer than 100 symbols, every member having been run, the
    top-100 extraction of line 166 raises. *)
Lemma ensemble_refused
    tgt_pad tgt_eos sb ca (a : Args R) (self : SequenceScorer R)
    (models : list (Model R)) (os : list Ensemble.output) (w : world)
    (inp : NetInput) (first : list (list (list R))) (rest : extra R)
    (f : list R -> list R) (B T V : nat) (ashape : list (list nat)) :
  init tgt_pad tgt_eos sb ca a = Ok self ->
  net_input (w_sample w) = Some inp ->
  (2 <= length models)%nat ->
  Forall2 (Ensemble.scores_as false inp (target (w_sample w)) B T)
          models os ->
  Forall (Ensemble.attends ashape) os ->
  last os = Some (first, rest, f, V) ->
  (V < 100)%nat ->
  (generate uninit extract_hard_alignment self models None w).1
  = Raise RuntimeError.
Proof.
  intros Hinit Hinp Hn Hms Hatt Hlast HV.
  destruct (ensemble_topk tgt_pad tgt_eos sb ca a self models os w inp
              first rest f B T V ashape Hinit Hinp Hn Hms Hatt Hlast)
    as (avg0 & att & _ & _ & _ & Hws & Hgen).
  cbv zeta in Hgen. rewrite Hgen.
  rewrite (topk_small V B T);
    [done | done | apply Hws | apply Hws | |].
  - apply (floor_zeros_shape B T V first f _ Hws).
  - apply (floor_zeros_vocab B T V first f _ Hws).
Qed.

(** X12. An ensemble of two members or more, without retrieval, whose
    last member scores over [V] symbols.  Over fewer than 100 symbols
    [generate] raises once every member has been run.  Over 100 symbols
    or more it returns one hypothesis per sequence, whose positional
    scores are the logarithm of the mean over the members of the
    probability each gives the target token, at the positions from the
    start offset on, as many as the reference has tokens, and whose
    score is these added up from the first on, divided by the length
    of the reference. *)
Theorem ensemble_mean_scores
    tgt_pad tgt_eos sb ca (a : Args R) (self : SequenceScorer R)
    (models : list (Model R)) (os : list Ensemble.output) (w : world)
    (inp : NetInput) (first : list (list (list R))) (rest : extra R)
    (f : list R -> list R) (B T V : nat) (ashape : list (list nat)) :
  init tgt_pad tgt_eos sb ca a = Ok self ->
  net_input (w_sample w) = Some inp ->
  (2 <= length models)%nat ->
  Forall2 (Ensemble.scores_as false inp (target (w_sample w)) B T)
          models os ->
  Forall (Ensemble.attends ashape) os ->
  last os = Some (first, rest, f, V) ->
  Spec.assembles self (w_sample w) rest B ->
  (B <= length ashape)%nat ->
  ((V < 100)%nat ->
   (generate uninit extract_hard_alignment self models None w).1
   = Raise RuntimeError) /\
  ((100 <= V)%nat ->
   exists hypos w' avg,
     generate uninit extract_hard_alignment self models None w
     = (Ok hypos, w') /\
     length hypos = B /\
     Ensemble.mean_log (length models)
       (Ensemble.target_probs (target (w_sample w)) <$> os) = Some avg /\
     forall i trow row,
       target (w_sample w) !! i = Some trow ->
       avg !! i = Some row ->
       exists hypo,
         hypos !! i = Some [hypo] /\
         tokens hypo
         = Spec.reference (pad self) trow (Spec.start_of (w_sample w) i) /\
         positional_scores hypo
         = Spec.window (pad self) trow (Spec.start_of (w_sample w) i) row /\
         score hypo
         = n_div (fold_left n_add (positional_scores hypo) (n_of_int 0))
                 (n_of_int (Z.of_nat (length (tokens hypo))))).
Proof.
  intros Hinit Hinp Hn Hms Hatt Hlast Hasm Hlen. split.
  - intros HV.
    by apply (ensemble_refused tgt_pad tgt_eos sb ca a self models os w inp
                first rest f B T V ashape).
  - intros HV.
    destruct (ensemble_run tgt_pad tgt_eos sb ca a self models os w inp
                first rest f B T V ashape Hinit Hinp Hn Hms Hatt Hlast HV
                Hasm Hlen) as (hypos & avg & Hrun & Hhl & _ & Havg & Hfields).
    eexists hypos, _, avg. split; first exact Hrun.
    split; first exact Hhl. split; first exact Havg.
    intros i trow row Htrow Hrow.
    destruct (Hfields i trow row Htrow Hrow)
      as (hypo & Hh & Htok & Hpos & Hscore).
    exists hypo. split; first exact Hh. split; first exact Htok.
    split; [exact Hpos | exact Hscore].
Qed.

End MembersFacts.

Lemma toy_scores_as (lp : bool) (k : Z) :
  Ensemble.scores_as lp
    {| Scorer.src_tokens := Examples.toy_target;
       Scorer.src_lengths := [3; 3] |}
    Examples.toy_target 2 3 (Examples.toy_model 100 k) (Cases.toy_output k).
Proof.
  split; first reflexivity. split; first reflexivity.
  apply toy_well_shaped.
Qed.

(** Two models on the toy batch of 6 positions, ceiling 4: each is run
    once and normalises twice. *)
Lemma generate_calls_witness :
  Scorer.w_calls
    (Scorer.generate 0%R Examples.no_alignment Examples.toy_scorer
       [Examples.toy_model 100 0; Examples.toy_model 100 7] None
       Examples.toy_world).2
  = [Scorer.Forward 0; Scorer.Normalize 0; Scorer.Normalize 0;
     Scorer.Forward 1; Scorer.Normalize 1; Scorer.Normalize 1].
Proof.
  rewrite (generate_calls 0%R Examples.no_alignment
             1 2 (Some 4) false Examples.args0 Examples.toy_scorer
             [Examples.toy_model 100 0; Examples.toy_model 100 7]
             [Cases.toy_output 0; Cases.toy_output 7] Examples.toy_world
             {| Scorer.src_tokens := Examples.toy_target;
                Scorer.src_lengths := [3; 3] |} 2 3 [[]; []]).
  - reflexivity.
  - reflexivity.
  - reflexivity.
  - constructor; first apply toy_scores_as.
    constructor; [apply toy_scores_as | constructor].
  - constructor; first (intros att [=]).
    constructor; [intros att [=] | constructor].
Defined.

(** Two models on the toy batch. *)
Lemma ensemble_mean_scores_witness :
  exists hypos w',
    Scorer.generate 0%R Examples.no_alignment Examples.toy_scorer
      [Examples.toy_model 100 0; Examples.toy_model 100 7] None
      Examples.toy_world = (Ok hypos, w') /\
    length hypos = 2%nat.
Proof.
  destruct (ensemble_mean_scores 0%R Examples.no_alignment
              1 2 (Some 4) false Examples.args0 Examples.toy_scorer
              [Examples.toy_model 100 0; Examples.toy_model 100 7]
              [Cases.toy_output 0; Cases.toy_output 7] Examples.toy_world
              {| Scorer.src_tokens := Examples.toy_target;
                 Scorer.src_lengths := [3; 3] |}
              (Examples.logits 100 7) Examples.toy_extra (fun row => row)
              2 3 100 [[]; []])
    as [_ Hlarge].
  - reflexivity.
  - reflexivity.
  - simpl. lia.
  - constructor; first apply toy_scores_as.
    constructor; [apply toy_scores_as | constructor].
  - constructor; first (intros att [=]).
    constructor; [intros att [=] | constructor].
  - reflexivity.
  - apply toy_assembles.
  - simpl. lia.
  - destruct (Hlarge ltac:(lia)) as (hypos & w' & avg & Hrun & Hlen & _).
    exists hypos, w'. split; [exact Hrun | exact Hlen].
Defined.

(** ** The ceiling of the softmax batch does not change the result *)

Section CeilingFacts.
Context {R : Type} `{Numeric R}.
Variable uninit : R.
Variable extract_hard_alignment :
  list (list R) -> list Z -> list Z -> Z -> Z -> list Z.
Import Scorer.

(** What the constructor fixes besides the ceiling. *)
Lemma init_fields tgt_pad tgt_eos sb ca (a : Args R) self :
  init tgt_pad tgt_eos sb ca a = Ok self ->
  pad self = tgt_pad /\ eos self = tgt_eos /\
  compute_alignment self = ca /\ args self = a.
Proof.
  unfold init. intros Hinit.
  destruct (_ >? 0); last done. by injection Hinit as <-.
Qed.

Lemma alike_ret {A} smp (a : A) : Outcome.alike smp (ret a) (ret a).
Proof. by intros w1 w2 H1 H2. Qed.

Lemma alike_throw {A} smp e :
  Outcome.alike (A := A) smp (throw e) (throw e).
Proof. by intros w1 w2 H1 H2. Qed.

Lemma alike_lift {A} smp (r : result A) : Outcome.alike smp (lift r) (lift r).
Proof. by intros w1 w2 H1 H2. Qed.

Lemma alike_log_call smp c : Outcome.alike smp (log_call c) (log_call c).
Proof. by intros w1 w2 H1 H2. Qed.

Lemma alike_bind {A B} smp (m1 m2 : prog world A) (f1 f2 : A -> prog world B) :
  Outcome.alike smp m1 m2 ->
  (forall a, Outcome.alike smp (f1 a) (f2 a)) ->
  Outcome.alike smp (bind m1 f1) (bind m2 f2).
Proof.
  intros Hm Hf w1 w2 H1 H2. unfold bind.
  destruct (Hm w1 w2 H1 H2) as (Hres & Hs1 & Hs2).
  destruct (m1 w1) as [[a1|e1] u1]; destruct (m2 w2) as [[a2|e2] u2];
    simpl in Hres, Hs1, Hs2; simplify_eq; try done.
  by apply Hf.
Qed.

Lemma alike_bind_ok {A B} smp (a : A) (f1 f2 : A -> prog world B) :
  Outcome.alike smp (f1 a) (f2 a) ->
  Outcome.alike smp (bind (lift (Ok a)) f1) (bind (lift (Ok a)) f2).
Proof. intros Hf w1 w2 H1 H2. by apply Hf. Qed.

Lemma map_r_ext {X Y} (g1 g2 : X -> result Y) (l : list X) :
  (forall x, g1 x = g2 x) -> map_r g1 l = map_r g2 l.
Proof.
  intros Hg. induction l as [|x l IH]; first done.
  simpl. by rewrite Hg, IH.
Qed.

Lemma alike_bind_get {B} smp (f1 f2 : world -> prog world B) :
  (forall w1 w2, w_sample w1 = smp -> w_sample w2 = smp ->
                 Outcome.alike smp (f1 w1) (f2 w2)) ->
  Outcome.alike smp (bind get f1) (bind get f2).
Proof. intros Hf w1 w2 H1 H2. by apply Hf. Qed.

Lemma alike_for_each {X A} smp (body1 body2 : A -> X -> prog world A) xs :
  (forall a x, x ∈ xs -> Outcome.alike smp (body1 a x) (body2 a x)) ->
  forall a, Outcome.alike smp (for_each body1 xs a) (for_each body2 xs a).
Proof.
  induction xs as [|x xs IH]; intros Hbody a; simpl.
  - apply alike_ret.
  - apply alike_bind.
    + apply Hbody. by left.
    + intros a'. apply IH. intros a'' x' Hx'. apply Hbody. by right.
Qed.

Ltac alike_step :=
  first
    [ apply alike_ret | apply alike_throw | apply alike_lift
    | apply alike_log_call
    | apply alike_bind; [|intros ?]
    | match goal with
      | |- Outcome.alike _ (if ?b then _ else _) (if ?b then _ else _) =>
          destruct b
      | |- Outcome.alike _ (let '(_, _) := ?p in _) (let '(_, _) := ?p in _) =>
          destruct p
      | |- Outcome.alike _ (match ?o with Some _ => _ | None => _ end)
                         (match ?o with Some _ => _ | None => _ end) =>
          destruct o
      end ].

Section Alike.
Variables self1 self2 : SequenceScorer R.
Hypothesis Hpad : pad self1 = pad self2.
Hypothesis Heos : eos self1 = eos self2.
Hypothesis Hca : compute_alignment self1 = compute_alignment self2.
Hypothesis Hargs : args self1 = args self2.
Hypothesis HM1 : 0 < softmax_batch self1.
Hypothesis HM2 : 0 < softmax_batch self2.

Lemma key_states_alike rest : key_states self1 rest = key_states self2 rest.
Proof using Hargs. unfold key_states. by rewrite Hargs. Qed.

Lemma hypo_of_alike sample avg_probs avg_attn topk_tokens dec start_idxs i :
  hypo_of extract_hard_alignment self1 sample avg_probs avg_attn topk_tokens
          dec start_idxs i
  = hypo_of extract_hard_alignment self2 sample avg_probs avg_attn
            topk_tokens dec start_idxs i.
Proof using Hpad Heos Hca Hargs.
  unfold hypo_of. by rewrite Hpad, Heos, Hca, Hargs, key_states_alike.
Qed.

(** The retrieval branch reads the sample and logs its query. *)
Lemma fuse_knn_alike smp n dstore rest orig probs full_probs :
  Outcome.alike smp
    (fuse_knn self1 n dstore rest orig probs full_probs)
    (fuse_knn self2 n dstore rest orig probs full_probs).
Proof using Hpad Hargs.
  unfold fuse_knn. rewrite key_states_alike, Hpad, Hargs.
  apply alike_bind; first apply alike_lift. intros queries.
  destruct (negb (n =? 1)%nat); first apply alike_throw.
  apply alike_bind; first apply alike_lift. intros tgt_t.
  apply alike_bind; first apply alike_lift. intros lm_probs.
  apply alike_bind_get. intros w1 w2 -> Hw2. rewrite Hw2.
  repeat alike_step.
Qed.

Lemma model_body_alike (B T : nat) n knn inp k (model : Model R)
      (o : Ensemble.output) (acc : ens_acc R) smp :
  Ensemble.scores_as (n =? 1)%nat inp (target smp) B T model o ->
  Outcome.alike smp
    (model_body uninit self1 n knn inp (target smp) acc (k, model))
    (model_body uninit self2 n knn inp (target smp) acc (k, model)).
Proof using Hpad Hargs HM1 HM2.
  destruct o as [[[first rest] f] v].
  intros (Hfwd & Hrow & Hws) w1 w2 Hw1 Hw2.
  rewrite (model_body_scored uninit B T v first f _ Hws self1 model k n
             rest HM1 Hrow knn inp acc w1 Hfwd ltac:(by rewrite Hw1)).
  rewrite (model_body_scored uninit B T v first f _ Hws self2 model k n
             rest HM2 Hrow knn inp acc w2 Hfwd ltac:(by rewrite Hw2)).
  match goal with
  | |- (?K1 ?u1).1 = (?K2 ?u2).1 /\ _ =>
      assert (Outcome.alike smp K1 K2) as HK
  end.
  { apply alike_bind.
    - destruct knn as [dstore|]; [apply fuse_knn_alike | apply alike_ret].
    - intros pf. repeat alike_step. }
  by apply HK.
Qed.

End Alike.


End CeilingFacts.


(** ** Word statistics *)

Section WordStatFacts.
Context {R : Type} `{Numeric R}.
Context {Char : Type} `{EqDecision Char}.
Import Words.

Lemma add_all_from (obs : list (R * option R)) :
  forall ws0 : WordStat R Char,
    let ws := fold_left (fun ws o => add ws o.1 o.2) obs ws0 in
    word ws = word ws0 /\
    is_bpe ws = is_bpe ws0 /\
    count ws = count ws0 + Z.of_nat (length obs) /\
    missing_next_words ws
    = missing_next_words ws0
      + Z.of_nat (length obs) - Z.of_nat (length (omap snd obs)) /\
    log_prob ws = fold_left n_add (fst <$> obs) (log_prob ws0) /\
    next_word_prob ws = fold_left n_add (omap snd obs) (next_word_prob ws0).
Proof.
  induction obs as [|[p [np|]] obs IH]; intros ws0; cbv zeta.
  - simpl. repeat split; lia.
  - destruct (IH (add ws0 p (Some np))) as (Hw & Hb & Hc & Hm & Hl & Hn).
    cbv zeta in *. cbn [fold_left fst snd].
    rewrite Hw, Hb, Hc, Hm, Hl, Hn.
    change (omap snd ((p, Some np) :: obs)) with (np :: omap snd obs).
    rewrite fmap_cons.
    cbn [length fold_left add word is_bpe count missing_next_words
         log_prob next_word_prob fst].
    repeat split; try done; lia.
  - destruct (IH (add ws0 p None)) as (Hw & Hb & Hc & Hm & Hl & Hn).
    cbv zeta in *. cbn [fold_left fst snd].
    rewrite Hw, Hb, Hc, Hm, Hl, Hn.
    change (omap snd ((p, None) :: obs)) with (omap snd obs).
    rewrite fmap_cons.
    cbn [length fold_left add word is_bpe count missing_next_words
         log_prob next_word_prob fst].
    repeat split; try done; lia.
Qed.

(** X14. A [WordStat] built for a word and fed its occurrences: it counts
    them, sums their log-probabilities, sums the next-word
    probabilities that were known and counts the missing ones, so that
    the last value of its line is the number of known ones; the word and
    its flag are those it was built with. *)
Theorem wordstat_add_all (w : list Char) (b : bool)
    (obs : list (R * option R)) :
  let ws := fold_left (fun ws o => add ws o.1 o.2) obs (init w b) in
  count ws = Z.of_nat (length obs) /\
  missing_next_words ws
  = Z.of_nat (length (filter (fun o => o.2 = None) obs)) /\
  str_fields ws
  = (w, Z.of_nat (length obs),
     fold_left n_add (fst <$> obs) (n_of_int 0), b,
     fold_left n_add (omap snd obs) (n_of_int 0),
     Z.of_nat (length (omap snd obs))).
Proof.
  destruct (add_all_from obs (init w b)) as (Hw & Hb & Hc & Hm & Hl & Hn).
  cbv zeta in *. simpl in Hw, Hb, Hc, Hm, Hl, Hn.
  assert (length obs
          = (length (omap snd obs)
             + length (filter (fun o : R * option R => o.2 = None) obs))%nat)
    as Hsplit.
  { clear. induction obs as [|[p [np|]] obs IH]; first done.
    - rewrite filter_cons_False by (simpl; congruence).
      change (omap snd ((p, Some np) :: obs)) with (np :: omap snd obs).
      cbn [length]. lia.
    - rewrite filter_cons_True by done.
      change (omap snd ((p, None) :: obs)) with (omap snd obs).
      cbn [length]. lia. }
  split; first lia. split; first lia.
  unfold str_fields. rewrite Hw, Hb, Hc, Hm, Hl, Hn.
  repeat f_equal; lia.
Qed.

End WordStatFacts.

(** ** The continuation marker *)

Section MarkerFacts.
Context {Char : Type} `{EqDecision Char}.
Variable is_space : Char -> bool.
Variable dict_len : Z.
Variable symbol : Z -> list Char.
Import Words.

(** [rstrip] cuts the trailing white space, all of it and nothing
    else. *)
Lemma rstrip_spec (s : list Char) :
  exists trailing,
    s = rstrip is_space s ++ trailing /\
    Forall (fun c => is_space c = true) trailing /\
    (forall c, last (rstrip is_space s) = Some c -> is_space c = false).
Proof.
  induction s as [|c s (trailing & Hs & Hall & Hlast)].
  - exists []. by repeat split.
  - simpl. destruct (rstrip is_space s) as [|c' t] eqn:Hr.
    + destruct (is_space c) eqn:Hc.
      * exists (c :: trailing). simpl in Hs. subst s.
        split; first done. split; last done. by constructor.
      * exists trailing. simpl in Hs. subst s.
        split; first done. split; first done.
        intros c0 [= <-]. done.
    + exists trailing. split; first (rewrite Hs at 1; done).
      split; first done. intros c0 Hc0. apply Hlast.
      by rewrite last_cons_cons in Hc0.
Qed.

(** X15. The set-up for a continuation marker [s] other than
    ['sentencepiece']: the marker is [s] without its trailing white
    space, [bpe_len] is its length, and the continuation tokens are the
    indices of the dictionary whose symbol ends with the marker, each of
    them a symbol at least as long as the marker; ['sentencepiece'] is
    refused, and without a marker there are no continuation tokens. *)
Theorem bpe_setup_marker (s : list Char) :
  let bpe_cont := rstrip is_space s in
  (exists trailing,
     s = bpe_cont ++ trailing /\
     Forall (fun c => is_space c = true) trailing /\
     (forall c, last bpe_cont = Some c -> is_space c = false)) /\
  (exists bpe_toks,
     bpe_setup is_space dict_len symbol (Some (Some s))
     = Ok (Some bpe_toks, Z.of_nat (length bpe_cont)) /\
     forall i, i ∈ bpe_toks <->
               0 <= i < dict_len /\ bpe_cont `suffix_of` symbol i) /\
  (forall bpe_toks bpe_len i,
     bpe_setup is_space dict_len symbol (Some (Some s))
     = Ok (Some bpe_toks, bpe_len) ->
     i ∈ bpe_toks -> 0 <= bpe_len <= Z.of_nat (length (symbol i))) /\
  bpe_setup is_space dict_len symbol (Some None) = Raise NotImplementedError /\
  bpe_setup is_space dict_len symbol None = Ok (None, 0).
Proof.
  intros bpe_cont.
  assert (Hmem : forall i,
            i ∈ (list_to_set
                   (filter (fun i => bpe_cont `suffix_of` symbol i)
                           (Z.of_nat <$> seq 0 (Z.to_nat dict_len)))
                 : gset Z) <->
            0 <= i < dict_len /\ bpe_cont `suffix_of` symbol i).
  { intros i. rewrite elem_of_list_to_set, list_elem_of_filter.
    rewrite list_elem_of_fmap. split.
    - intros (Hsuf & k & -> & Hk). apply elem_of_seq in Hk.
      split; [lia | done].
    - intros (Hi & Hsuf). split; first done.
      exists (Z.to_nat i). split; first lia. apply elem_of_seq. lia. }
  split; first apply rstrip_spec.
  split; first (eexists; split; [reflexivity | exact Hmem]).
  split; last done.
  intros bpe_toks bpe_len i Hrun Hi. unfold bpe_setup in Hrun.
  injection Hrun as <- <-. apply Hmem in Hi as (_ & Hsuf).
  apply suffix_length in Hsuf. fold bpe_cont. lia.
Qed.

End MarkerFacts.

(** ** The word block *)

Section WordBlockFacts.
Context {R : Type} `{Numeric R}.
Context {Char : Type} `{EqDecision Char}.
Variable symbol : Z -> list Char.
Variable bpe_toks : option (gset Z).
Variable bpe_len : Z.
Import Words.

Local Abbreviation step tokens pos_scores :=
  (fun (acc : result (block R Char)) (i : nat) =>
     rbind acc (fun b => word_step symbol bpe_toks bpe_len tokens
                                   pos_scores b i)).

(** A continuation piece at least as long as the marker. *)
Local Abbreviation piece :=
  (fun tok => continues bpe_toks tok /\
              0 < bpe_len <= Z.of_nat (length (symbol tok))).

Lemma continues_decide tok :
  continues bpe_toks tok ->
  match bpe_toks with
  | Some toks => bool_decide (tok ∈ toks)
  | None => false
  end = true.
Proof.
  unfold continues. destruct bpe_toks as [toks|]; last done.
  intros Hin. by rewrite bool_decide_true.
Qed.

Lemma final_decide tok :
  ~ continues bpe_toks tok ->
  match bpe_toks with
  | Some toks => bool_decide (tok ∈ toks)
  | None => false
  end = false.
Proof.
  unfold continues. destruct bpe_toks as [toks|]; last done.
  intros Hin. by rewrite bool_decide_false.
Qed.

(** [w[:-bpe_len]] cuts the marker of the piece just appended. *)
Lemma strip_marker (w0 : list Char) tok :
  0 < bpe_len <= Z.of_nat (length (symbol tok)) ->
  Py.upto (w0 ++ symbol tok) (- bpe_len) = w0 ++ stem symbol bpe_len tok.
Proof.
  intros Hlen. unfold Py.upto, Py.slice, Py.slice_index, stem.
  rewrite length_app.
  destruct (Z.ltb_spec 0 0) as [?|_]; first lia.
  destruct (Z.ltb_spec (- bpe_len) 0) as [_|?]; last lia.
  replace (Z.to_nat (Z.min 0 _)) with 0%nat by lia.
  rewrite drop_0.
  replace (Z.to_nat _)
    with (length w0 + (length (symbol tok) - Z.to_nat bpe_len))%nat by lia.
  by rewrite take_app_add.
Qed.

Lemma next_prob_value (pos_scores : list R) :
  forall left ind,
    (ind + left <= length pos_scores)%nat ->
    next_prob_from left pos_scores ind
    = Ok (next_nonzero (take left (drop ind pos_scores))).
Proof.
  induction left as [|left IH]; intros ind Hlen; first done.
  destruct (lookup_lt_is_Some_2 pos_scores ind ltac:(lia)) as [p Hp].
  simpl. rewrite Hp. simpl.
  rewrite (drop_S _ _ _ Hp). simpl.
  unfold next_nonzero. rewrite filter_cons.
  destruct (n_is_zero p) eqn:Hz.
  - rewrite decide_False by done. apply IH. lia.
  - by rewrite decide_True.
Qed.

Lemma length_snoc_inv {A} (l : list A) (n : nat) :
  length l = S n -> exists ys p, l = ys ++ [p] /\ length ys = n.
Proof.
  intros Hl. destruct l as [|x l _] using rev_ind; first done.
  exists l, x. split; first done.
  rewrite length_app in Hl. simpl in Hl. lia.
Qed.

(** The passes over the pieces of one word. *)
Lemma block_pieces pos_scores (pieces : list Z) :
  forall (pre_t post_t : list Z) (b : block R Char),
    Forall piece pieces ->
    fold_left (step (pre_t ++ pieces ++ post_t) pos_scores)
              (seq (length pre_t) (length pieces)) (Ok b)
    = Ok {| w := w b ++ concat (stem symbol bpe_len <$> pieces);
            word_prob := word_prob b;
            w_is_bpe := if pieces is [] then w_is_bpe b else true;
            stats := stats b |}.
Proof.
  induction pieces as [|tok pieces IH]; intros pre_t post_t b Hall.
  - simpl. rewrite app_nil_r. by destruct b.
  - apply Forall_cons in Hall as [[Hcont Hlen] Hall].
    cbn [length seq fold_left rbind]. unfold word_step at 2.
    rewrite lookup_app_r, Nat.sub_diag by lia.
    cbn [app lookup list_lookup of_option rbind].
    rewrite (continues_decide tok Hcont), strip_marker by done.
    replace (pre_t ++ tok :: pieces ++ post_t)
      with ((pre_t ++ [tok]) ++ pieces ++ post_t)
      by (by rewrite <- app_assoc).
    replace (S (length pre_t)) with (length (pre_t ++ [tok]))
      by (rewrite length_app; simpl; lia).
    rewrite IH by done. cbn [w word_prob w_is_bpe stats].
    rewrite fmap_cons. cbn [concat]. rewrite <- app_assoc.
    by destruct pieces.
Qed.

Lemma groups_lengths (gs : list group) (sgs : list (list R)) :
  Forall2 (fun (g : group) sg => length sg = S (length g.1)) gs sgs ->
  length (concat sgs) = length (tokens_of gs).
Proof.
  unfold tokens_of. induction 1 as [|g sg gs sgs Hsg _ IH]; first done.
  rewrite fmap_cons. simpl. rewrite !length_app, IH, Hsg. simpl. lia.
Qed.

(** The passes over the words of a hypothesis. *)
Lemma block_groups (trailing : list Z) (rest : list R)
      (gs : list group) :
  forall (sgs : list (list R)) (pre_t : list Z) (pre_s : list R)
         (b : block R Char),
    Forall2 (fun (g : group) sg => length sg = S (length g.1)) gs sgs ->
    Forall (fun g : group => Forall piece g.1 /\ ~ continues bpe_toks g.2)
           gs ->
    length rest = length trailing ->
    length pre_s = length pre_t ->
    w b = [] -> w_is_bpe b = false ->
    let obs := observations symbol bpe_len gs sgs rest in
    fold_left (step (pre_t ++ tokens_of gs ++ trailing)
                    (pre_s ++ concat sgs ++ rest))
              (seq (length pre_t) (length (tokens_of gs))) (Ok b)
    = Ok {| w := [];
            word_prob := word_prob b
                         ++ ((fun o : list Char * bool * R * option R =>
                                (o.1.1.1, o.1.2)) <$> obs);
            w_is_bpe := false;
            stats := fold_left
                       (fun st (o : list Char * bool * R * option R) =>
                          setdefault_add st o.1.1.1 o.1.1.2 o.1.2 o.2)
                       obs (stats b) |}.
Proof.
  induction gs as [|[pieces final] gs IH];
    intros sgs pre_t pre_s b Hlen Hgs Hrest Hpre Hw Hflag obs.
  - apply Forall2_nil_inv_l in Hlen as ->. subst obs. simpl.
    rewrite app_nil_r. destruct b; simpl in *; by subst.
  - apply Forall2_cons_inv_l in Hlen as (sg & sgs' & Hsg & Hlen & ->).
    apply Forall_cons in Hgs as [[Hp Hf] Hgs]. simpl in Hsg, Hp, Hf.
    destruct (length_snoc_inv sg (length pieces) Hsg) as (ys & p & -> & Hys).
    unfold tokens_of. rewrite fmap_cons. cbn [concat fst snd].
    fold (tokens_of gs).
    rewrite !length_app. cbn [length].
    rewrite <- !Nat.add_assoc, !seq_app, !fold_left_app.
    rewrite <- !app_assoc.
    rewrite (block_pieces _ pieces pre_t _ b Hp).
    cbn [seq fold_left rbind]. unfold word_step at 2.
    rewrite lookup_app_r by lia.
    rewrite lookup_app_r by lia.
    replace (length pre_t + length pieces - length pre_t - length pieces)%nat
      with 0%nat by lia.
    cbn [app lookup list_lookup of_option rbind].
    rewrite (final_decide final Hf).
    cbn [w word_prob w_is_bpe stats]. rewrite Hw. cbn [app].
    (* the score of the final token *)
    rewrite lookup_app_r by lia.
    rewrite lookup_app_r by lia.
    replace (length pre_t + length pieces - length pre_s - length ys)%nat
      with 0%nat by lia.
    cbn [app lookup list_lookup of_option rbind].
    (* the next score that is not zero *)
    pose proof (groups_lengths gs sgs' Hlen) as Hgl.
    rewrite next_prob_value.
    2:{ repeat first [rewrite length_app | progress cbn [length]]. lia. }
    cbn [rbind].
    replace (drop (S (length pre_t + length pieces))
               (pre_s ++ ys ++ p :: concat sgs' ++ rest))
      with (concat sgs' ++ rest).
    2:{ replace (pre_s ++ ys ++ p :: concat sgs' ++ rest)
          with ((pre_s ++ ys ++ [p]) ++ concat sgs' ++ rest)
          by (by rewrite <- !app_assoc).
        rewrite drop_app_length'; first done.
        rewrite !length_app. simpl. lia. }
    rewrite take_ge.
    2:{ repeat first [rewrite length_app | progress cbn [length]]. lia. }
    replace (pre_t ++ pieces ++ final :: tokens_of gs ++ trailing)
      with ((pre_t ++ pieces ++ [final]) ++ tokens_of gs ++ trailing)
      by (by rewrite <- !app_assoc).
    replace (pre_s ++ ys ++ p :: concat sgs' ++ rest)
      with ((pre_s ++ ys ++ [p]) ++ concat sgs' ++ rest)
      by (by rewrite <- !app_assoc).
    replace (length pre_t + length pieces + 1)%nat
      with (length (pre_t ++ pieces ++ [final]))
      by (rewrite !length_app; simpl; lia).
    rewrite IH; try done.
    2:{ rewrite !length_app. simpl. lia. }
    cbn [w word_prob w_is_bpe stats].
    subst obs. cbn [observations]. rewrite fmap_cons. cbn [fold_left fst snd].
    rewrite last_snoc. cbn [default].
    rewrite <- app_assoc. cbn [app].
    unfold word_of. cbn [fst snd].
    assert ((if pieces is [] then w_is_bpe b else true)
            = bool_decide (pieces <> [])) as ->; last done.
    rewrite Hflag. by destruct pieces.
Qed.

(** X16. A hypothesis read as words, each a run of continuation pieces at
    least as long as the marker and a final token that is not a
    continuation token, followed by trailing pieces: the block returns
    one word per group, the pieces without their marker joined to the
    final token, with the score of the final token; it hands each
    [WordStat] the word, whether it has pieces, that score, and the
    first score after the word that is not zero; the trailing pieces
    are dropped. *)
Theorem word_block_groups (gs : list group) (sgs : list (list R))
    (trailing : list Z) (rest : list R) (stats0 : word_stats R Char) :
  Forall2 (fun (g : group) sg => length sg = S (length g.1)) gs sgs ->
  Forall (fun g : group => Forall piece g.1 /\ ~ continues bpe_toks g.2)
         gs ->
  Forall piece trailing ->
  length rest = length trailing ->
  let obs := observations symbol bpe_len gs sgs rest in
  word_block symbol bpe_toks bpe_len (tokens_of gs ++ trailing)
             (concat sgs ++ rest) stats0
  = Ok ((fun o : list Char * bool * R * option R => (o.1.1.1, o.1.2)) <$> obs,
        fold_left (fun st (o : list Char * bool * R * option R) =>
                     setdefault_add st o.1.1.1 o.1.1.2 o.1.2 o.2)
                  obs stats0).
Proof.
  intros Hlen Hgs Htrail Hrest obs. unfold word_block.
  rewrite length_app, seq_app, fold_left_app.
  pose proof (block_groups trailing rest gs sgs [] []
                {| w := []; word_prob := []; w_is_bpe := false;
                   stats := stats0 |}
                Hlen Hgs Hrest eq_refl eq_refl eq_refl) as Hwords.
  cbv zeta in Hwords. cbn [length app word_prob stats] in Hwords.
  rewrite Hwords. cbn [Nat.add].
  pose proof (block_pieces (concat sgs ++ rest) trailing (tokens_of gs) []
                {| w := [];
                   word_prob :=
                     (fun o : list Char * bool * R * option R =>
                        (o.1.1.1, o.1.2)) <$> obs;
                   w_is_bpe := false;
                   stats := fold_left
                              (fun st (o : list Char * bool * R * option R) =>
                                 setdefault_add st o.1.1.1 o.1.1.2 o.1.2 o.2)
                              obs stats0 |} Htrail) as Hpieces.
  rewrite app_nil_r in Hpieces. fold obs. rewrite Hpieces.
  reflexivity.
Qed.

End WordBlockFacts.

(** ** The dictionary of word statistics *)

Section WordStatsFacts.
Context {R : Type} `{Numeric R}.
Context {Char : Type} `{EqDecision Char}.
Import Words.

(** [setdefault] and [add] on the dictionary of word statistics. *)
Lemma setdefault_add_get (st : word_stats R Char) w0 flag p np k :
  get_word (setdefault_add st w0 flag p np) k
  = if decide (k = w0)
    then Some (add (default (init w0 flag) (get_word st w0)) p np)
    else get_word st k.
Proof.
  induction st as [|[k0 ws] st IH]; simpl.
  - destruct (decide (w0 = k)) as [->|Hne].
    + by rewrite decide_True.
    + by rewrite decide_False by congruence.
  - destruct (decide (k0 = w0)) as [->|Hne]; simpl.
    + destruct (decide (w0 = k)) as [->|Hne'].
      * by rewrite decide_True.
      * by rewrite decide_False by congruence.
    + rewrite IH. destruct (decide (k0 = k)) as [->|Hne']; last done.
      by rewrite decide_False.
Qed.

Lemma setdefault_add_keys (st : word_stats R Char) w0 flag p np :
  NoDup st.*1 ->
  Forall (fun e : list Char * WordStat R Char => word e.2 = e.1) st ->
  NoDup (setdefault_add st w0 flag p np).*1 /\
  Forall (fun e : list Char * WordStat R Char => word e.2 = e.1)
         (setdefault_add st w0 flag p np) /\
  (forall k, k ∈ (setdefault_add st w0 flag p np).*1 <->
             k = w0 \/ k ∈ st.*1).
Proof.
  induction st as [|[k0 ws] st IH]; intros Hnd Hall; simpl.
  - split; first (apply NoDup_singleton).
    split; first (constructor; [by destruct np | done]).
    intros k. rewrite list_elem_of_singleton, elem_of_nil. tauto.
  - apply NoDup_cons in Hnd as [Hnot Hnd].
    apply Forall_cons in Hall as [Hw Hall]. simpl in Hw.
    destruct (decide (k0 = w0)) as [->|Hne]; simpl.
    + split; first by apply NoDup_cons.
      split; first (constructor; [by destruct np | done]).
      intros k. rewrite elem_of_cons. tauto.
    + destruct (IH Hnd Hall) as (Hnd' & Hall' & Hmem).
      split.
      { apply NoDup_cons. split; last done.
        rewrite Hmem. intros [->|Hin]; done. }
      split; first by constructor.
      intros k. rewrite !elem_of_cons, Hmem. tauto.
Qed.

(** X17. The statistics after any number of words: the entry of a word is
    the one it had, or a new one flagged as its first occurrence was,
    fed the occurrences of the word in order; words keep one entry
    each, named after them. *)
Theorem word_stats_entries
    (obs : list (list Char * bool * R * option R))
    (stats0 : word_stats R Char) :
  NoDup stats0.*1 ->
  Forall (fun e : list Char * WordStat R Char => word e.2 = e.1) stats0 ->
  let record := fun st (o : list Char * bool * R * option R) =>
                  setdefault_add st o.1.1.1 o.1.1.2 o.1.2 o.2 in
  let stats1 := fold_left record obs stats0 in
  NoDup stats1.*1 /\
  Forall (fun e : list Char * WordStat R Char => word e.2 = e.1) stats1 /\
  forall k,
    get_word stats1 k
    = match filter (fun o : list Char * bool * R * option R => o.1.1.1 = k)
                   obs with
      | [] => get_word stats0 k
      | o :: os =>
          Some (fold_left (fun ws (o : list Char * bool * R * option R) =>
                             add ws o.1.2 o.2)
                          (o :: os)
                          (default (init k o.1.1.2) (get_word stats0 k)))
      end.
Proof.
  revert stats0.
  induction obs as [|[[[w0 flag] p] np] obs IH]; intros stats0 Hnd Hall;
    cbv zeta; first done.
  destruct (setdefault_add_keys stats0 w0 flag p np Hnd Hall)
    as (Hnd1 & Hall1 & _).
  destruct (IH _ Hnd1 Hall1) as (Hnd' & Hall' & Hget). cbv zeta in *.
  cbn [fold_left fst snd].
  split; first done. split; first done.
  intros k. rewrite Hget, filter_cons. cbn [fst].
  rewrite !setdefault_add_get.
  destruct (decide (w0 = k)) as [->|Hne].
  - rewrite decide_True by done. cbn [default fold_left fst snd].
    by destruct (filter _ obs).
  - rewrite decide_False by congruence. done.
Qed.

End WordStatsFacts.

(** The tokens [10; 11; 12] with the marker [@@] of the piece 10: the
    words [abc] and [d]. *)
Lemma word_block_groups_witness :
  let obs := Words.observations Cases.symbols 2 [([10], 11); ([], 12)]
               [[0%R; (-3)%R]; [(-3)%R]] [] in
  Words.word_block Cases.symbols (Some {[10]}) 2 [10; 11; 12]
                   [0%R; (-3)%R; (-3)%R] []
  = Ok ((fun o : list Z * bool * R * option R => (o.1.1.1, o.1.2)) <$> obs,
        fold_left (fun st (o : list Z * bool * R * option R) =>
                     Words.setdefault_add st o.1.1.1 o.1.1.2 o.1.2 o.2)
                  obs []).
Proof.
  assert (Forall (fun g : Words.group =>
                    Forall (fun tok =>
                              Words.continues (Some {[10]}) tok /\
                              0 < 2 <= Z.of_nat (length (Cases.symbols tok)))
                           g.1 /\
                    ~ Words.continues (Some {[10]}) g.2)
                 [([10], 11); ([], 12)]) as Hgs.
  { constructor; last constructor; last constructor.
    - split.
      + constructor; last constructor.
        split; first (unfold Words.continues; apply elem_of_singleton;
                      reflexivity).
        simpl. lia.
      + unfold Words.continues. intros Hin%elem_of_singleton.
        discriminate Hin.
    - split; first constructor.
      unfold Words.continues. intros Hin%elem_of_singleton.
        discriminate Hin. }
  exact (word_block_groups Cases.symbols (Some {[10]}) 2
           [([10], 11); ([], 12)] [[0%R; (-3)%R]; [(-3)%R]] [] [] []
           ltac:(repeat constructor) Hgs ltac:(constructor) eq_refl).
Defined.

(** The word [c] seen twice, the first time followed by a score. *)
Lemma word_stats_entries_witness :
  Words.count
    <$> Words.get_word
          (fold_left (fun st (o : list Z * bool * R * option R) =>
                        Words.setdefault_add st o.1.1.1 o.1.1.2 o.1.2 o.2)
                     [([99], false, (-1)%R, Some (-2)%R);
                      ([99], false, (-2)%R, None)] [])
          [99]
  = Some 2.
Proof.
  destruct (word_stats_entries
              [([99], false, (-1)%R, Some (-2)%R);
               ([99], false, (-2)%R, None)] []
              ltac:(constructor) ltac:(constructor)) as (_ & _ & Hget).
  rewrite (Hget [99]). reflexivity.
Defined.

(** ** Folding and the word block together, in exact arithmetic *)

Section FoldedWords.
Context {Char : Type} `{EqDecision Char}.
Variable symbol : Z -> list Char.
Variable toks : gset Z.
Variable bpe_len : Z.
Import Words.
Local Open Scope R_scope.

Lemma total_sum (sg : list R) : sg <> [] -> total sg = n_sum sg.
Proof.
  destruct sg as [|x ys]; first done. intros _.
  rewrite n_sum_cons. unfold total.
  change (fun c y : R => n_add y c) with (fun c y : R => y + c).
  revert x. induction ys as [|y ys IH]; intros x; simpl.
  - unfold n_sum. simpl. lra.
  - rewrite IH, n_sum_cons. lra.
Qed.

Lemma nonzero_zeros (n : nat) (l : list R) :
  filter (fun p : R => n_is_zero p = false) (replicate n n_zero ++ l)
  = filter (fun p : R => n_is_zero p = false) l.
Proof.
  induction n as [|n IH]; first done.
  cbn [replicate app]. rewrite filter_cons_False; first done.
  unfold n_zero. simpl. destruct (Req_dec_T 0 0); [discriminate | lra].
Qed.

Lemma nonzero_folded (sgs : list (list R)) :
  Forall (fun sg : list R => sg <> []) sgs ->
  filter (fun p : R => n_is_zero p = false) (concat (folded <$> sgs))
  = filter (fun p : R => n_is_zero p = false) (total <$> sgs).
Proof.
  induction 1 as [|sg sgs Hsg _ IH]; first done.
  destruct sg as [|x ys]; first done.
  rewrite !fmap_cons. cbn [concat]. unfold folded at 1.
  rewrite <- app_assoc, nonzero_zeros. cbn [app].
  rewrite !filter_cons, IH. done.
Qed.

Lemma observations_folded (gs : list group) :
  forall sgs : list (list R),
    Forall2 (fun (g : group) sg => length sg = S (length g.1)) gs sgs ->
    observations symbol bpe_len gs (folded <$> sgs) []
    = records symbol bpe_len gs (n_sum <$> sgs).
Proof.
  induction gs as [|g gs IH]; intros sgs Hlen.
  - by apply Forall2_nil_inv_l in Hlen as ->.
  - apply Forall2_cons_inv_l in Hlen as (sg & sgs' & Hsg & Hlen & ->).
    assert (Forall (fun sg : list R => sg <> []) sgs') as Hne.
    { clear -Hlen. induction Hlen as [|g' sg' ? ? Hl _ IH']; first done.
      constructor; last done. by destruct sg'. }
    rewrite !fmap_cons. cbn [observations records]. rewrite (IH _ Hlen).
    f_equal. f_equal; first f_equal.
    + destruct sg as [|x ys]; first done.
      rewrite <- total_sum by done. unfold folded.
      by rewrite last_snoc.
    + unfold next_nonzero. rewrite app_nil_r, nonzero_folded by done.
      do 2 f_equal. apply Forall_fmap_ext_1.
      eapply Forall_impl; first exact Hne.
      intros sg' Hsg'. by apply total_sum.
Qed.

(** X18. With the continuation marker removed, the words of a hypothesis
    are scored as wholes: the folding of the scores followed by the
    word block lists every word, its pieces joined without their
    marker, with the sum of the scores of its tokens, and hands the
    statistics of the word that sum and, as the score of the next
    word, the sum of the first later word whose sum is not zero. *)
Theorem folded_word_scores (gs : list group) (sgs : list (list R))
    (stats0 : word_stats R Char) :
  Forall2 (fun (g : group) sg => length sg = S (length g.1)) gs sgs ->
  Forall (fun g : group =>
            Forall (fun tok => tok ∈ toks /\
                               (0 < bpe_len
                                <= Z.of_nat (length (symbol tok)))%Z) g.1 /\
            g.2 ∉ toks) gs ->
  let recs := records symbol bpe_len gs (n_sum <$> sgs) in
  exists ps : list R,
    Driver.fold_bpe toks (Z.of_nat (length (tokens_of gs)))
                    (tokens_of gs) (concat sgs)
    = Ok (Z.of_nat (length (concat gs.*1)), ps) /\
    word_block symbol (Some toks) bpe_len (tokens_of gs) ps stats0
    = Ok ((fun o : list Char * bool * R * option R => (o.1.1.1, o.1.2))
            <$> recs,
          fold_left (fun st (o : list Char * bool * R * option R) =>
                       setdefault_add st o.1.1.1 o.1.1.2 o.1.2 o.2)
                    recs stats0).
Proof.
  intros Hlen Hgs recs. exists (concat (folded <$> sgs)). split.
  - unfold Driver.fold_bpe.
    replace (Z.to_nat (Z.of_nat (length (tokens_of gs)) - 1))
      with (length (tokens_of gs) - 1)%nat by lia.
    destruct gs as [|g gs].
    + apply Forall2_nil_inv_l in Hlen as ->. done.
    + assert (Forall (fun g : group => Forall (fun tok => tok ∈ toks) g.1)
                     (g :: gs)) as Hpieces.
      { eapply Forall_impl; first exact Hgs. intros g' [Hp _].
        eapply Forall_impl; first exact Hp. by intros tok [Hin _]. }
      assert (Forall (fun g : group => g.2 ∉ toks)
                     (take (length (g :: gs) - 1) (g :: gs))) as Hfinal.
      { apply Forall_take. eapply Forall_impl; first exact Hgs.
        by intros g' [_ Hf]. }
      pose proof (bpe_groups toks (g :: gs) sgs [] [] 0 ltac:(done)
                    Hlen Hpieces Hfinal eq_refl) as Hrun.
      simpl in Hrun. simpl. by rewrite Hrun.
  - assert (Forall2 (fun (g : group) sg => length sg = S (length g.1))
                    gs (folded <$> sgs)) as Hlen'.
    { clear -Hlen. induction Hlen as [|g sg ? ? Hl _ IH]; first done.
      rewrite fmap_cons. constructor; last done.
      destruct sg as [|x ys]; first done. unfold folded.
      rewrite length_app, length_replicate. simpl. simpl in Hl. lia. }
    pose proof (block_groups symbol (Some toks) bpe_len [] [] gs
                  (folded <$> sgs) [] []
                  {| w := []; word_prob := []; w_is_bpe := false;
                     stats := stats0 |}
                  Hlen' Hgs eq_refl eq_refl eq_refl eq_refl) as Hwords.
    cbv zeta in Hwords. cbn [length app word_prob stats] in Hwords.
    rewrite !app_nil_r in Hwords.
    unfold word_block. rewrite Hwords. cbn [rmap word_prob stats].
    by rewrite (observations_folded gs sgs Hlen).
Qed.

End FoldedWords.

(** The tokens [10; 11; 12] with the scores -1, -2 and -3: the word
    [abc] is listed with the sum of -1 and -2, the word [d] with -3. *)
Lemma folded_word_scores_witness :
  exists ps : list R,
    Driver.fold_bpe {[10]} 3 [10; 11; 12] [(-1)%R; (-2)%R; (-3)%R]
    = Ok (1, ps) /\
    rmap fst (Words.word_block Cases.symbols (Some {[10]}) 2 [10; 11; 12]
                               ps [])
    = Ok [([97; 98; 99], n_sum [(-1)%R; (-2)%R]); ([100], n_sum [(-3)%R])].
Proof.
  assert (Forall (fun g : Words.group =>
                    Forall (fun tok =>
                              tok ∈ ({[10]} : gset Z) /\
                              0 < 2 <= Z.of_nat (length (Cases.symbols tok)))
                           g.1 /\
                    g.2 ∉ ({[10]} : gset Z))
                 [([10], 11); ([], 12)]) as Hgs.
  { constructor; last constructor; last constructor.
    - split.
      + constructor; last constructor.
        split; first (apply elem_of_singleton; reflexivity).
        simpl. lia.
      + intros Hin%elem_of_singleton. discriminate Hin.
    - split; first constructor.
      intros Hin%elem_of_singleton. discriminate Hin. }
  destruct (folded_word_scores Cases.symbols {[10]} 2
              [([10], 11); ([], 12)] [[(-1)%R; (-2)%R]; [(-3)%R]] []
              ltac:(repeat constructor) Hgs) as (ps & Hfold & Hblock).
  exists ps. split; first exact Hfold.
  change (Words.tokens_of [([10], 11); ([], 12)]) with [10; 11; 12]
    in Hblock.
  rewrite Hblock. reflexivity.
Defined.

(** ** The loss of a corpus, in exact arithmetic *)

Section CorpusFacts.
Variable uninit : R.
Variable extract_hard_alignment :
  list (list R) -> list Z -> list Z -> Z -> Z -> list Z.
Variable astype : bool -> list R -> list R.
Variable a : Driver.Args (R := R).
Variable dict : Driver.Dictionary.
Import Driver.
Local Open Scope R_scope.

Hypothesis no_bos : add_bos_token a = false.
Hypothesis no_bpe : remove_bpe a = None.
Hypothesis no_store : Scorer.save_knnlm_dstore (scorer_args a) = false.

Local Abbreviation counted := (Corpus.counted (R := R)).

Lemma n_sum_app (l1 l2 : list R) : n_sum (l1 ++ l2) = n_sum l1 + n_sum l2.
Proof.
  induction l1 as [|x l1 IH]; simpl.
  - unfold n_sum at 2. simpl. lra.
  - rewrite !n_sum_cons, IH. lra.
Qed.

Lemma all_scores_app (hs1 hs2 : list (Scorer.Hypo R)) :
  Corpus.all_scores (hs1 ++ hs2)
  = Corpus.all_scores hs1 ++ Corpus.all_scores hs2.
Proof.
  unfold Corpus.all_scores. by rewrite fmap_app, concat_app.
Qed.

Lemma counted_nil r r' :
  score_sum r' = score_sum r -> count r' = count r ->
  counted r ([] : list (Scorer.Hypo R)) r'.
Proof.
  intros Hs Hc. split; first done.
  unfold Corpus.all_scores. simpl. lia.
Qed.

Lemma counted_app r r1 r2 (hs1 hs2 : list (Scorer.Hypo R)) :
  counted r hs1 r1 -> counted r1 hs2 r2 -> counted r (hs1 ++ hs2) r2.
Proof.
  intros [Hs1 Hc1] [Hs2 Hc2]. unfold Corpus.counted.
  rewrite all_scores_app, length_app, n_sum_app.
  split; last lia.
  rewrite Hs2, Hs1.
  destruct hs1 as [|h1 hs1], hs2 as [|h2 hs2];
    cbn [app default n_add real_numeric].
  - done.
  - f_equal. change (n_sum (Corpus.all_scores [])) with (IZR 0). lra.
  - f_equal. change (n_sum (Corpus.all_scores [])) with (IZR 0). lra.
  - f_equal. unfold Datatypes.id. lra.
Qed.

Lemma accumulate_plain (hypo : Scorer.Hypo R) (r : run) :
  exists r', accumulate a dict hypo r = (Ok tt, r') /\ counted r [hypo] r'.
Proof using no_bos no_bpe.
  unfold accumulate. rewrite no_bos, no_bpe.
  eexists. split; first reflexivity.
  unfold Corpus.counted. cbn [score_sum count fst snd].
  unfold Corpus.all_scores.
  rewrite fmap_cons, fmap_nil. cbn [concat]. rewrite app_nil_r.
  split; first done. lia.
Qed.

Lemma hypos_loop (sample : Scorer.Sample)
    (ihs : list (nat * list (Scorer.Hypo R))) :
  forall (hypos : list (Scorer.Hypo R)) (r : run),
    Forall2 (fun (ih : nat * list (Scorer.Hypo R)) h =>
               ih.2 !! 0%nat = Some h /\
               is_Some (Scorer.id sample !! ih.1)) ihs hypos ->
    exists r',
      for_each (per_hypo astype a dict sample) ihs tt r = (Ok tt, r') /\
      counted r hypos r'.
Proof using no_bos no_bpe no_store.
  induction ihs as [|[i hs_i] ihs IH]; intros hypos r Hall.
  - apply Forall2_nil_inv_l in Hall as ->. exists r. split; first done.
    by apply counted_nil.
  - apply Forall2_cons_inv_l in Hall
      as (h & hypos' & [Hh [sid Hsid]] & Hall & ->).
    simpl in Hh, Hsid.
    destruct (accumulate_plain h r) as (r1 & Hacc & Hr1).
    destruct (IH hypos' r1 Hall) as (r2 & Hrest & Hr2).
    assert (per_hypo astype a dict sample tt (i, hs_i) r = (Ok tt, r1))
      as Hstep.
    { unfold per_hypo.
      unfold bind at 1. unfold lift at 1. rewrite Hh. cbn [of_option].
      unfold bind at 1. unfold lift at 1. rewrite Hsid. cbn [of_option].
      rewrite no_store. unfold bind at 1. unfold ret at 1. exact Hacc. }
    exists r2. split.
    + cbn [for_each]. unfold bind at 1. rewrite Hstep. exact Hrest.
    + exact (counted_app r r1 r2 [h] hypos' Hr1 Hr2).
Qed.

Lemma logged_counted (es : list event) (r : run) :
  counted r ([] : list (Scorer.Hypo R)) (log_events es r).2.
Proof.
  by apply counted_nil.
Qed.

Lemma indexed_firsts (sample : Scorer.Sample)
    (hs : list (list (Scorer.Hypo R))) :
  forall (hypos : list (Scorer.Hypo R)) (g : nat -> nat),
    Forall2 (fun (hs_i : list (Scorer.Hypo R)) h => hs_i !! 0%nat = Some h)
            hs hypos ->
    (forall i, (i < length hs)%nat ->
               is_Some (Scorer.id sample !! g i)) ->
    Forall2 (fun (ih : nat * list (Scorer.Hypo R)) h =>
               ih.2 !! 0%nat = Some h /\
               is_Some (Scorer.id sample !! ih.1))
            (imap (fun i h => (g i, h)) hs) hypos.
Proof.
  induction hs as [|hs_i hs IH]; intros hypos g Hall Hid.
  - apply Forall2_nil_inv_l in Hall as ->. constructor.
  - apply Forall2_cons_inv_l in Hall as (h & hypos' & Hh & Hall & ->).
    rewrite imap_cons. constructor.
    + split; first done. apply Hid. simpl. lia.
    + apply (IH hypos' (g ∘ S) Hall). intros i Hi. apply Hid. simpl. lia.
Qed.

Lemma per_sample_counted (scorer : Scorer.SequenceScorer R)
    (models : list (Scorer.Model R))
    (knn_dstore : option (Scorer.KNN_Dstore R))
    (ex_i : nat) (sample : Scorer.Sample) (hypos : list (Scorer.Hypo R))
    (r : run) :
  Corpus.scored_as uninit extract_hard_alignment scorer models knn_dstore
                   sample hypos ->
  exists r',
    per_sample uninit extract_hard_alignment astype a dict scorer models
               knn_dstore tt (ex_i, sample) r = (Ok tt, r') /\
    counted r hypos r'.
Proof using no_bos no_bpe no_store.
  unfold Corpus.scored_as, per_sample.
  destruct (Scorer.net_input sample) as [inp|].
  - intros (hs & w & Hgen & Hfirst & Hids). rewrite Hgen.
    pose proof (indexed_firsts (Scorer.w_sample w) hs hypos (fun i => i)
                  Hfirst) as Hihs.
    destruct (hypos_loop (Scorer.w_sample w)
                (imap (fun i h => (i, h)) hs) hypos
                (log_events [Scored ex_i]
                   (log_events (Call ex_i <$> Scorer.w_calls w) r).2).2)
      as (r' & Hloop & Hr').
    { apply Hihs. intros i Hi. apply lookup_lt_is_Some_2. lia. }
    exists r'. split.
    + unfold bind at 1. unfold log_events at 1, modify at 1.
      unfold bind at 1. unfold lift at 1.
      unfold bind at 1. unfold log_events at 1, modify at 1.
      exact Hloop.
    + eapply (counted_app r _ r' [] hypos); last exact Hr'.
      eapply (counted_app r _ _ [] []); apply logged_counted.
  - intros ->. exists r. split; first done. by apply counted_nil.
Qed.

Lemma samples_loop (scorer : Scorer.SequenceScorer R)
    (models : list (Scorer.Model R))
    (knn_dstore : option (Scorer.KNN_Dstore R))
    (es : list (nat * Scorer.Sample)) :
  forall (hyposs : list (list (Scorer.Hypo R))) (r : run),
    Forall2 (fun (e : nat * Scorer.Sample) hypos =>
               Corpus.scored_as uninit extract_hard_alignment scorer models
                                knn_dstore e.2 hypos) es hyposs ->
    exists r',
      for_each (per_sample uninit extract_hard_alignment astype a dict
                           scorer models knn_dstore) es tt r
      = (Ok tt, r') /\
      counted r (concat hyposs) r'.
Proof using no_bos no_bpe no_store.
  induction es as [|[ex_i sample] es IH]; intros hyposs r Hall.
  - apply Forall2_nil_inv_l in Hall as ->. exists r. split; first done.
    by apply counted_nil.
  - apply Forall2_cons_inv_l in Hall as (hypos & hyposs' & Hs & Hall & ->).
    simpl in Hs.
    destruct (per_sample_counted scorer models knn_dstore ex_i sample hypos
                r Hs) as (r1 & Hrun & Hr1).
    destruct (IH hyposs' r1 Hall) as (r2 & Hrest & Hr2).
    exists r2. split.
    + cbn [for_each]. unfold bind at 1. rewrite Hrun. exact Hrest.
    + cbn [concat]. exact (counted_app r r1 r2 _ _ Hr1 Hr2).
Qed.

Lemma indexed_samples (scorer : Scorer.SequenceScorer R)
    (models : list (Scorer.Model R))
    (knn_dstore : option (Scorer.KNN_Dstore R))
    (samples : list Scorer.Sample) :
  forall (hyposs : list (list (Scorer.Hypo R))) (g : nat -> nat),
    Forall2 (Corpus.scored_as uninit extract_hard_alignment scorer models
                              knn_dstore) samples hyposs ->
    Forall2 (fun (e : nat * Scorer.Sample) hypos =>
               Corpus.scored_as uninit extract_hard_alignment scorer models
                                knn_dstore e.2 hypos)
            (imap (fun i s => (g i, s)) samples) hyposs.
Proof.
  induction samples as [|s samples IH]; intros hyposs g Hall.
  - apply Forall2_nil_inv_l in Hall as ->. constructor.
  - apply Forall2_cons_inv_l in Hall as (h & hyposs' & Hh & Hall & ->).
    rewrite imap_cons. constructor; first done.
    apply (IH hyposs' (g ∘ S) Hall).
Qed.


End CorpusFacts.

(** The toy batch scored by two models: the two hypotheses the driver
    reads. *)
Lemma toy_scored :
  exists h0 h1 : Scorer.Hypo R,
    Corpus.scored_as 0%R Examples.no_alignment Examples.toy_scorer
      [Examples.toy_model 100 0; Examples.toy_model 100 7] None
      Examples.toy_sample [h0; h1].
Proof.
  destruct (ensemble_run 0%R Examples.no_alignment
              1 2 (Some 4) false Examples.args0 Examples.toy_scorer
              [Examples.toy_model 100 0; Examples.toy_model 100 7]
              [Cases.toy_output 0; Cases.toy_output 7] Examples.toy_world
              {| Scorer.src_tokens := Examples.toy_target;
                 Scorer.src_lengths := [3; 3] |}
              (Examples.logits 100 7) Examples.toy_extra (fun row => row)
              2 3 100 [[]; []])
    as (hs & avg & Hrun & Hhl & Hal & _ & Hfields).
  - reflexivity.
  - reflexivity.
  - simpl. lia.
  - constructor; first apply toy_scores_as.
    constructor; [apply toy_scores_as | constructor].
  - constructor; first (intros att [=]).
    constructor; [intros att [=] | constructor].
  - reflexivity.
  - lia.
  - apply toy_assembles.
  - simpl. lia.
  - destruct avg as [|r0 [|r1 [|? ?]]]; try discriminate Hal.
    destruct (Hfields 0%nat [5; 6; 1] r0 eq_refl eq_refl)
      as (h0 & Hh0 & _).
    destruct (Hfields 1%nat [7; 1; 1] r1 eq_refl eq_refl)
      as (h1 & Hh1 & _).
    destruct hs as [|x0 [|x1 [|? ?]]]; try discriminate Hhl.
    simpl in Hh0, Hh1. injection Hh0 as ->. injection Hh1 as ->.
    exists h0, h1. unfold Corpus.scored_as. cbn [Scorer.net_input
      Examples.toy_sample].
    eexists _, _. split; first exact Hrun.
    split; first (repeat constructor).
    simpl. lia.
Qed.


(** ** Retrieval fused into the scores of a model *)

Section FusionFacts.
Context {R : Type} `{Numeric R}.
Import Scorer.

Lemma permute10_cells {A} (t : list (list A)) (c : nat) :
  Forall (fun row => length row = c) t ->
  length (hd [] t) = c ->
  exists t',
    Tensor.permute10 t = Ok t' /\
    length t' = c /\
    Forall (fun col => length col = length t) t' /\
    forall i j x, Dist.cell t i j = Some x -> Dist.cell t' j i = Some x.
Proof.
  intros Hrows Hhd. unfold Tensor.permute10. rewrite Hhd.
  destruct (map_r_Forall2
              (fun j => map_r (fun row : list A =>
                                 of_option IndexError (row !! j)) t)
              (fun j col => length col = length t /\
                            forall i row x,
                              t !! i = Some row -> row !! j = Some x ->
                              col !! i = Some x)
              (seq 0 c)) as (t' & Ht' & Hcols).
  { apply Forall_forall. intros j Hj%elem_of_seq.
    destruct (map_r_Forall2
                (fun row : list A => of_option IndexError (row !! j))
                (fun row x => row !! j = Some x) t) as (col & Hcol & Hall).
    { eapply Forall_impl; first exact Hrows. intros row Hlen. simpl in Hlen.
      destruct (lookup_lt_is_Some_2 row j) as [x Hx]; first lia.
      exists x. by rewrite Hx. }
    exists col. split; first exact Hcol.
    split; first by rewrite (Forall2_length _ _ _ Hall).
    intros i row x Hrow Hx.
    destruct (Forall2_lookup_l _ _ _ _ _ Hall Hrow) as (y & Hy & Hrj).
    congruence. }
  exists t'. split; first exact Ht'.
  split. { by rewrite <- (Forall2_length _ _ _ Hcols), length_seq. }
  split.
  { clear -Hcols. induction Hcols as [|j col ? ? [Hl _] _ IH];
      constructor; done. }
  intros i j x. unfold Dist.cell.
  destruct (t !! i) as [row|] eqn:Hrow; last done. simpl. intros Hx.
  assert (j < c)%nat as Hj.
  { rewrite Forall_forall in Hrows.
    rewrite <- (Hrows row) by (by eapply list_elem_of_lookup_2).
    by eapply lookup_lt_Some. }
  destruct (Forall2_lookup_l _ _ _ j j Hcols) as (col & -> & _ & Hcol).
  { by apply lookup_seq. }
  simpl. by apply (Hcol i row).
Qed.

Lemma squeeze_last_cells {A} (t : list (list (list A))) :
  Forall (Forall (fun row => length row = 1%nat)) t ->
  exists s,
    Tensor.squeeze_last t = Ok s /\
    Forall2 (fun (m : list (list A)) (row : list A) =>
               length row = length m) t s /\
    forall i j x, Dist.entry t i j 0 = Some x -> Dist.cell s i j = Some x.
Proof.
  intros Hall. unfold Tensor.squeeze_last.
  set (one := fun row : list A => match row with
                                  | [x] => Ok x
                                  | _ => Raise RuntimeError
                                  end).
  destruct (map_r_Forall2 (map_r one)
              (fun (m : list (list A)) (row : list A) =>
                 Forall2 (fun r x => r = [x]) m row) t) as (s & Hs & Hrel).
  { eapply Forall_impl; first exact Hall. intros m Hm. simpl in Hm.
    apply (map_r_Forall2 one (fun r x => r = [x])).
    eapply Forall_impl; first exact Hm. intros [|x [|? ?]] Hlen;
      simpl in Hlen; try discriminate Hlen. by exists x. }
  exists s. split; first exact Hs. split.
  { clear -Hrel. induction Hrel as [|m row ? ? Hm _ IH]; constructor;
      last done. by rewrite (Forall2_length _ _ _ Hm). }
  intros i j x. unfold Dist.entry, Dist.row, Dist.cell.
  destruct (t !! i) as [m|] eqn:Hm; last done. simpl.
  destruct (Forall2_lookup_l _ _ _ _ _ Hrel Hm) as (row & -> & Hrow).
  simpl. destruct (m !! j) as [r|] eqn:Hr; last done. simpl. intros Hx.
  destruct (Forall2_lookup_l _ _ _ _ _ Hrow Hr) as (y & -> & ->).
  simpl in Hx. by injection Hx as ->.
Qed.

Lemma combine2_cells (lam : R) (knn_p vocab_p : tensor2 R) (b t : nat) :
  Spec.has_shape knn_p b t -> Spec.has_shape vocab_p b t ->
  exists c,
    combine2 knn_p vocab_p lam = Ok c /\
    Spec.has_shape c b t /\
    forall i j k v,
      Dist.cell knn_p i j = Some k -> Dist.cell vocab_p i j = Some v ->
      Dist.cell c i j = Some (combine_scalar lam k v).
Proof.
  intros [Hkl Hkr] [Hvl Hvr].
  assert (forall k v : list R, length k = length v ->
            exists c, combine1 k v lam = Ok c) as Hrow.
  { intros k. induction k as [|x k IH]; intros [|y v] Hlen;
      simplify_eq/=; first by eexists.
    destruct (IH v Hlen) as [c Hc]. unfold combine1 in *. simpl.
    rewrite Hc. by eexists. }
  destruct (zip_r_total (fun k v => combine1 k v lam)
              (fun k v : list R => length k = length v) Hrow knn_p vocab_p)
    as [c Hc].
  { apply Forall2_same_length_lookup_2; first congruence.
    intros i k v Hk Hv. rewrite Forall_forall in Hkr. rewrite Forall_forall in Hvr.
    rewrite (Hkr k), (Hvr v); first done;
      by eapply list_elem_of_lookup_2. }
  exists c. unfold combine2. split; first exact Hc.
  destruct (zip_r_lengths _ _ _ _ Hc) as [Hl1 Hl2].
  split.
  { split; first congruence. apply Forall_forall.
    intros crow [i Hi]%list_elem_of_lookup_1.
    destruct (lookup_lt_is_Some_2 knn_p i) as [k Hk].
    { rewrite Hl1. by eapply lookup_lt_Some. }
    destruct (lookup_lt_is_Some_2 vocab_p i) as [v Hv].
    { rewrite Hl2. by eapply lookup_lt_Some. }
    destruct (zip_r_lookup _ _ _ _ Hc i k v Hk Hv) as (c' & Hc' & Hcomb).
    rewrite Hi in Hc'. injection Hc' as <-.
    destruct (zip_r_lengths _ _ _ _ Hcomb) as [<- _].
    rewrite Forall_forall in Hkr. apply Hkr.
    by eapply list_elem_of_lookup_2. }
  intros i j k v. unfold Dist.cell.
  destruct (knn_p !! i) as [krow|] eqn:Hk; last done.
  destruct (vocab_p !! i) as [vrow|] eqn:Hv; last done. simpl.
  intros Hkj Hvj.
  destruct (zip_r_lookup _ _ _ _ Hc i krow vrow Hk Hv) as (crow & -> & Hcr).
  simpl.
  destruct (zip_r_lookup _ _ _ _ Hcr j k v Hkj Hvj) as (z & -> & Hz).
  by injection Hz as <-.
Qed.

Lemma map2_cell {A B} (g : A -> B) (t : list (list A)) i j :
  Dist.cell (Tensor.map2 g t) i j = g <$> Dist.cell t i j.
Proof.
  unfold Dist.cell, Tensor.map2. rewrite list_lookup_fmap.
  destruct (t !! i) as [row|]; last done. simpl.
  by rewrite list_lookup_fmap.
Qed.

Lemma map2_shape {A B} (g : A -> B) (t : list (list A)) b c :
  Spec.has_shape t b c -> Spec.has_shape (Tensor.map2 g t) b c.
Proof.
  intros [Hl Hr]. unfold Tensor.map2. split; first by rewrite length_fmap.
  apply Forall_fmap. eapply Forall_impl; first exact Hr.
  intros row Hrow. simpl. by rewrite length_fmap.
Qed.

Lemma has_shape_cell {A} (t : list (list A)) b c i j :
  Spec.has_shape t b c -> (i < b)%nat -> (j < c)%nat ->
  is_Some (Dist.cell t i j).
Proof.
  intros [Hl Hr] Hi Hj. unfold Dist.cell.
  destruct (lookup_lt_is_Some_2 t i) as [row Hrow]; first lia.
  rewrite Hrow. simpl. apply lookup_lt_is_Some_2.
  rewrite Forall_forall in Hr. rewrite (Hr row); first done.
  by eapply list_elem_of_lookup_2.
Qed.

Lemma cell_bounds {A} (t : list (list A)) b c i j x :
  Spec.has_shape t b c -> Dist.cell t i j = Some x ->
  (i < b)%nat /\ (j < c)%nat.
Proof.
  intros [Hl Hr]. unfold Dist.cell.
  destruct (t !! i) as [row|] eqn:Hrow; last done. simpl. intros Hx.
  split; first (rewrite <- Hl; by eapply lookup_lt_Some).
  rewrite Forall_forall in Hr. rewrite <- (Hr row).
  - by eapply lookup_lt_Some.
  - by eapply list_elem_of_lookup_2.
Qed.

(** A transposed tensor: its shape, and its items. *)
Lemma permute10_shape {A} (t : list (list A)) (b c : nat) :
  Spec.has_shape t b c -> (0 < b)%nat ->
  exists t',
    Tensor.permute10 t = Ok t' /\
    Spec.has_shape t' c b /\
    forall i j x, Dist.cell t i j = Some x <-> Dist.cell t' j i = Some x.
Proof.
  intros Ht Hb. pose proof Ht as [Hl Hr].
  destruct (permute10_cells t c Hr) as (t' & Hrun & Hl' & Hr' & Hcells).
  { destruct t as [|row t]; first (simpl in Hl; lia).
    simpl. by apply Forall_cons in Hr as [Hrow _]. }
  exists t'. split; first exact Hrun.
  assert (Spec.has_shape t' c b) as Ht'.
  { split; first done. by rewrite <- Hl. }
  split; first exact Ht'.
  intros i j x. split; first apply Hcells.
  intros Hx. destruct (cell_bounds _ _ _ _ _ _ Ht' Hx) as [Hj Hi].
  destruct (has_shape_cell t b c i j Ht Hi Hj) as [y Hy].
  rewrite (Hcells i j y Hy) in Hx. congruence.
Qed.

Lemma same_shape3_of {A B} (a : list (list (list A)))
    (b : list (list (list B))) (n m v : nat) :
  Spec.has_shape a n m -> Spec.has_shape b n m ->
  (forall i j r, Dist.cell a i j = Some r -> length r = v) ->
  (forall i j r, Dist.cell b i j = Some r -> length r = v) ->
  Spec.same_shape3 a b.
Proof.
  intros [Hal Har] [Hbl Hbr] Ha Hb. unfold Spec.same_shape3.
  apply Forall2_same_length_lookup_2; first congruence.
  intros i ma mb Hma Hmb.
  rewrite Forall_forall in Har. rewrite Forall_forall in Hbr.
  apply Forall2_same_length_lookup_2.
  { rewrite (Har ma), (Hbr mb); first done;
      by eapply list_elem_of_lookup_2. }
  intros j ra rb Hra Hrb.
  rewrite (Ha i j ra), (Hb i j rb); first done.
  - unfold Dist.cell. by rewrite Hmb.
  - unfold Dist.cell. by rewrite Hma.
Qed.

(** The retrieval branch, with the casts of [--fp16]. *)
Lemma fuse_knn_cells (self : SequenceScorer R) (dstore : KNN_Dstore R)
    (rest : extra R) (orig_target : tensor2 Z) (probs : tensor2 R)
    (full_probs : tensor3 R) (w : world) (queries kp kvp : tensor3 R)
    (B T V : nat) :
  key_states self rest = Ok queries ->
  (0 < B)%nat -> (0 < T)%nat ->
  Spec.has_shape orig_target B T ->
  Spec.has_shape probs B T ->
  Spec.has_shape full_probs B T ->
  Forall (Forall (fun r : list R => length r = V)) full_probs ->
  (forall tgt_t lm_probs,
     Tensor.permute10 orig_target = Ok tgt_t ->
     Tensor.permute10 probs = Ok lm_probs ->
     get_knn_log_prob dstore queries tgt_t (id (w_sample w)) (pad self)
                      lm_probs = Ok (kp, kvp)) ->
  Spec.has_shape kp T B ->
  Forall (Forall (fun r : list R => length r = 1%nat)) kp ->
  Spec.has_shape kvp T B ->
  Forall (Forall (fun r : list R => length r = V)) kvp ->
  let cast := fun x : R => if fp16 (args self) then n_half x else x in
  exists probs' full',
    fuse_knn self 1 dstore rest orig_target probs full_probs w
    = (Ok (probs', full'),
       {| w_sample := w_sample w; w_calls := w_calls w ++ [KnnQuery] |}) /\
    Spec.has_shape probs' B T /\
    (forall b t p k,
       Dist.cell probs b t = Some p ->
       Dist.entry kp t b 0 = Some k ->
       Dist.cell probs' b t
       = Some (combine_scalar (lmbda (args self)) (cast k) (cast p))) /\
    (forall b t v q k,
       Dist.entry full_probs b t v = Some q ->
       Dist.entry kvp t b v = Some k ->
       Dist.entry full' b t v
       = Some (combine_scalar (lmbda (args self)) (cast k) q)).
Proof.
  intros Hq HB HT Htgt Hprobs Hfull HfullV Hknn Hkp Hkp1 Hkvp HkvpV cast.
  destruct (permute10_shape orig_target B T Htgt HB)
    as (tgt_t & Htgt_t & _ & _).
  destruct (permute10_shape probs B T Hprobs HB)
    as (lm_probs & Hlm & _ & _).
  destruct (permute10_shape kp T B Hkp HT) as (kp_t & Hkp_t & Hkps & Hkpc).
  destruct (permute10_shape kvp T B Hkvp HT)
    as (kvp_t & Hkvp_t & Hkvps & Hkvpc).
  destruct (squeeze_last_cells kp_t) as (kn & Hkn & Hknl & Hknc).
  { destruct Hkps as [_ Hrows]. apply Forall_forall.
    intros m [i Hm]%list_elem_of_lookup_1. apply Forall_forall.
    intros r [j Hr]%list_elem_of_lookup_1.
    assert (Dist.cell kp_t i j = Some r) as Hc
      by (unfold Dist.cell; by rewrite Hm).
    apply Hkpc in Hc. unfold Dist.cell in Hc.
    destruct (kp !! j) as [m'|] eqn:Hm'; last done. simpl in Hc.
    rewrite Forall_forall in Hkp1.
    pose proof (Hkp1 m' (list_elem_of_lookup_2 _ _ _ Hm')) as Hall.
    rewrite Forall_forall in Hall. apply Hall.
    by eapply list_elem_of_lookup_2. }
  assert (Spec.has_shape kn B T) as Hkns.
  { destruct Hkps as [Hl Hr]. split.
    - by rewrite <- (Forall2_length _ _ _ Hknl).
    - apply Forall_forall. intros row [i Hrow]%list_elem_of_lookup_1.
      destruct (Forall2_lookup_r _ _ _ _ _ Hknl Hrow) as (m & Hm & ->).
      rewrite Forall_forall in Hr. apply Hr.
      by eapply list_elem_of_lookup_2. }
  set (cast2 := fun t : tensor2 R =>
                  if fp16 (args self) then Tensor.map2 n_half t else t).
  set (cast3 := fun t : tensor3 R =>
                  if fp16 (args self) then Tensor.map3 n_half t else t).
  assert (forall t b c, Spec.has_shape t b c -> Spec.has_shape (cast2 t) b c)
    as Hcast_shape.
  { intros t b c Ht. unfold cast2. destruct (fp16 (args self)); last done.
    by apply map2_shape. }
  assert (forall t i j, Dist.cell (cast2 t) i j = cast <$> Dist.cell t i j)
    as Hcast_cell.
  { intros t i j. unfold cast2, cast.
    destruct (fp16 (args self)); first apply map2_cell.
    by destruct (Dist.cell t i j). }
  assert (forall t i j, Dist.cell (cast3 t) i j
                        = (fun r : list R => cast <$> r) <$> Dist.cell t i j)
    as Hcast_row.
  { intros t i j. unfold cast3, cast, Tensor.map3.
    destruct (fp16 (args self)); first apply map2_cell.
    destruct (Dist.cell t i j) as [r|]; last done. simpl.
    by rewrite list_fmap_id. }
  destruct (combine2_cells (lmbda (args self)) (cast2 kn) (cast2 probs) B T
              (Hcast_shape _ _ _ Hkns) (Hcast_shape _ _ _ Hprobs))
    as (probs' & Hprobs' & Hps & Hpc).
  assert (Spec.has_shape (cast3 kvp_t) B T) as Hkvs.
  { unfold cast3, Tensor.map3. destruct (fp16 (args self)); last done.
    by apply map2_shape. }
  destruct (combine_total (lmbda (args self)) (cast3 kvp_t) full_probs)
    as (full' & Hfull').
  { apply (same_shape3_of _ _ B T V Hkvs Hfull).
    - intros i j r. rewrite Hcast_row.
      destruct (Dist.cell kvp_t i j) as [r0|] eqn:Hr0; last done.
      simpl. intros [= <-]. rewrite length_fmap.
      apply Hkvpc in Hr0. unfold Dist.cell in Hr0.
      destruct (kvp !! j) as [m|] eqn:Hm; last done. simpl in Hr0.
      rewrite Forall_forall in HkvpV.
      pose proof (HkvpV m (list_elem_of_lookup_2 _ _ _ Hm)) as Hall.
      rewrite Forall_forall in Hall. apply Hall.
      by eapply list_elem_of_lookup_2.
    - intros i j r. unfold Dist.cell.
      destruct (full_probs !! i) as [m|] eqn:Hm; last done. simpl.
      intros Hr. rewrite Forall_forall in HfullV.
      pose proof (HfullV m (list_elem_of_lookup_2 _ _ _ Hm)) as Hall.
      rewrite Forall_forall in Hall. apply Hall.
      by eapply list_elem_of_lookup_2. }
  exists probs', full'. split; last split; last split.
  - unfold fuse_knn.
    unfold bind at 1. unfold lift at 1. rewrite Hq.
    cbn [Nat.eqb negb].
    unfold bind at 1. unfold lift at 1. rewrite Htgt_t.
    unfold bind at 1. unfold lift at 1. rewrite Hlm.
    unfold bind at 1. unfold get at 1.
    unfold bind at 1. unfold log_call at 1, modify at 1.
    unfold bind at 1. unfold lift at 1.
    rewrite (Hknn tgt_t lm_probs Htgt_t Hlm). cbn [fst snd].
    unfold bind at 1. unfold lift at 1. rewrite Hkp_t. cbn [rbind].
    rewrite Hkn.
    unfold bind at 1. unfold lift at 1. rewrite Hkvp_t.
    unfold cast2 in Hprobs'. unfold cast3 in Hfull'.
    unfold bind at 1. unfold lift at 1. rewrite Hprobs'.
    unfold bind at 1. unfold lift at 1. rewrite Hfull'.
    reflexivity.
  - exact Hps.
  - intros b t p k Hp Hk. apply Hpc.
    + rewrite Hcast_cell. rewrite (Hknc b t k); first done.
      unfold Dist.entry, Dist.row in *. fold (Dist.cell kp t b) in Hk.
      fold (Dist.cell kp_t b t).
      destruct (Dist.cell kp t b) as [r|] eqn:Hr; last done.
      apply Hkpc in Hr. by rewrite Hr.
    + by rewrite Hcast_cell, Hp.
  - intros b t v q k Hqv Hk.
    apply (combine_entry (lmbda (args self)) (cast3 kvp_t) full_probs);
      [exact Hfull' | | exact Hqv].
    unfold Dist.entry, Dist.row in *. fold (Dist.cell kvp t b) in Hk.
    fold (Dist.cell (cast3 kvp_t) b t). rewrite Hcast_row.
    destruct (Dist.cell kvp t b) as [r|] eqn:Hr; last done.
    apply Hkvpc in Hr. rewrite Hr. simpl. simpl in Hk.
    by rewrite list_lookup_fmap, Hk.
Qed.

(** X20. Retrieval fused into the scores of the one model, without
    [--fp16]: the retrieval provider is asked once, with the target
    and the probabilities of the model transposed to time-major, and
    what it returns is read back batch-major: the score at position
    [t] of sequence [b] mixes the score of the model there with the
    retrieval's at [t], [b], and the same holds for every symbol of
    the full distributions. *)
Theorem fuse_knn_positions (self : SequenceScorer R) (dstore : KNN_Dstore R)
    (rest : extra R) (orig_target : tensor2 Z) (probs : tensor2 R)
    (full_probs : tensor3 R) (w : world) (queries kp kvp : tensor3 R)
    (B T V : nat) :
  fp16 (args self) = false ->
  key_states self rest = Ok queries ->
  (0 < B)%nat -> (0 < T)%nat ->
  Spec.has_shape orig_target B T ->
  Spec.has_shape probs B T ->
  Spec.has_shape full_probs B T ->
  Forall (Forall (fun r : list R => length r = V)) full_probs ->
  (forall tgt_t lm_probs,
     Tensor.permute10 orig_target = Ok tgt_t ->
     Tensor.permute10 probs = Ok lm_probs ->
     get_knn_log_prob dstore queries tgt_t (id (w_sample w)) (pad self)
                      lm_probs = Ok (kp, kvp)) ->
  Spec.has_shape kp T B ->
  Forall (Forall (fun r : list R => length r = 1%nat)) kp ->
  Spec.has_shape kvp T B ->
  Forall (Forall (fun r : list R => length r = V)) kvp ->
  exists probs' full',
    fuse_knn self 1 dstore rest orig_target probs full_probs w
    = (Ok (probs', full'),
       {| w_sample := w_sample w; w_calls := w_calls w ++ [KnnQuery] |}) /\
    Spec.has_shape probs' B T /\
    (forall b t p k,
       Dist.cell probs b t = Some p ->
       Dist.entry kp t b 0 = Some k ->
       Dist.cell probs' b t
       = Some (combine_scalar (lmbda (args self)) k p)) /\
    (forall b t v q k,
       Dist.entry full_probs b t v = Some q ->
       Dist.entry kvp t b v = Some k ->
       Dist.entry full' b t v
       = Some (combine_scalar (lmbda (args self)) k q)).
Proof.
  intros Hfp Hq HB HT Htgt Hprobs Hfull HfullV Hknn Hkp Hkp1 Hkvp HkvpV.
  destruct (fuse_knn_cells self dstore rest orig_target probs full_probs w
              queries kp kvp B T V Hq HB HT Htgt Hprobs Hfull HfullV Hknn
              Hkp Hkp1 Hkvp HkvpV)
    as (probs' & full' & Hrun & Hshape & Hpos & Hvocab).
  rewrite Hfp in Hpos, Hvocab.
  exists probs', full'. split; first exact Hrun.
  split; first exact Hshape. split; [exact Hpos | exact Hvocab].
Qed.

End FusionFacts.

(** A batch of two sequences of one position over two symbols, and a
    retrieval provider that returns the same scores whatever it is
    asked. *)
Lemma fuse_knn_positions_witness :
  exists probs' full',
    Scorer.fuse_knn Examples.toy_scorer 1
      {| Scorer.get_knn_log_prob := fun _ _ _ _ _ =>
           Ok ([[[(-1)%R]; [(-2)%R]]],
               [[[(-1)%R; (-3)%R]; [(-2)%R; (-4)%R]]]) |}
      Examples.toy_extra [[5]; [6]] [[(-7)%R]; [(-8)%R]]
      [[[(-7)%R; (-9)%R]]; [[(-8)%R; (-9)%R]]] Examples.toy_world
    = (Ok (probs', full'),
       {| Scorer.w_sample := Examples.toy_sample;
          Scorer.w_calls := [Scorer.KnnQuery] |}) /\
    Dist.cell probs' 1 0
    = Some (Scorer.combine_scalar (1 / 4)%R (-2)%R (-8)%R).
Proof.
  destruct (fuse_knn_positions Examples.toy_scorer
              {| Scorer.get_knn_log_prob := fun _ _ _ _ _ =>
                   Ok ([[[(-1)%R]; [(-2)%R]]],
                       [[[(-1)%R; (-3)%R]; [(-2)%R; (-4)%R]]]) |}
              Examples.toy_extra [[5]; [6]] [[(-7)%R]; [(-8)%R]]
              [[[(-7)%R; (-9)%R]]; [[(-8)%R; (-9)%R]]] Examples.toy_world
              Examples.toy_states [[[(-1)%R]; [(-2)%R]]]
              [[[(-1)%R; (-3)%R]; [(-2)%R; (-4)%R]]] 2 1 2)
    as (probs' & full' & Hrun & _ & Hpos & _).
  - reflexivity.
  - reflexivity.
  - lia.
  - lia.
  - split; [reflexivity | repeat constructor].
  - split; [reflexivity | repeat constructor].
  - split; [reflexivity | repeat constructor].
  - repeat constructor.
  - intros tgt_t lm_probs _ _. reflexivity.
  - split; [reflexivity | repeat constructor].
  - repeat constructor.
  - split; [reflexivity | repeat constructor].
  - repeat constructor.
  - exists probs', full'. split; first exact Hrun.
    apply (Hpos 1%nat 0%nat); reflexivity.
Defined.

(** ** The closing report of a datastore run *)

Section ClosingFacts.
Context {R : Type} `{Numeric R}.
Variable uninit : R.
Variable extract_hard_alignment :
  list (list R) -> list Z -> list Z -> Z -> Z -> list Z.
Variable astype : bool -> list R -> list R.
Import Scorer Driver.

(** X21. A datastore run that reads no hypothesis, every batch being
    without ['net_input'] or there being none: the memmaps are opened,
    and the closing report of line 281 raises [UnboundLocalError] on
    [shape], before the division by the zero token count is reached. *)
Theorem datastore_without_hypothesis
    (a : Driver.Args) (dict : Dictionary) (scorer : SequenceScorer R)
    (models : list (Model R)) (knn : KNN_Dstore R) (samples : list Sample) :
  (0 < length models)%nat ->
  init (dict_pad dict) (dict_eos dict) (softmax_batch a) false
       (scorer_args a) = Ok scorer ->
  remove_bpe a <> Some None ->
  knnlm a = false ->
  save_knnlm_dstore (scorer_args a) = true ->
  Forall (fun s => net_input s = None) samples ->
  main uninit extract_hard_alignment astype a dict models knn samples
       initial
  = (Raise UnboundLocalError,
     {| events := [OpenMemmaps];
        store :=
          Some (Writer.open
                  (replicate (Z.to_nat (decoder_embed_dim a)) n_zero)
                  (dstore_size a));
        score_sum := None; count := 0; prediction_save := [] |}).
Proof.
  intros Hmodels Hinit Hbpe Hknn Hsave Hskip. unfold main.
  unfold bind at 1. rewrite decide_True by done. unfold ret at 1.
  unfold bind at 1. unfold lift at 1. rewrite Hinit.
  unfold bind at 1.
  assert (match remove_bpe a with
          | Some None => throw NotImplementedError
          | _ => ret tt
          end = ret (S := run) tt) as ->.
  { by destruct (remove_bpe a) as [[toks|]|]. }
  unfold ret at 1.
  rewrite Hknn, Hsave. cbn [andb].
  unfold bind at 1. unfold ret at 1.
  unfold bind at 1. unfold ret at 1.
  unfold bind at 1. unfold bind at 1.
  unfold log_events at 1, modify at 1. unfold modify at 1.
  unfold bind at 1.
  rewrite (imap_ext _ (fun k s => ((0 + k)%nat, s))) by done.
  rewrite (skipped_samples uninit extract_hard_alignment astype a dict
             scorer models None samples Hskip).
  unfold bind at 1. unfold bind at 1. unfold get at 1.
  cbn [store set_store shape_bound Writer.dstore_token_sample_map
       Writer.open].
  rewrite bool_decide_false by (intros Hne; by apply Hne).
  reflexivity.
Qed.

End ClosingFacts.

(** The datastore arguments on one model and one batch without
    input. *)
Lemma datastore_without_hypothesis_witness :
  (Driver.main 0%R Examples.no_alignment Examples.keep Cases.store_args
     Examples.toy_dict [Examples.toy_model 100 0] Examples.toy_knn
     [Cases.idle_sample] Driver.initial).1
  = Raise UnboundLocalError.
Proof.
  rewrite (datastore_without_hypothesis 0%R Examples.no_alignment
             Examples.keep Cases.store_args Examples.toy_dict
             {| Scorer.pad := 1; Scorer.eos := 2; Scorer.softmax_batch := 4;
                Scorer.compute_alignment := false;
                Scorer.args := Driver.scorer_args Cases.store_args;
                Scorer.top_preds := None |}
             [Examples.toy_model 100 0] Examples.toy_knn
             [Cases.idle_sample]).
  - reflexivity.
  - simpl. lia.
  - reflexivity.
  - discriminate.
  - reflexivity.
  - reflexivity.
  - constructor; [reflexivity | constructor].
Defined.
